(** * Stratum: a shallow embedding of [include/stratum/cache_sim.hpp]

    The header defines a compile-time chain of memory levels: the class
    template [Cache<Name, NextLayer, Sets, Ways, BlockSize, ReplacePolicy,
    HitLatency>] owns its next layer, and [MainMemory<Name>] ends the chain.
    Template parameters become phantom indices of the state records below, so
    that, as in C++, two levels with different parameters have different
    types, and the operations of a level are found from its type.

    Conventions.
    - [uint64_t] and [size_t] are integers in [0, 2^64); every operation that
      can leave that range is followed by [wrap64].
    - An operation whose C++ behaviour is undefined (division by zero, a
      [std::vector] subscript out of range) yields [None]; every operation
      therefore returns an [option]. *)

From Stdlib Require Import ZArith Lia.
From stdpp Require Import base option list strings numbers gmap.

Open Scope Z_scope.

(** ** Machine integers *)

Definition wrap64 (x : Z) : Z := x mod 2 ^ 64.

Definition in_u64 (x : Z) : Prop := 0 ≤ x < 2 ^ 64.

(** [a / b] and [a % b] on unsigned operands; undefined for [b = 0]. *)
Definition udiv (a b : Z) : option Z :=
  if decide (b = 0) then None else Some (a / b).

Definition umod (a b : Z) : option Z :=
  if decide (b = 0) then None else Some (a mod b).

(** ** Results and the interface of a level *)

Record AccessResult := mkResult {
  hit_level : string;
  total_cycles : Z
}.

Inductive AccessType := kLoad | kStore.

(** What [Cache] asks of its [NextLayer]: a [Load] and a [Store] member. *)
Class MemoryLevel (T : Type) := {
  Load : Z → T → option (AccessResult * T);
  Store : Z → T → option (AccessResult * T)
}.

(** What [Cache] asks of its [ReplacePolicy].  [stratum/policies.hpp] is not
    part of the sources at hand, so the policy is a parameter of the
    development; [GetVictim] may update the policy's own state.  Set and way
    indices are [size_t] values. *)
Class Policy (P : Type) := {
  construct : Z → Z → P;
  OnHit : Z → Z → P → P;
  OnFill : Z → Z → P → P;
  GetVictim : Z → P → Z * P
}.

(** ** MainMemory *)

Record MainMemory (Name : string) := mkMainMemory {
  latency_ : Z
}.
Arguments mkMainMemory {Name} _.
Arguments latency_ {Name} _.

#[export] Instance MainMemory_level (Name : string) : MemoryLevel (MainMemory Name) := {
  Load _ m := Some (mkResult Name (latency_ m), m);
  Store _ m := Some (mkResult Name (latency_ m), m)
}.

(** ** Cache *)

Record Line := mkLine {
  valid : bool;
  dirty : bool;
  tag : Z
}.

Definition empty_line : Line := mkLine false false 0.

Record Cache (Name : string) (NextLayer : Type) (Sets Ways BlockSize : Z)
    (ReplacePolicy : Type) (HitLatency : Z) := mkCache {
  next_ : NextLayer;
  sets_ : list (list Line);
  policy_ : ReplacePolicy;
  hits_ : Z;
  misses_ : Z;
  evictions_ : Z
}.
Arguments mkCache {Name NextLayer Sets Ways BlockSize ReplacePolicy HitLatency}.
Arguments next_ {Name NextLayer Sets Ways BlockSize ReplacePolicy HitLatency} _.
Arguments sets_ {Name NextLayer Sets Ways BlockSize ReplacePolicy HitLatency} _.
Arguments policy_ {Name NextLayer Sets Ways BlockSize ReplacePolicy HitLatency} _.
Arguments hits_ {Name NextLayer Sets Ways BlockSize ReplacePolicy HitLatency} _.
Arguments misses_ {Name NextLayer Sets Ways BlockSize ReplacePolicy HitLatency} _.
Arguments evictions_ {Name NextLayer Sets Ways BlockSize ReplacePolicy HitLatency} _.

(** [sets_[set_idx][way_idx]], read and written. *)
Definition line_at (sets : list (list Line)) (set_idx way_idx : Z) : option Line :=
  row ← sets !! Z.to_nat set_idx; row !! Z.to_nat way_idx.

Definition update_line (f : Line → Line) (sets : list (list Line))
    (set_idx way_idx : Z) : option (list (list Line)) :=
  row ← sets !! Z.to_nat set_idx;
  l ← row !! Z.to_nat way_idx;
  Some (<[Z.to_nat set_idx := <[Z.to_nat way_idx := f l]> row]> sets).

(** The loop [for (way_idx = from; way_idx < Ways; ++way_idx) if (p(line)) ...]
    with [n] iterations left: the first way whose line satisfies [p]. *)
Fixpoint scan_ways (p : Line → bool) (sets : list (list Line)) (set_idx : Z)
    (n : nat) (way_idx : Z) : option (option Z) :=
  match n with
  | O => Some None
  | S n' =>
      l ← line_at sets set_idx way_idx;
      if p l then Some (Some way_idx)
      else scan_ways p sets set_idx n' (way_idx + 1)
  end.

Definition tag_match (t : Z) (l : Line) : bool := valid l && bool_decide (tag l = t).

Definition mark_dirty (l : Line) : Line := mkLine (valid l) true (tag l).

Definition install (t : Z) (_ : Line) : Line := mkLine true false t.

(** The address decomposition of [Load] and [Store]; [BlockSize * Sets] is a
    [size_t] product. *)
Definition set_index (Sets BlockSize addr : Z) : option Z :=
  q ← udiv addr BlockSize; umod q Sets.

Definition tag_of (Sets BlockSize addr : Z) : option Z :=
  udiv addr (wrap64 (BlockSize * Sets)).

(** [(victim.tag * Sets + set_idx) * BlockSize] of [Fill]. *)
Definition evict_addr_of (Sets BlockSize victim_tag set_idx : Z) : Z :=
  wrap64 (wrap64 (wrap64 (victim_tag * Sets) + set_idx) * BlockSize).

Section Cache.
Context {Name : string} {NextLayer : Type} `{!MemoryLevel NextLayer}.
Context {Sets Ways BlockSize : Z}.
Context {ReplacePolicy : Type} `{!Policy ReplacePolicy}.
Context {HitLatency : Z}.

Local Abbreviation cache := (Cache Name NextLayer Sets Ways BlockSize ReplacePolicy HitLatency).

(** The constructor; its arguments are forwarded to the next layer, which is
    built first. *)
Definition Cache_new (next : NextLayer) : cache :=
  mkCache next
    (replicate (Z.to_nat Sets) (replicate (Z.to_nat Ways) empty_line))
    (construct Sets Ways) 0 0 0.

Definition StatsHit (c : cache) : cache :=
  mkCache (next_ c) (sets_ c) (policy_ c) (wrap64 (hits_ c + 1)) (misses_ c) (evictions_ c).

Definition StatsMiss (c : cache) : cache :=
  mkCache (next_ c) (sets_ c) (policy_ c) (hits_ c) (wrap64 (misses_ c + 1)) (evictions_ c).

Definition with_next (n : NextLayer) (c : cache) : cache :=
  mkCache n (sets_ c) (policy_ c) (hits_ c) (misses_ c) (evictions_ c).

Definition with_sets (s : list (list Line)) (c : cache) : cache :=
  mkCache (next_ c) s (policy_ c) (hits_ c) (misses_ c) (evictions_ c).

Definition with_policy (p : ReplacePolicy) (c : cache) : cache :=
  mkCache (next_ c) (sets_ c) p (hits_ c) (misses_ c) (evictions_ c).

Definition count_eviction (c : cache) : cache :=
  mkCache (next_ c) (sets_ c) (policy_ c) (hits_ c) (misses_ c) (wrap64 (evictions_ c + 1)).

(** The tag lookup loop shared by [Load] and [Store]. *)
Definition find_way (set_idx t : Z) (c : cache) : option (option Z) :=
  scan_ways (tag_match t) (sets_ c) set_idx (Z.to_nat Ways) 0.

(** The first loop of [Fill]: the first invalid way, or [Ways]. *)
Definition first_invalid (set_idx : Z) (c : cache) : option Z :=
  r ← scan_ways (λ l, negb (valid l)) (sets_ c) set_idx (Z.to_nat Ways) 0;
  Some (default Ways r).

(** The body of [if (victim_way_idx == Ways)] in [Fill]: ask the policy, and
    write the victim back when it is valid and dirty. *)
Definition choose_victim (set_idx : Z) (c : cache) : option (Z * cache) :=
  let '(victim_way_idx, p) := GetVictim set_idx (policy_ c) in
  let c := with_policy p c in
  victim ← line_at (sets_ c) set_idx victim_way_idx;
  if valid victim && dirty victim then
    '(_, n) ← Store (evict_addr_of Sets BlockSize (tag victim) set_idx) (next_ c);
    Some (victim_way_idx, count_eviction (with_next n c))
  else Some (victim_way_idx, c).

(** The last three assignments of [Fill] and the call of [OnFill]. *)
Definition overwrite (set_idx t victim_way_idx : Z) (c : cache) : option cache :=
  sets ← update_line (install t) (sets_ c) set_idx victim_way_idx;
  Some (with_policy (OnFill set_idx victim_way_idx (policy_ c)) (with_sets sets c)).

Definition Fill (set_idx t : Z) (c : cache) : option cache :=
  victim_way_idx ← first_invalid set_idx c;
  '(victim_way_idx, c) ←
    (if decide (victim_way_idx = Ways) then choose_victim set_idx c
     else Some (victim_way_idx, c));
  overwrite set_idx t victim_way_idx c.

Definition Cache_Load (addr : Z) (c : cache) : option (AccessResult * cache) :=
  set_idx ← set_index Sets BlockSize addr;
  t ← tag_of Sets BlockSize addr;
  hit ← find_way set_idx t c;
  match hit with
  | Some way_idx =>
      let c := StatsHit c in
      Some (mkResult Name HitLatency,
            with_policy (OnHit set_idx way_idx (policy_ c)) c)
  | None =>
      let c := StatsMiss c in
      '(res, n) ← Load addr (next_ c);
      let res := mkResult (hit_level res) (wrap64 (total_cycles res + HitLatency)) in
      c ← Fill set_idx t (with_next n c);
      Some (res, c)
  end.

(** The last loop of [Store]: dirty the first valid line carrying the tag. *)
Definition dirty_filled (set_idx t : Z) (c : cache) : option cache :=
  hit ← find_way set_idx t c;
  match hit with
  | Some way_idx =>
      sets ← update_line mark_dirty (sets_ c) set_idx way_idx;
      Some (with_sets sets c)
  | None => Some c
  end.

Definition Cache_Store (addr : Z) (c : cache) : option (AccessResult * cache) :=
  set_idx ← set_index Sets BlockSize addr;
  t ← tag_of Sets BlockSize addr;
  hit ← find_way set_idx t c;
  match hit with
  | Some way_idx =>
      let c := StatsHit c in
      sets ← update_line mark_dirty (sets_ c) set_idx way_idx;
      let c := with_sets sets c in
      Some (mkResult Name HitLatency,
            with_policy (OnHit set_idx way_idx (policy_ c)) c)
  | None =>
      let c := StatsMiss c in
      '(res, n) ← Load addr (next_ c);
      let res := mkResult (hit_level res) (wrap64 (total_cycles res + HitLatency)) in
      c ← Fill set_idx t (with_next n c);
      c ← dirty_filled set_idx t c;
      Some (res, c)
  end.

#[export] Instance Cache_level : MemoryLevel cache := {
  Load := Cache_Load;
  Store := Cache_Store
}.
End Cache.


(** ** LRUPolicy *)

(** Modelled from the spec: [LRUPolicy] of [stratum/policies.hpp], which is
    missing from the sources.  Per set, a recency ordering over way indices,
    least recently used first.  [OnHit] and [OnFill] mark the way most
    recently used; [GetVictim] returns the least recently used way.  The spec
    leaves the initial ordering open: ways start in ascending order. *)
Record LRUPolicy := mkLRU {
  recency : list (list Z)
}.

Definition lru_touch (set_idx way_idx : Z) (p : LRUPolicy) : LRUPolicy :=
  mkLRU (alter (λ order, filter (λ w, w ≠ way_idx) order ++ [way_idx])
               (Z.to_nat set_idx) (recency p)).

#[export] Instance LRUPolicy_policy : Policy LRUPolicy := {
  construct sets ways := mkLRU (replicate (Z.to_nat sets) (seqZ 0 ways));
  OnHit := lru_touch;
  OnFill := lru_touch;
  GetVictim set_idx p :=
    (default 0 (order ← recency p !! Z.to_nat set_idx; head order), p)
}.

(** ** Instrumentation *)

(** A transparent layer that records the calls it receives before handing
    them to the layer it wraps; placed below a [Cache] it shows which calls
    that cache issues to its next level, and in which order. *)
Record Probe (Inner : Type) := mkProbe {
  calls : list (AccessType * Z);
  inner : Inner
}.
Arguments mkProbe {Inner} _ _.
Arguments calls {Inner} _.
Arguments inner {Inner} _.

#[export] Instance Probe_level {Inner : Type} `{!MemoryLevel Inner} : MemoryLevel (Probe Inner) := {
  Load addr p :=
    '(r, i) ← Load addr (inner p);
    Some (r, mkProbe (calls p ++ [(kLoad, addr)]) i);
  Store addr p :=
    '(r, i) ← Store addr (inner p);
    Some (r, mkProbe (calls p ++ [(kStore, addr)]) i)
}.

(** A policy wrapper that counts the [GetVictim] requests it receives. *)
Record Consulted (P : Type) := mkConsulted {
  victim_requests : list Z;
  wrapped : P
}.
Arguments mkConsulted {P} _ _.
Arguments victim_requests {P} _.
Arguments wrapped {P} _.

#[export] Instance Consulted_policy {P : Type} `{!Policy P} : Policy (Consulted P) := {
  construct sets ways := mkConsulted [] (construct sets ways);
  OnHit s w p := mkConsulted (victim_requests p) (OnHit s w (wrapped p));
  OnFill s w p := mkConsulted (victim_requests p) (OnFill s w (wrapped p));
  GetVictim s p :=
    let '(w, q) := GetVictim s (wrapped p) in
    (w, mkConsulted (victim_requests p ++ [s]) q)
}.

(** ** Hierarchies *)

(** The shape of a hierarchy type: nested [Cache] instantiations over one
    [MainMemory].  The index is the C++ type of the top level. *)
Inductive Chain : Type → Type :=
| chain_memory (Name : string) : Chain (MainMemory Name)
| chain_cache (Name : string) {NextLayer : Type} (next : Chain NextLayer)
    (Sets Ways BlockSize : Z) (ReplacePolicy : Type) `{!Policy ReplacePolicy}
    (HitLatency : Z)
  : Chain (Cache Name NextLayer Sets Ways BlockSize ReplacePolicy HitLatency).

(** The members [Load] and [Store] of a hierarchy type. *)
Fixpoint chain_level {T : Type} (c : Chain T) : MemoryLevel T :=
  match c with
  | chain_memory Name => MainMemory_level Name
  | @chain_cache Name NextLayer next Sets Ways BlockSize ReplacePolicy pol HitLatency =>
      @Cache_level Name NextLayer (chain_level next) Sets Ways BlockSize
        ReplacePolicy pol HitLatency
  end.

(** Construction: the argument reaches [MainMemory] through every [Cache]. *)
Fixpoint chain_new {T : Type} (c : Chain T) (lat : Z) : T :=
  match c with
  | chain_memory Name => mkMainMemory lat
  | chain_cache Name next Sets Ways BlockSize ReplacePolicy HitLatency =>
      Cache_new (chain_new next lat)
  end.

(** The configured level names, top to bottom. *)
Fixpoint level_names {T : Type} (c : Chain T) : list string :=
  match c with
  | chain_memory Name => [Name]
  | chain_cache Name next _ _ _ _ _ => Name :: level_names next
  end.

Fixpoint memory_name {T : Type} (c : Chain T) : string :=
  match c with
  | chain_memory Name => Name
  | chain_cache _ next _ _ _ _ _ => memory_name next
  end.


(** The lines of every level, top to bottom. *)
Fixpoint chain_lines {T : Type} (c : Chain T) : T → list (list (list Line)) :=
  match c with
  | chain_memory _ => λ _, []
  | chain_cache _ next _ _ _ _ _ => λ st, sets_ st :: chain_lines next (next_ st)
  end.

(** ** Driving a level with a trace *)

Definition access {T : Type} `{!MemoryLevel T} (op : AccessType) (addr : Z) (s : T)
    : option (AccessResult * T) :=
  match op with
  | kLoad => Load addr s
  | kStore => Store addr s
  end.

Fixpoint run {T : Type} `{!MemoryLevel T} (trace : list (AccessType * Z)) (s : T)
    : option (list AccessResult * T) :=
  match trace with
  | [] => Some ([], s)
  | (op, addr) :: rest =>
      '(r, s) ← access op addr s;
      '(rs, s) ← run rest s;
      Some (r :: rs, s)
  end.

(** * Specification vocabulary *)

(** ** Well-formed parameters and states *)

(** Parameters for which neither division of the decomposition is by zero
    and [Fill] has a way to choose. *)
Definition level_config_ok (Sets Ways BlockSize : Z) : Prop :=
  0 < Sets ∧ 0 < Ways ∧ 0 < BlockSize ∧ wrap64 (BlockSize * Sets) ≠ 0.

(** Parameters for which, moreover, [BlockSize * Sets] does not overflow. *)
Definition geometry_ok (Sets BlockSize : Z) : Prop :=
  0 < Sets ∧ 0 < BlockSize ∧ BlockSize * Sets < 2 ^ 64.

Definition block_base (BlockSize addr : Z) : Z := addr / BlockSize * BlockSize.

(** [sets_] as the constructor allocates it: [Sets] rows of [Ways] lines. *)
Definition shape_ok (Sets Ways : Z) (sets : list (list Line)) : Prop :=
  length sets = Z.to_nat Sets ∧ Forall (λ row, length row = Z.to_nat Ways) sets.

(** The contract between [Cache] and its policy: on the indices a cache
    passes, the policy keeps some invariant [I] of its own, under which
    [GetVictim] answers with a way of the set. *)
Record policy_contract {P : Type} `{!Policy P} (Sets Ways : Z) (I : P → Prop) : Prop := {
  contract_OnHit s w p : 0 ≤ s < Sets → 0 ≤ w < Ways → I p → I (OnHit s w p);
  contract_OnFill s w p : 0 ≤ s < Sets → 0 ≤ w < Ways → I p → I (OnFill s w p);
  contract_GetVictim s p :
    0 ≤ s < Sets → I p → 0 ≤ (GetVictim s p).1 < Ways ∧ I (GetVictim s p).2
}.

Definition policy_safe {P : Type} `{!Policy P} (Sets Ways : Z) (p : P) : Prop :=
  ∃ I : P → Prop, policy_contract Sets Ways I ∧ I p.

(** A level whose operations are defined on, and preserve, the states in
    [ok]. *)
Class LevelSafe (T : Type) `{!MemoryLevel T} (ok : T → Prop) : Prop := {
  Load_safe addr s : ok s → ∃ r s', Load addr s = Some (r, s') ∧ ok s';
  Store_safe addr s : ok s → ∃ r s', Store addr s = Some (r, s') ∧ ok s'
}.

(** ** Lines of a set *)

(** Some way of set [set_idx] holds a valid line with tag [t]. *)
Definition resident (Ways : Z) (sets : list (list Line)) (set_idx t : Z) : Prop :=
  ∃ w l, 0 ≤ w < Ways ∧ line_at sets set_idx w = Some l
         ∧ valid l = true ∧ tag l = t.

(** Tag uniqueness: two valid lines of one set carry different tags. *)
Definition row_unique (row : list Line) : Prop :=
  ∀ (i j : nat) li lj,
    row !! i = Some li → row !! j = Some lj →
    valid li = true → valid lj = true → tag li = tag lj → i = j.

Definition tags_unique (sets : list (list Line)) : Prop := Forall row_unique sets.

(** The round trip of one address through the decomposition of [Load] and
    [Store] and the reconstruction of [Fill]: both divisions are defined, the
    reconstruction [(tag * Sets + set) * BlockSize] does not overflow and
    yields the block-aligned base of the address, which decomposes to the
    same set index and the same tag. *)
Definition roundtrip (Sets BlockSize addr : Z) : Prop :=
  ∃ s t,
    set_index Sets BlockSize addr = Some s
    ∧ tag_of Sets BlockSize addr = Some t
    ∧ in_u64 (t * Sets) ∧ in_u64 (t * Sets + s) ∧ in_u64 ((t * Sets + s) * BlockSize)
    ∧ evict_addr_of Sets BlockSize t s = block_base BlockSize addr
    ∧ set_index Sets BlockSize (evict_addr_of Sets BlockSize t s) = Some s
    ∧ tag_of Sets BlockSize (evict_addr_of Sets BlockSize t s) = Some t.

Section CacheVocabulary.
Context {Name : string} {NextLayer : Type} `{!MemoryLevel NextLayer}.
Context {Sets Ways BlockSize : Z}.
Context {ReplacePolicy : Type} `{!Policy ReplacePolicy}.
Context {HitLatency : Z}.

Local Abbreviation cache := (Cache Name NextLayer Sets Ways BlockSize ReplacePolicy HitLatency).

(** The states of a cache level on which its operations are defined. *)
Definition cache_ok (next_ok : NextLayer → Prop) (c : cache) : Prop :=
  level_config_ok Sets Ways BlockSize
  ∧ shape_ok Sets Ways (sets_ c)
  ∧ policy_safe Sets Ways (policy_ c)
  ∧ next_ok (next_ c).

(** The lines of a cache level are as allocated and tags are unique per
    set, and the next level satisfies [next_inv]. *)
Definition keeps_unique (next_inv : NextLayer → Prop) (c : cache) : Prop :=
  shape_ok Sets Ways (sets_ c) ∧ tags_unique (sets_ c) ∧ next_inv (next_ c).

(** The tag lookup of [Load] and [Store] for an address: the way that hits,
    if any. *)
Definition lookup (addr : Z) (c : cache) : option (option Z) :=
  set_idx ← set_index Sets BlockSize addr;
  t ← tag_of Sets BlockSize addr;
  find_way set_idx t c.

(** The line of an address is in the cache. *)
Definition holds (addr : Z) (c : cache) : Prop :=
  ∃ s t, set_index Sets BlockSize addr = Some s
         ∧ tag_of Sets BlockSize addr = Some t
         ∧ resident Ways (sets_ c) s t.

(** The line of an address is in the cache and dirty. *)
Definition holds_dirty (addr : Z) (c : cache) : Prop :=
  ∃ s t w l, set_index Sets BlockSize addr = Some s
             ∧ tag_of Sets BlockSize addr = Some t
             ∧ 0 ≤ w < Ways ∧ line_at (sets_ c) s w = Some l
             ∧ valid l = true ∧ dirty l = true ∧ tag l = t.

(** [survives addr trace c c']: the accesses of [trace] lead from [c] to
    [c'], and the line of [addr] is in the cache before and after each. *)
Inductive survives (addr : Z) : list (AccessType * Z) → cache → cache → Prop :=
| survives_nil c : holds addr c → survives addr [] c c
| survives_cons op a rest c r c' c'' :
    holds addr c →
    access op a c = Some (r, c') →
    survives addr rest c' c'' →
    survives addr ((op, a) :: rest) c c''.
End CacheVocabulary.

(** ** Well-formed hierarchies *)

(** Every level has well-formed parameters. *)
Fixpoint chain_params_ok {T : Type} (c : Chain T) : Prop :=
  match c with
  | chain_memory _ => True
  | chain_cache _ next Sets Ways BlockSize _ _ =>
      level_config_ok Sets Ways BlockSize ∧ chain_params_ok next
  end.

(** Every level has well-formed parameters and a policy that honours the
    contract from its constructed state on. *)
Fixpoint chain_config_ok {T : Type} (c : Chain T) : Prop :=
  match c with
  | chain_memory _ => True
  | chain_cache _ next Sets Ways BlockSize ReplacePolicy _ =>
      level_config_ok Sets Ways BlockSize
      ∧ policy_safe Sets Ways (construct (P := ReplacePolicy) Sets Ways)
      ∧ chain_config_ok next
  end.

Fixpoint chain_ok {T : Type} (c : Chain T) : T → Prop :=
  match c with
  | chain_memory _ => λ m, in_u64 (latency_ m)
  | chain_cache _ next _ _ _ _ _ => cache_ok (chain_ok next)
  end.

(** At every cache level, [sets_] is as allocated and no set holds two
    valid lines with one tag. *)
Fixpoint chain_unique {T : Type} (c : Chain T) : T → Prop :=
  match c with
  | chain_memory _ => λ _, True
  | chain_cache _ next _ _ _ _ _ => keeps_unique (chain_unique next)
  end.

(** The tag lookup for [addr] fails at every cache level. *)
Fixpoint misses_everywhere {T : Type} (c : Chain T) (addr : Z) : T → Prop :=
  match c with
  | chain_memory _ => λ _, True
  | chain_cache _ next _ _ _ _ _ =>
      λ st, lookup addr st = Some None ∧ misses_everywhere next addr (next_ st)
  end.

(** The top [k] cache levels miss the tag lookup for [addr] and the cache
    level below them hits: the access is serviced by the cache level in
    position [k] of the hierarchy, counted from 0. *)
Fixpoint hits_at_depth {T : Type} (c : Chain T) (addr : Z) (k : nat) : T → Prop :=
  match c with
  | chain_memory _ => λ _, False
  | chain_cache _ next _ _ _ _ _ =>
      λ st,
        match k with
        | O => ∃ w, lookup addr st = Some (Some w)
        | S k' => lookup addr st = Some None ∧ hits_at_depth next addr k' (next_ st)
        end
  end.



(** The invariant of [LRUPolicy] behind its contract: every set has a
    non-empty ordering of ways of the set. *)
Definition lru_inv (Sets Ways : Z) (p : LRUPolicy) : Prop :=
  ∀ s, 0 ≤ s < Sets →
    ∃ order, recency p !! Z.to_nat s = Some order
             ∧ order ≠ [] ∧ Forall (λ w, 0 ≤ w < Ways) order.

(** ** Concrete hierarchies *)

Module Examples.
(** Two cache levels over the main memory. *)
Definition two_level_type : Type :=
  Cache "L1" (Cache "L2" (MainMemory "MainMemory") 4 2 64 LRUPolicy 10)
    2 1 16 LRUPolicy 1.

Definition two_level : Chain two_level_type :=
  chain_cache "L1"
    (chain_cache "L2" (chain_memory "MainMemory") 4 2 64 LRUPolicy 10)
    2 1 16 LRUPolicy 1.



(** One direct-mapped level of two sets, probed from below. *)
Definition direct_type : Type :=
  Cache "L1" (Probe (MainMemory "MainMemory")) 2 1 4 LRUPolicy 1.

Definition direct_start : direct_type := Cache_new (mkProbe [] (mkMainMemory 100)).
End Examples.

(** [Examples.two_level] over a main memory of latency 100 after [Load(0)]
    and [Store(64)]: both addresses map to set 0 of L1, whose single way now
    holds the dirty line of 64, while L2 holds the lines of both; and the
    same hierarchy after a further [Load(0)]. *)
Module Conflict.
Definition before : Examples.two_level_type :=
  mkCache
    (mkCache (mkMainMemory 100)
       [[mkLine true false 0; mkLine false false 0];
        [mkLine true false 0; mkLine false false 0];
        [mkLine false false 0; mkLine false false 0];
        [mkLine false false 0; mkLine false false 0]]
       (mkLRU [[1; 0]; [1; 0]; [0; 1]; [0; 1]]) 0 2 0)
    [[mkLine true true 2]; [mkLine false false 0]]
    (mkLRU [[0]; [0]]) 0 2 0.

Definition after : Examples.two_level_type :=
  mkCache
    (mkCache (mkMainMemory 100)
       [[mkLine true false 0; mkLine false false 0];
        [mkLine true true 0; mkLine false false 0];
        [mkLine false false 0; mkLine false false 0];
        [mkLine false false 0; mkLine false false 0]]
       (mkLRU [[1; 0]; [1; 0]; [0; 1]; [0; 1]]) 2 2 0)
    [[mkLine true false 0]; [mkLine false false 0]]
    (mkLRU [[0]; [0]]) 0 3 1.
End Conflict.

(** The hierarchy of the spec's scenario, [L1(Sets=1, Ways=1, BlockSize=4,
    HitLatency=1)] over [MainMemory(latency=100)], with a probe between the
    two. *)
Module Scenario.
Definition L1 : Type := Cache "L1" (Probe (MainMemory "MainMemory")) 1 1 4 LRUPolicy 1.
Definition start : L1 := Cache_new (mkProbe [] (mkMainMemory 100)).

(** [start] after [Load(0)]. *)
Definition warm : L1 :=
  mkCache (mkProbe [(kLoad, 0)] (mkMainMemory 100))
    [[mkLine true false 0]] (mkLRU [[0]]) 0 1 0.

(** [start] after [Store(5)]; after [Store(5); Load(6)]; and after
    [Store(5); Load(6); Load(0)]. *)
Definition stored : L1 :=
  mkCache (mkProbe [(kLoad, 5)] (mkMainMemory 100))
    [[mkLine true true 1]] (mkLRU [[0]]) 0 1 0.

Definition reread : L1 :=
  mkCache (mkProbe [(kLoad, 5)] (mkMainMemory 100))
    [[mkLine true true 1]] (mkLRU [[0]]) 1 1 0.

Definition evicted : L1 :=
  mkCache (mkProbe [(kLoad, 5); (kLoad, 0); (kStore, 4)] (mkMainMemory 100))
    [[mkLine true false 0]] (mkLRU [[0]]) 1 2 1.
End Scenario.

(** The scenario's level with a policy that records its consultations, in
    the state after [Load(0)]: its single way is valid. *)
Module Audited.
Definition L1 : Type :=
  Cache "L1" (MainMemory "MainMemory") 1 1 4 (Consulted LRUPolicy) 1.

Definition full : L1 :=
  mkCache (mkMainMemory 100) [[mkLine true false 0]]
    (mkConsulted [] (mkLRU [[0]])) 0 1 0.

(** [full] after [Fill(0, 1)]. *)
Definition refilled : L1 :=
  mkCache (mkMainMemory 100) [[mkLine true false 1]]
    (mkConsulted [0] (mkLRU [[0]])) 0 1 0.
End Audited.


(** * Further vocabulary *)

(** The invariant of a line: a dirty line is valid. *)
Definition line_ok (l : Line) : Prop := dirty l = true → valid l = true.

Definition lines_ok (sets : list (list Line)) : Prop := Forall (Forall line_ok) sets.

(** At every cache level, every dirty line is valid. *)
Fixpoint chain_lines_ok {T : Type} (c : Chain T) : T → Prop :=
  match c with
  | chain_memory _ => λ _, True
  | chain_cache _ next _ _ _ _ _ =>
      λ st, lines_ok (sets_ st) ∧ chain_lines_ok next (next_ st)
  end.

#[export] Instance AccessType_eq_dec : EqDecision AccessType.
Proof. solve_decision. Defined.

(** How many calls of a log are of kind [op]. *)
Definition count_calls (op : AccessType) (log : list (AccessType * Z)) : Z :=
  Z.of_nat (length (filter (λ call, call.1 = op) log)).


(** The calls a policy receives, and a policy wrapper that records them in
    order. *)
Inductive PolicyCall :=
| CallOnHit (set_idx way_idx : Z)
| CallOnFill (set_idx way_idx : Z)
| CallGetVictim (set_idx : Z).

Record Notified (P : Type) := mkNotified {
  notifications : list PolicyCall;
  notified : P
}.
Arguments mkNotified {P} _ _.
Arguments notifications {P} _.
Arguments notified {P} _.

#[export] Instance Notified_policy {P : Type} `{!Policy P} : Policy (Notified P) := {
  construct sets ways := mkNotified [] (construct sets ways);
  OnHit s w p :=
    mkNotified (notifications p ++ [CallOnHit s w]) (OnHit s w (notified p));
  OnFill s w p :=
    mkNotified (notifications p ++ [CallOnFill s w]) (OnFill s w (notified p));
  GetVictim s p :=
    let '(w, q) := GetVictim s (notified p) in
    (w, mkNotified (notifications p ++ [CallGetVictim s]) q)
}.

(** The scenario's level over a recording policy, after [Load(0)]. *)
Module Watched.
Definition L1 : Type :=
  Cache "L1" (MainMemory "MainMemory") 1 1 4 (Notified LRUPolicy) 1.

Definition warm : L1 :=
  mkCache (mkMainMemory 100) [[mkLine true false 0]]
    (mkNotified [CallOnFill 0 0] (mkLRU [[0]])) 0 1 0.

(** [warm] after [Load(4)]. *)
Definition refilled : L1 :=
  mkCache (mkMainMemory 100) [[mkLine true false 1]]
    (mkNotified [CallOnFill 0 0; CallGetVictim 0; CallOnFill 0 0] (mkLRU [[0]]))
    0 2 0.
End Watched.


(** ** Reporting *)

Record CacheStats := mkStats {
  hits : Z;
  misses : Z;
  total_latency : Z
}.

(** [stats_db[level_name]], read: an absent entry is created with zeros. *)
Definition stats_at (stats_db : gmap string CacheStats) (level_name : string)
    : CacheStats :=
  default (mkStats 0 0 0) (stats_db !! level_name).

(** [stats_db[level_name].hits++; stats_db[level_name].total_latency += cycles]. *)
Definition record_hit (level_name : string) (cycles : Z)
    (stats_db : gmap string CacheStats) : gmap string CacheStats :=
  let s := stats_at stats_db level_name in
  <[level_name := mkStats (wrap64 (hits s + 1)) (misses s)
                    (wrap64 (total_latency s + cycles))]> stats_db.

(** [stats_db[level_name].misses++]. *)
Definition record_miss (level_name : string)
    (stats_db : gmap string CacheStats) : gmap string CacheStats :=
  let s := stats_at stats_db level_name in
  <[level_name := mkStats (hits s) (wrap64 (misses s + 1)) (total_latency s)]> stats_db.

(** The inner loop of [PrintSimulationStats] for one result: down the
    hierarchy, a miss for every level before the one that hit, a hit there,
    and nothing below; the flag is [hit_found]. *)
Fixpoint attribute (hierarchy : list string) (res : AccessResult)
    (stats_db : gmap string CacheStats) : bool * gmap string CacheStats :=
  match hierarchy with
  | [] => (false, stats_db)
  | level_name :: rest =>
      if decide (level_name = hit_level res)
      then (true, record_hit level_name (total_cycles res) stats_db)
      else attribute rest res (record_miss level_name stats_db)
  end.

(** The first loop of [PrintSimulationStats]: the hit levels reported on
    [stderr], in order, and [stats_db]. *)
Definition aggregate (history : list AccessResult) (hierarchy : list string)
    : list string * gmap string CacheStats :=
  foldl (λ acc res,
           let '(found, stats_db) := attribute hierarchy res acc.2 in
           (if found then acc.1 else acc.1 ++ [hit_level res], stats_db))
        ([], ∅) history.

(** What [PrintSimulationStats] prints: the error lines, and the table rows,
    one per level of the hierarchy, each with the counters its line is
    formatted from.  The average latency of a row is a [double] computed from
    [total_latency] and [hits]; it is not part of this model. *)
Record Report := mkReport {
  errors : list string;
  table : list (string * CacheStats)
}.

Definition PrintSimulationStats (history : list AccessResult)
    (hierarchy : list string) : Report :=
  let '(errs, stats_db) := aggregate history hierarchy in
  mkReport errs ((λ level_name, (level_name, stats_at stats_db level_name)) <$> hierarchy).

(** The rows of [PrintAccessLog], from index [i] on: [trace_addrs[i]] is read
    for every result of the history. *)
Fixpoint access_log_from (i : nat) (history : list AccessResult) (trace_addrs : list Z)
    : option (list (Z * Z * string * Z)) :=
  match history with
  | [] => Some []
  | res :: rest =>
      addr ← trace_addrs !! i;
      rows ← access_log_from (S i) rest trace_addrs;
      Some ((Z.of_nat i, addr, hit_level res, total_cycles res) :: rows)
  end.

Definition PrintAccessLog (history : list AccessResult) (trace_addrs : list Z)
    : option (list (Z * Z * string * Z)) :=
  access_log_from 0 history trace_addrs.

(** How many results of a history were serviced by a level, and their
    cycles. *)
Definition hits_of (level_name : string) (history : list AccessResult) : list AccessResult :=
  filter (λ res, hit_level res = level_name) history.

Definition cycles_of (history : list AccessResult) : Z :=
  foldr (λ res sum, total_cycles res + sum) 0 history.


(** * Properties *)

(** Splits a conjunction whose parts all follow at once. *)
Ltac split_done := repeat (split; [done|]); done.

(** ** Machine arithmetic *)

Lemma wrap64_small x : in_u64 x → wrap64 x = x.
Proof. intros Hx. apply Z.mod_small, Hx. Qed.

Lemma wrap64_add_l x y : wrap64 (wrap64 x + y) = wrap64 (x + y).
Proof. unfold wrap64. by rewrite Zplus_mod_idemp_l. Qed.

Lemma udiv_Some a b : b ≠ 0 → udiv a b = Some (a / b).
Proof. intros Hb. unfold udiv. by rewrite decide_False. Qed.

Lemma umod_Some a b : b ≠ 0 → umod a b = Some (a mod b).
Proof. intros Hb. unfold umod. by rewrite decide_False. Qed.

(** ** Address decomposition *)

Section Decomposition.
Context (Sets BlockSize : Z).

Lemma set_index_defined Ways addr :
  level_config_ok Sets Ways BlockSize →
  set_index Sets BlockSize addr = Some ((addr / BlockSize) mod Sets)
  ∧ 0 ≤ (addr / BlockSize) mod Sets < Sets.
Proof.
  intros (HS & _ & HB & _). unfold set_index.
  rewrite udiv_Some by lia. simpl. rewrite umod_Some by lia.
  split; [done | by apply Z.mod_pos_bound].
Qed.

Lemma tag_of_defined Ways addr :
  level_config_ok Sets Ways BlockSize →
  tag_of Sets BlockSize addr = Some (addr / wrap64 (BlockSize * Sets)).
Proof. intros (_ & _ & _ & Hne). unfold tag_of. by apply udiv_Some. Qed.

Context (Hgeo : geometry_ok Sets BlockSize).

Lemma set_index_eq addr :
  set_index Sets BlockSize addr = Some ((addr / BlockSize) mod Sets).
Proof.
  destruct Hgeo as (HS & HB & _). unfold set_index.
  rewrite udiv_Some by lia. simpl. apply umod_Some. lia.
Qed.

Lemma tag_of_eq addr :
  tag_of Sets BlockSize addr = Some (addr / BlockSize / Sets).
Proof.
  destruct Hgeo as (HS & HB & Hlt). unfold tag_of.
  rewrite wrap64_small by (unfold in_u64; nia).
  rewrite udiv_Some by nia. by rewrite Z.div_div by lia.
Qed.

Lemma rebuild_no_overflow addr :
  in_u64 addr →
  (addr / BlockSize / Sets) * Sets + (addr / BlockSize) mod Sets = addr / BlockSize
  ∧ in_u64 (addr / BlockSize / Sets * Sets)
  ∧ in_u64 (addr / BlockSize)
  ∧ in_u64 (block_base BlockSize addr)
  ∧ block_base BlockSize addr ≤ addr.
Proof.
  destruct Hgeo as (HS & HB & Hlt). intros [Ha0 Ha1].
  assert (Hq : 0 ≤ addr / BlockSize) by (apply Z.div_pos; lia).
  assert (Hqa : addr / BlockSize * BlockSize ≤ addr).
  { rewrite Z.mul_comm. apply Z.mul_div_le. lia. }
  assert (Ht : 0 ≤ addr / BlockSize / Sets) by (apply Z.div_pos; lia).
  assert (Hts : addr / BlockSize / Sets * Sets ≤ addr / BlockSize).
  { rewrite Z.mul_comm. apply Z.mul_div_le. lia. }
  assert (Hqle : addr / BlockSize ≤ addr) by nia.
  split.
  { rewrite (Z.div_mod (addr / BlockSize) Sets) at 3 by lia. lia. }
  unfold in_u64, block_base. repeat split; nia.
Qed.

Lemma evict_addr_of_eq addr :
  in_u64 addr →
  evict_addr_of Sets BlockSize (addr / BlockSize / Sets) ((addr / BlockSize) mod Sets)
  = block_base BlockSize addr.
Proof.
  intros Ha. destruct (rebuild_no_overflow addr Ha) as (Heq & Hts & Hq & Hb & _).
  unfold evict_addr_of. rewrite (wrap64_small _ Hts), Heq.
  rewrite (wrap64_small _ Hq). by apply wrap64_small.
Qed.

Lemma block_base_div addr : block_base BlockSize addr / BlockSize = addr / BlockSize.
Proof. unfold block_base. apply Z.div_mul. destruct Hgeo; lia. Qed.

End Decomposition.

(** C1, as amended.  When [Sets] and [BlockSize] are positive and
    [BlockSize * Sets] fits in 64 bits, then for every 64-bit address the
    address rebuilt from its set index and tag, [(tag * Sets + set) *
    BlockSize], is computed without overflow, is the block-aligned base of
    the address, and decomposes to the same set index and the same tag. *)
Theorem decomposition_roundtrip (Sets BlockSize addr : Z) :
  geometry_ok Sets BlockSize →
  in_u64 addr →
  roundtrip Sets BlockSize addr.
Proof.
  intros Hgeo Ha.
  destruct (rebuild_no_overflow _ _ Hgeo addr Ha) as (Heq & Hts & Hq & Hb & _).
  exists ((addr / BlockSize) mod Sets), (addr / BlockSize / Sets).
  rewrite (evict_addr_of_eq _ _ Hgeo addr Ha).
  rewrite !(set_index_eq _ _ Hgeo), !(tag_of_eq _ _ Hgeo).
  rewrite (block_base_div _ _ Hgeo). rewrite Heq.
  repeat split; try done; apply Hq || apply Hb || apply Hts.
Qed.

Lemma decomposition_roundtrip_witness : roundtrip 4 64 1000.
Proof.
  apply (decomposition_roundtrip 4 64 1000).
  - unfold geometry_ok. lia.
  - unfold in_u64. lia.
Defined.

(** C1 as stated fails for parameters whose product overflows: with
    [Sets = 3] and [BlockSize = 2^63] the address [2^63] has set index 1 and
    tag 1, the rebuilt address [(1 * 3 + 1) * 2^63] wraps around to 0, and 0
    has set index 0 and tag 0. *)
Lemma decomposition_roundtrip_overflow : ¬ roundtrip 3 (2 ^ 63) (2 ^ 63).
Proof.
  intros (s & t & Hs & Ht & _ & _ & _ & _ & Hs' & _).
  vm_compute in Hs, Ht. injection Hs as <-. injection Ht as <-.
  vm_compute in Hs'. discriminate.
Qed.

(** ** Reading and writing lines *)

Lemma line_at_Some sets s w l :
  line_at sets s w = Some l ↔
  ∃ row, sets !! Z.to_nat s = Some row ∧ row !! Z.to_nat w = Some l.
Proof.
  unfold line_at. destruct (sets !! Z.to_nat s) as [row|]; simpl.
  - split; [eauto | by intros (? & [= <-] & ?)].
  - split; [done | by intros (? & ? & ?)].
Qed.

Lemma shape_line_at Sets Ways sets s w :
  shape_ok Sets Ways sets → 0 ≤ s < Sets → 0 ≤ w < Ways →
  is_Some (line_at sets s w).
Proof.
  intros [Hlen Hrows] Hs Hw.
  destruct (lookup_lt_is_Some_2 sets (Z.to_nat s)) as [row Hrow]; [lia|].
  pose proof (Forall_lookup_1 _ _ _ _ Hrows Hrow) as Hr. simpl in Hr.
  destruct (lookup_lt_is_Some_2 row (Z.to_nat w)) as [l Hl]; [lia|].
  exists l. apply line_at_Some. eauto.
Qed.

Lemma update_line_Some f sets s w l :
  line_at sets s w = Some l →
  ∃ row, sets !! Z.to_nat s = Some row
         ∧ update_line f sets s w
           = Some (<[Z.to_nat s := <[Z.to_nat w := f l]> row]> sets).
Proof.
  intros (row & Hrow & Hl)%line_at_Some. exists row. split; [done|].
  unfold update_line. rewrite Hrow. simpl. by rewrite Hl.
Qed.

Lemma update_line_inv f sets s w sets' :
  update_line f sets s w = Some sets' →
  ∃ row l, sets !! Z.to_nat s = Some row ∧ row !! Z.to_nat w = Some l
           ∧ sets' = <[Z.to_nat s := <[Z.to_nat w := f l]> row]> sets.
Proof.
  unfold update_line. destruct (sets !! Z.to_nat s) as [row|]; simpl; [|done].
  destruct (row !! Z.to_nat w) as [l|] eqn:Hl; simpl; [|done].
  intros [= <-]. eauto.
Qed.

Lemma update_line_shape Sets Ways f sets s w sets' :
  update_line f sets s w = Some sets' →
  shape_ok Sets Ways sets → shape_ok Sets Ways sets'.
Proof.
  intros (row & l & Hrow & Hl & ->)%update_line_inv [Hlen Hrows].
  split; [by rewrite length_insert|].
  apply Forall_insert; [done|]. rewrite length_insert.
  by apply (Forall_lookup_1 _ _ _ _ Hrows Hrow).
Qed.

(** After [sets_[s][w] = f(sets_[s][w])], the line read at [(s', w')]. *)
Lemma line_at_update f sets s w sets' s' w' :
  update_line f sets s w = Some sets' →
  0 ≤ s → 0 ≤ w → 0 ≤ s' → 0 ≤ w' →
  line_at sets' s' w' =
    if decide (s' = s ∧ w' = w) then f <$> line_at sets s w
    else line_at sets s' w'.
Proof.
  intros (row & l & Hrow & Hl & ->)%update_line_inv Hs Hw Hs' Hw'.
  unfold line_at. destruct (decide (s' = s ∧ w' = w)) as [[-> ->]|Hne].
  - rewrite list_lookup_insert_eq by (by eapply lookup_lt_Some).
    simpl. rewrite list_lookup_insert_eq by (by eapply lookup_lt_Some).
    by rewrite Hrow; simpl; rewrite Hl.
  - destruct (decide (s' = s)) as [->|Hs_ne].
    + rewrite list_lookup_insert_eq by (by eapply lookup_lt_Some).
      rewrite Hrow. simpl. apply list_lookup_insert_ne. lia.
    + rewrite list_lookup_insert_ne by lia. done.
Qed.

(** ** The way loops *)

Lemma scan_ways_found p sets s n w0 w :
  scan_ways p sets s n w0 = Some (Some w) →
  w0 ≤ w < w0 + Z.of_nat n
  ∧ (∃ l, line_at sets s w = Some l ∧ p l = true)
  ∧ ∀ w', w0 ≤ w' < w → ∃ l, line_at sets s w' = Some l ∧ p l = false.
Proof.
  revert w0. induction n as [|n IH]; intros w0; simpl; [done|].
  destruct (line_at sets s w0) as [l|] eqn:Hl; simpl; [|done].
  destruct (p l) eqn:Hp.
  - intros [= <-]. split; [lia|]. split; [eauto|]. intros; lia.
  - intros (Hrange & Hw & Hbefore)%IH. split; [lia|]. split; [done|].
    intros w' Hw'. destruct (decide (w' = w0)) as [->|]; [eauto|].
    apply Hbefore. lia.
Qed.

Lemma scan_ways_none p sets s n w0 :
  scan_ways p sets s n w0 = Some None →
  ∀ w', w0 ≤ w' < w0 + Z.of_nat n → ∃ l, line_at sets s w' = Some l ∧ p l = false.
Proof.
  revert w0. induction n as [|n IH]; intros w0; simpl; [intros; lia|].
  destruct (line_at sets s w0) as [l|] eqn:Hl; simpl; [|done].
  destruct (p l) eqn:Hp; [done|].
  intros Hscan w' Hw'. destruct (decide (w' = w0)) as [->|]; [eauto|].
  apply (IH _ Hscan). lia.
Qed.

Lemma scan_ways_defined p sets s n w0 :
  (∀ w', w0 ≤ w' < w0 + Z.of_nat n → is_Some (line_at sets s w')) →
  is_Some (scan_ways p sets s n w0).
Proof.
  revert w0. induction n as [|n IH]; intros w0 Hall; simpl; [done|].
  destruct (Hall w0) as [l ->]; [lia|]. simpl.
  destruct (p l); [done|]. apply IH. intros; apply Hall; lia.
Qed.

Lemma scan_ways_first p sets s n w0 w l :
  w0 ≤ w < w0 + Z.of_nat n →
  line_at sets s w = Some l → p l = true →
  (∀ w', w0 ≤ w' < w → ∃ l', line_at sets s w' = Some l' ∧ p l' = false) →
  scan_ways p sets s n w0 = Some (Some w).
Proof.
  revert w0. induction n as [|n IH]; intros w0 Hw Hl Hp Hbefore; simpl; [lia|].
  destruct (decide (w0 = w)) as [->|Hne].
  - by rewrite Hl; simpl; rewrite Hp.
  - destruct (Hbefore w0) as (l' & -> & Hp'); [lia|]. simpl. rewrite Hp'.
    apply IH; [lia|done..|]. intros; apply Hbefore; lia.
Qed.

Lemma scan_ways_all_false p sets s n w0 :
  (∀ w', w0 ≤ w' < w0 + Z.of_nat n → ∃ l, line_at sets s w' = Some l ∧ p l = false) →
  scan_ways p sets s n w0 = Some None.
Proof.
  revert w0. induction n as [|n IH]; intros w0 Hall; simpl; [done|].
  destruct (Hall w0) as (l & -> & Hp); [lia|]. simpl. rewrite Hp.
  apply IH. intros; apply Hall; lia.
Qed.

Lemma tag_match_true t l : tag_match t l = true ↔ valid l = true ∧ tag l = t.
Proof.
  unfold tag_match. rewrite andb_true_iff, bool_decide_eq_true. done.
Qed.

Lemma tag_match_false t l : tag_match t l = false ↔ ¬ (valid l = true ∧ tag l = t).
Proof. rewrite <-tag_match_true. by destruct (tag_match t l). Qed.

(** ** One cache level over an arbitrary next layer *)

Section CacheLevel.
Context {Name : string} {NextLayer : Type} `{!MemoryLevel NextLayer}.
Context {Sets Ways BlockSize : Z}.
Context {ReplacePolicy : Type} `{!Policy ReplacePolicy}.
Context {HitLatency : Z}.

Local Abbreviation cache := (Cache Name NextLayer Sets Ways BlockSize ReplacePolicy HitLatency).

Implicit Types (c : cache) (s t w addr : Z).

Lemma find_way_hit s t c w :
  find_way s t c = Some (Some w) →
  0 ≤ w < Ways
  ∧ (∃ l, line_at (sets_ c) s w = Some l ∧ valid l = true ∧ tag l = t)
  ∧ ∀ w', 0 ≤ w' < w → ∃ l, line_at (sets_ c) s w' = Some l ∧ tag_match t l = false.
Proof.
  intros (Hw & (l & Hl & Hm) & Hbefore)%scan_ways_found.
  apply tag_match_true in Hm. split; [lia|]. split; [by eauto|done].
Qed.

Lemma find_way_miss s t c :
  find_way s t c = Some None →
  (∀ w, 0 ≤ w < Ways → ∃ l, line_at (sets_ c) s w = Some l ∧ tag_match t l = false)
  ∧ ¬ resident Ways (sets_ c) s t.
Proof.
  intros Hscan.
  assert (Hall : ∀ w, 0 ≤ w < Ways →
            ∃ l, line_at (sets_ c) s w = Some l ∧ tag_match t l = false).
  { intros w Hw. apply (scan_ways_none _ _ _ _ _ Hscan). lia. }
  split; [done|]. intros (w & l & Hw & Hl & Hv & Ht).
  destruct (Hall w Hw) as (l' & Hl' & Hm). simplify_eq.
  apply tag_match_false in Hm. by apply Hm.
Qed.

Lemma find_way_defined s t c :
  shape_ok Sets Ways (sets_ c) → 0 ≤ s < Sets → is_Some (find_way s t c).
Proof.
  intros Hshape Hs. apply scan_ways_defined. intros w Hw.
  eapply shape_line_at; [done..|lia].
Qed.

Lemma find_way_resident s t c :
  shape_ok Sets Ways (sets_ c) → 0 ≤ s < Sets →
  resident Ways (sets_ c) s t → ∃ w, find_way s t c = Some (Some w).
Proof.
  intros Hshape Hs Hres.
  destruct (find_way_defined s t c Hshape Hs) as [[w|] Hfw]; [by eauto|].
  by apply find_way_miss in Hfw as [_ []].
Qed.

Lemma find_way_ext s t c c' :
  sets_ c' = sets_ c → find_way s t c' = find_way s t c.
Proof. unfold find_way. by intros ->. Qed.

(** *** [Fill], taken apart *)

Lemma choose_victim_inv s c w c1 :
  choose_victim s c = Some (w, c1) →
  ∃ p victim,
    GetVictim s (policy_ c) = (w, p)
    ∧ line_at (sets_ c) s w = Some victim
    ∧ ((valid victim && dirty victim = false ∧ c1 = with_policy p c)
       ∨ (valid victim = true ∧ dirty victim = true
          ∧ ∃ r n, Store (evict_addr_of Sets BlockSize (tag victim) s) (next_ c) = Some (r, n)
                   ∧ c1 = count_eviction (with_next n (with_policy p c)))).
Proof.
  unfold choose_victim. destruct (GetVictim s (policy_ c)) as [v p] eqn:Hv.
  simpl. destruct (line_at (sets_ c) s v) as [victim|] eqn:Hl; simpl; [|done].
  destruct (valid victim && dirty victim) eqn:Hvd.
  - destruct (Store _ (next_ c)) as [[r n]|] eqn:Hst; simpl; [|done].
    intros [= <- <-]. exists p, victim. apply andb_true_iff in Hvd as [? ?].
    split; [done|]. split; [done|]. right. eauto 10.
  - intros [= <- <-]. exists p, victim. eauto.
Qed.

Lemma overwrite_inv s t w c1 c' :
  overwrite s t w c1 = Some c' →
  ∃ sets', update_line (install t) (sets_ c1) s w = Some sets'
           ∧ c' = with_policy (OnFill s w (policy_ c1)) (with_sets sets' c1).
Proof.
  unfold overwrite. destruct (update_line _ _ _ _) as [sets'|]; simpl; [|done].
  intros [= <-]. eauto.
Qed.

(** [Fill] either takes the first invalid way of the set, or, when every way
    is valid, the way the policy names; it then overwrites that way. *)
Lemma Fill_inv s t c c' :
  Fill s t c = Some c' →
  ∃ w c1,
    ((0 ≤ w < Ways
      ∧ (∃ l, line_at (sets_ c) s w = Some l ∧ valid l = false)
      ∧ (∀ w', 0 ≤ w' < w → ∃ l, line_at (sets_ c) s w' = Some l ∧ valid l = true)
      ∧ c1 = c)
     ∨ ((∀ w', 0 ≤ w' < Ways → ∃ l, line_at (sets_ c) s w' = Some l ∧ valid l = true)
        ∧ choose_victim s c = Some (w, c1)))
    ∧ overwrite s t w c1 = Some c'.
Proof.
  unfold Fill, first_invalid.
  destruct (scan_ways _ (sets_ c) s (Z.to_nat Ways) 0) as [[w|]|] eqn:Hscan;
    simpl; [| |done].
  - apply scan_ways_found in Hscan as (Hw & (l & Hl & Hv) & Hbefore).
    apply negb_true_iff in Hv.
    rewrite decide_False by lia. simpl. intros Hover.
    exists w, c. split; [|done]. left. split; [lia|]. split; [by eauto|].
    split; [|done]. intros w' Hw'. destruct (Hbefore w' Hw') as (l' & ? & Hv').
    apply negb_false_iff in Hv'. eauto.
  - rewrite decide_True by done.
    destruct (choose_victim s c) as [[w c1]|] eqn:Hch; simpl; [|done].
    intros Hover. exists w, c1. split; [|done]. right. split; [|done].
    intros w' Hw'. destruct (scan_ways_none _ _ _ _ _ Hscan w') as (l' & ? & Hv'); [lia|].
    apply negb_false_iff in Hv'. eauto.
Qed.

Lemma Fill_first_invalid s t c w l :
  0 ≤ w < Ways →
  line_at (sets_ c) s w = Some l → valid l = false →
  (∀ w', 0 ≤ w' < w → ∃ l', line_at (sets_ c) s w' = Some l' ∧ valid l' = true) →
  Fill s t c = overwrite s t w c.
Proof.
  intros Hw Hl Hv Hbefore. unfold Fill, first_invalid.
  rewrite (scan_ways_first _ _ _ _ _ w l); [|lia|done|by rewrite Hv|].
  - simpl. by rewrite decide_False by lia.
  - intros w' Hw'. destruct (Hbefore w' Hw') as (l' & ? & Hv'). exists l'.
    by rewrite Hv'.
Qed.

End CacheLevel.

(** ** The policy contract *)

Section PolicySafe.
Context {P : Type} `{!Policy P} (Sets Ways : Z).

Lemma policy_safe_OnHit s w (p : P) :
  policy_safe Sets Ways p → 0 ≤ s < Sets → 0 ≤ w < Ways →
  policy_safe Sets Ways (OnHit s w p).
Proof.
  intros (I & HI & Hp) Hs Hw. exists I. split; [done|].
  by apply (contract_OnHit _ _ _ HI).
Qed.

Lemma policy_safe_OnFill s w (p : P) :
  policy_safe Sets Ways p → 0 ≤ s < Sets → 0 ≤ w < Ways →
  policy_safe Sets Ways (OnFill s w p).
Proof.
  intros (I & HI & Hp) Hs Hw. exists I. split; [done|].
  by apply (contract_OnFill _ _ _ HI).
Qed.

Lemma policy_safe_GetVictim s (p : P) :
  policy_safe Sets Ways p → 0 ≤ s < Sets →
  0 ≤ (GetVictim s p).1 < Ways ∧ policy_safe Sets Ways (GetVictim s p).2.
Proof.
  intros (I & HI & Hp) Hs.
  destruct (contract_GetVictim _ _ _ HI s p Hs Hp) as [Hv Hp'].
  split; [done|]. by exists I.
Qed.
End PolicySafe.

(** ** Operations are defined on well-formed states *)

Section CacheSafe.
Context {Name : string} {NextLayer : Type} `{!MemoryLevel NextLayer}.
Context {Sets Ways BlockSize : Z}.
Context {ReplacePolicy : Type} `{!Policy ReplacePolicy}.
Context {HitLatency : Z}.
Context (next_ok : NextLayer → Prop) `{!LevelSafe NextLayer next_ok}.

Local Abbreviation cache := (Cache Name NextLayer Sets Ways BlockSize ReplacePolicy HitLatency).

Implicit Types (c : cache) (s t w addr : Z).

Lemma overwrite_ok s t w c :
  cache_ok next_ok c → 0 ≤ s < Sets → 0 ≤ w < Ways →
  ∃ c', overwrite s t w c = Some c' ∧ cache_ok next_ok c'.
Proof.
  intros (Hcfg & Hshape & Hpol & Hnext) Hs Hw.
  destruct (shape_line_at _ _ _ s w Hshape Hs Hw) as [l Hl].
  destruct (update_line_Some (install t) _ _ _ _ Hl) as (row & Hrow & Hupd).
  unfold overwrite. rewrite Hupd. simpl. eexists. split; [done|].
  split; [done|]. split; [by eapply update_line_shape|].
  split; [by apply policy_safe_OnFill|done].
Qed.

Lemma choose_victim_ok s c :
  cache_ok next_ok c → 0 ≤ s < Sets →
  ∃ w c1, choose_victim s c = Some (w, c1) ∧ 0 ≤ w < Ways
          ∧ cache_ok next_ok c1 ∧ sets_ c1 = sets_ c.
Proof.
  intros (Hcfg & Hshape & Hpol & Hnext) Hs.
  destruct (policy_safe_GetVictim _ _ s _ Hpol Hs) as [Hv Hp'].
  unfold choose_victim. destruct (GetVictim s (policy_ c)) as [v p]. simpl in *.
  destruct (shape_line_at _ _ _ s v Hshape Hs Hv) as [victim ->]. simpl.
  destruct (valid victim && dirty victim).
  - destruct (Store_safe (evict_addr_of Sets BlockSize (tag victim) s) _ Hnext)
      as (r & n & -> & Hn).
    simpl. eexists _, _. split; [done|]. split; [done|]. split; [|done].
    split; [done|]. split; [done|]. by split.
  - eexists _, _. split; [done|]. split; [done|]. split; [|done].
    split; [done|]. split; [done|]. by split.
Qed.

Lemma Fill_ok s t c :
  cache_ok next_ok c → 0 ≤ s < Sets →
  ∃ c', Fill s t c = Some c' ∧ cache_ok next_ok c'.
Proof.
  intros Hok Hs. pose proof Hok as (Hcfg & Hshape & Hpol & Hnext).
  unfold Fill, first_invalid.
  destruct (scan_ways_defined (λ l, negb (valid l)) (sets_ c) s (Z.to_nat Ways) 0)
    as [[w|] Hscan].
  { intros w Hw. eapply shape_line_at; [done..|lia]. }
  - rewrite Hscan. simpl. apply scan_ways_found in Hscan as (Hw & _).
    rewrite decide_False by lia. simpl. apply overwrite_ok; [done..|lia].
  - rewrite Hscan. simpl. rewrite decide_True by done.
    destruct (choose_victim_ok s c Hok Hs) as (w & c1 & -> & Hw & Hok1 & _).
    simpl. by apply overwrite_ok.
Qed.

Lemma with_next_ok n c : cache_ok next_ok c → next_ok n → cache_ok next_ok (with_next n c).
Proof. intros (? & ? & ? & ?) ?. split; [done|]. split; [done|]. by split. Qed.

Lemma dirty_filled_ok s t c :
  cache_ok next_ok c → 0 ≤ s < Sets →
  ∃ c', dirty_filled s t c = Some c' ∧ cache_ok next_ok c'.
Proof.
  intros Hok Hs. pose proof Hok as (Hcfg & Hshape & Hpol & Hnext).
  unfold dirty_filled.
  destruct (find_way_defined s t c Hshape Hs) as [[w|] Hfw]; rewrite Hfw; simpl.
  - apply find_way_hit in Hfw as (Hw & (l & Hl & _) & _).
    destruct (update_line_Some mark_dirty _ _ _ _ Hl) as (row & Hrow & Hupd).
    rewrite Hupd. simpl. eexists. split; [done|].
    split; [done|]. split; [by eapply update_line_shape|done].
  - by eexists.
Qed.

Lemma Cache_Load_ok addr c :
  cache_ok next_ok c → ∃ r c', Cache_Load addr c = Some (r, c') ∧ cache_ok next_ok c'.
Proof.
  intros Hok. pose proof Hok as (Hcfg & Hshape & Hpol & Hnext).
  destruct (set_index_defined _ _ _ addr Hcfg) as [Hsi Hs].
  unfold Cache_Load. rewrite Hsi, (tag_of_defined _ _ _ addr Hcfg). simpl.
  set (s := (addr / BlockSize) mod Sets) in *.
  set (t := addr / wrap64 (BlockSize * Sets)).
  destruct (find_way_defined s t c Hshape Hs) as [[w|] Hfw]; rewrite Hfw; simpl.
  - apply find_way_hit in Hfw as (Hw & _). eexists _, _. split; [done|].
    split; [done|]. split; [done|]. split; [by apply policy_safe_OnHit|done].
  - destruct (Load_safe addr _ Hnext) as (r & n & -> & Hn). simpl.
    destruct (Fill_ok s t (with_next n (StatsMiss c))) as (c' & -> & Hok'); [|done|].
    { by apply with_next_ok. }
    simpl. eauto.
Qed.

Lemma Cache_Store_ok addr c :
  cache_ok next_ok c → ∃ r c', Cache_Store addr c = Some (r, c') ∧ cache_ok next_ok c'.
Proof.
  intros Hok. pose proof Hok as (Hcfg & Hshape & Hpol & Hnext).
  destruct (set_index_defined _ _ _ addr Hcfg) as [Hsi Hs].
  unfold Cache_Store. rewrite Hsi, (tag_of_defined _ _ _ addr Hcfg). simpl.
  set (s := (addr / BlockSize) mod Sets) in *.
  set (t := addr / wrap64 (BlockSize * Sets)).
  destruct (find_way_defined s t c Hshape Hs) as [[w|] Hfw]; rewrite Hfw; simpl.
  - apply find_way_hit in Hfw as (Hw & (l & Hl & _) & _).
    destruct (update_line_Some mark_dirty _ _ _ _ Hl) as (row & Hrow & Hupd).
    rewrite Hupd. simpl. eexists _, _. split; [done|].
    split; [done|]. split; [by eapply update_line_shape|].
    split; [by apply policy_safe_OnHit|done].
  - destruct (Load_safe addr _ Hnext) as (r & n & -> & Hn). simpl.
    destruct (Fill_ok s t (with_next n (StatsMiss c))) as (c' & -> & Hok'); [|done|].
    { by apply with_next_ok. }
    simpl. destruct (dirty_filled_ok s t c' Hok' Hs) as (c'' & -> & Hok'').
    simpl. eauto.
Qed.

#[export] Instance Cache_safe : LevelSafe cache (cache_ok next_ok).
Proof. split; [apply Cache_Load_ok | apply Cache_Store_ok]. Qed.
End CacheSafe.

#[export] Instance MainMemory_safe (Name : string) :
  LevelSafe (MainMemory Name) (λ m, in_u64 (latency_ m)).
Proof. split; intros addr m Hm; simpl; eauto. Qed.

Lemma chain_safe {T : Type} (c : Chain T) :
  @LevelSafe T (chain_level c) (chain_ok c).
Proof.
  induction c as [Name|Name NextLayer next IH Sets Ways BlockSize RP pol HitLatency];
    simpl.
  - apply MainMemory_safe.
  - apply Cache_safe, IH.
Qed.

(** ** A hit touches no line *)

Section LoadHit.
Context {Name : string} {NextLayer : Type} `{!MemoryLevel NextLayer}.
Context {Sets Ways BlockSize : Z}.
Context {ReplacePolicy : Type} `{!Policy ReplacePolicy}.
Context {HitLatency : Z}.

Local Abbreviation cache := (Cache Name NextLayer Sets Ways BlockSize ReplacePolicy HitLatency).

Lemma lookup_inv addr (c : cache) r :
  lookup addr c = Some r →
  ∃ s t, set_index Sets BlockSize addr = Some s
         ∧ tag_of Sets BlockSize addr = Some t
         ∧ find_way s t c = Some r.
Proof.
  unfold lookup.
  destruct (set_index Sets BlockSize addr) as [s|]; simpl; [|done].
  destruct (tag_of Sets BlockSize addr) as [t|]; simpl; [|done].
  eauto.
Qed.

Lemma lookup_intro addr (c : cache) s t :
  set_index Sets BlockSize addr = Some s →
  tag_of Sets BlockSize addr = Some t →
  lookup addr c = find_way s t c.
Proof. unfold lookup. by intros -> ->. Qed.

Lemma Cache_Load_hit addr (c : cache) w :
  lookup addr c = Some (Some w) →
  ∃ s, set_index Sets BlockSize addr = Some s
       ∧ Cache_Load addr c
         = Some (mkResult Name HitLatency,
                 mkCache (next_ c) (sets_ c) (OnHit s w (policy_ c))
                   (wrap64 (hits_ c + 1)) (misses_ c) (evictions_ c)).
Proof.
  intros (s & t & Hs & Ht & Hfw)%lookup_inv. exists s. split; [done|].
  unfold Cache_Load. rewrite Hs, Ht. simpl. by rewrite Hfw.
Qed.

(** C10, as amended.  A [Load] that hits at the level it is issued to
    returns that level's name and hit latency, and changes nothing but that
    level's hit counter and policy state: the level's lines, its miss and
    eviction counters, and the whole state of every level below are as
    before; no valid bit, dirty bit or tag changes anywhere.
    [MainMemory::Load], which always hits, changes nothing at all. *)
Theorem load_hit_frame addr (c : cache) w :
  lookup addr c = Some (Some w) →
  (∃ s c',
      set_index Sets BlockSize addr = Some s
      ∧ Load addr c = Some (mkResult Name HitLatency, c')
      ∧ sets_ c' = sets_ c
      ∧ next_ c' = next_ c
      ∧ policy_ c' = OnHit s w (policy_ c)
      ∧ hits_ c' = wrap64 (hits_ c + 1)
      ∧ misses_ c' = misses_ c
      ∧ evictions_ c' = evictions_ c)
  ∧ (∀ (MemName : string) (m : MainMemory MemName) a,
        Load a m = Some (mkResult MemName (latency_ m), m)).
Proof.
  intros Hhit. split; [|done].
  destruct (Cache_Load_hit addr c w Hhit) as (s & Hs & Hload).
  exists s. eexists. split; [done|]. split; [exact Hload|]. done.
Qed.
End LoadHit.

Lemma load_hit_frame_witness :
  lookup 0 Scenario.warm = Some (Some 0)
  ∧ ∃ c', Load 0 Scenario.warm = Some (mkResult "L1" 1, c')
          ∧ sets_ c' = sets_ Scenario.warm
          ∧ next_ c' = next_ Scenario.warm.
Proof.
  split; [reflexivity|].
  destruct (load_hit_frame 0 Scenario.warm 0 eq_refl)
    as [(s & c' & _ & Hload & Hsets & Hnext & _) _].
  exists c'. by split.
Defined.

(** ** [Load] and [Store], taken apart *)

Section CacheOps.
Context {Name : string} {NextLayer : Type} `{!MemoryLevel NextLayer}.
Context {Sets Ways BlockSize : Z}.
Context {ReplacePolicy : Type} `{!Policy ReplacePolicy}.
Context {HitLatency : Z}.

Local Abbreviation cache := (Cache Name NextLayer Sets Ways BlockSize ReplacePolicy HitLatency).

Implicit Types (c : cache) (s t w addr : Z).

Lemma Cache_Load_inv addr c r c' :
  Cache_Load addr c = Some (r, c') →
  ∃ s t,
    set_index Sets BlockSize addr = Some s ∧ tag_of Sets BlockSize addr = Some t
    ∧ ((∃ w, find_way s t c = Some (Some w)
             ∧ r = mkResult Name HitLatency
             ∧ c' = with_policy (OnHit s w (policy_ c)) (StatsHit c))
       ∨ (find_way s t c = Some None
          ∧ ∃ rn n, Load addr (next_ c) = Some (rn, n)
                    ∧ r = mkResult (hit_level rn) (wrap64 (total_cycles rn + HitLatency))
                    ∧ Fill s t (with_next n (StatsMiss c)) = Some c')).
Proof.
  unfold Cache_Load.
  destruct (set_index Sets BlockSize addr) as [s|]; simpl; [|done].
  destruct (tag_of Sets BlockSize addr) as [t|]; simpl; [|done].
  destruct (find_way s t c) as [[w|]|] eqn:Hfw; simpl; [| |done].
  - intros [= <- <-]. exists s, t. split; [done|]. split; [done|]. left. eauto.
  - destruct (Load addr (next_ c)) as [[rn n]|] eqn:Hn; simpl; [|done].
    destruct (Fill s t _) as [c1|] eqn:Hfill; simpl; [|done].
    intros [= <- <-]. exists s, t. split; [done|]. split; [done|]. right.
    split; [done|]. eauto.
Qed.

Lemma Cache_Store_inv addr c r c' :
  Cache_Store addr c = Some (r, c') →
  ∃ s t,
    set_index Sets BlockSize addr = Some s ∧ tag_of Sets BlockSize addr = Some t
    ∧ ((∃ w sets', find_way s t c = Some (Some w)
             ∧ update_line mark_dirty (sets_ c) s w = Some sets'
             ∧ r = mkResult Name HitLatency
             ∧ c' = with_policy (OnHit s w (policy_ c)) (with_sets sets' (StatsHit c)))
       ∨ (find_way s t c = Some None
          ∧ ∃ rn n c1, Load addr (next_ c) = Some (rn, n)
                    ∧ r = mkResult (hit_level rn) (wrap64 (total_cycles rn + HitLatency))
                    ∧ Fill s t (with_next n (StatsMiss c)) = Some c1
                    ∧ dirty_filled s t c1 = Some c')).
Proof.
  unfold Cache_Store.
  destruct (set_index Sets BlockSize addr) as [s|]; simpl; [|done].
  destruct (tag_of Sets BlockSize addr) as [t|]; simpl; [|done].
  destruct (find_way s t c) as [[w|]|] eqn:Hfw; simpl; [| |done].
  - destruct (update_line mark_dirty (sets_ c) s w) as [sets'|] eqn:Hupd; simpl; [|done].
    intros [= <- <-]. exists s, t. split; [done|]. split; [done|]. left. eauto 10.
  - destruct (Load addr (next_ c)) as [[rn n]|] eqn:Hn; simpl; [|done].
    destruct (Fill s t _) as [c1|] eqn:Hfill; simpl; [|done].
    destruct (dirty_filled s t c1) as [c2|] eqn:Hdf; simpl; [|done].
    intros [= <- <-]. exists s, t. split; [done|]. split; [done|]. right.
    split; [done|]. eauto 10.
Qed.

Lemma Cache_Store_hit addr c w :
  lookup addr c = Some (Some w) →
  ∃ c', Cache_Store addr c = Some (mkResult Name HitLatency, c').
Proof.
  intros (s & t & Hs & Ht & Hfw)%lookup_inv.
  unfold Cache_Store. rewrite Hs, Ht. simpl. rewrite Hfw. simpl.
  apply find_way_hit in Hfw as (_ & (l & Hl & _) & _).
  destruct (update_line_Some mark_dirty _ _ _ _ Hl) as (row & _ & ->).
  simpl. eauto.
Qed.

(** The level named by a result is this level or was named by the next. *)
Lemma Cache_access_name op addr c r c' :
  access op addr c = Some (r, c') →
  hit_level r = Name
  ∨ ∃ rn n, Load addr (next_ c) = Some (rn, n) ∧ hit_level r = hit_level rn.
Proof.
  destruct op; simpl.
  - intros (s & t & _ & _ & [(w & _ & -> & _)|(_ & rn & n & Hn & -> & _)])%Cache_Load_inv;
      [by left|right; eauto].
  - intros (s & t & _ & _ & [(w & ? & _ & _ & -> & _)|(_ & rn & n & c1 & Hn & -> & _)])%Cache_Store_inv;
      [by left|right; eauto].
Qed.

End CacheOps.

(** ** Whole hierarchies *)

Lemma chain_new_ok {T : Type} (c : Chain T) lat :
  chain_config_ok c → in_u64 lat → chain_ok c (chain_new c lat).
Proof.
  intros Hcfg Hlat.
  induction c as [Name|Name NextLayer next IH Sets Ways BlockSize RP pol HitLatency];
    simpl in *; [done|].
  destruct Hcfg as (Hlevel & Hpol & Hnext). split; [done|].
  split; [|split; [done|by apply IH]].
  split; simpl; [by rewrite length_replicate|].
  apply Forall_replicate. by rewrite length_replicate.
Qed.

Lemma chain_access_ok {T : Type} (c : Chain T) op addr st :
  chain_ok c st →
  ∃ r st', @access T (chain_level c) op addr st = Some (r, st') ∧ chain_ok c st'.
Proof.
  intros Hok. pose proof (chain_safe c) as Hsafe. destruct op; simpl.
  - by apply Load_safe.
  - by apply Store_safe.
Qed.

Lemma chain_access_name {T : Type} (c : Chain T) op addr st r st' :
  @access T (chain_level c) op addr st = Some (r, st') →
  hit_level r ∈ level_names c.
Proof.
  revert op addr st r st'.
  induction c as [Name|Name NextLayer next IH Sets Ways BlockSize RP pol HitLatency];
    intros op addr st r st' Hacc.
  - destruct op; simpl in Hacc; injection Hacc as <- <-; simpl;
      by apply list_elem_of_singleton.
  - simpl. apply (Cache_access_name (MemoryLevel0 := chain_level next)) in Hacc
      as [->|(rn & n & Hn & ->)]; [apply elem_of_cons; by left|].
    apply elem_of_cons. right. by apply (IH kLoad addr (next_ st) rn n).
Qed.

Lemma chain_run_names {T : Type} (c : Chain T) trace st :
  chain_ok c st →
  ∃ rs st',
    @run T (chain_level c) trace st = Some (rs, st')
    ∧ length rs = length trace
    ∧ Forall (λ r, hit_level r ∈ level_names c) rs.
Proof.
  revert st. induction trace as [|[op addr] rest IH]; intros st Hok; simpl.
  - by exists [], st.
  - destruct (chain_access_ok c op addr st Hok) as (r & st1 & Hacc & Hok1).
    rewrite Hacc. simpl. destruct (IH st1 Hok1) as (rs & st2 & -> & Hlen & Hall).
    simpl. exists (r :: rs), st2. split; [done|]. split; [by simpl; rewrite Hlen|].
    constructor; [|done]. by eapply chain_access_name.
Qed.

(** C8.  Whenever a [Load] or [Store] issued to the top of a hierarchy
    returns, the [hit_level] it returns is the configured name of a level of
    the chain: one of the cache names or the name of the main memory.  On a
    well-formed hierarchy every access of every sequence of accesses run from
    construction does return. *)
Theorem hit_level_is_a_level_name {T : Type} (c : Chain T) :
  (∀ op addr st r st',
      @access T (chain_level c) op addr st = Some (r, st') →
      hit_level r ∈ level_names c)
  ∧ (∀ lat trace,
        chain_config_ok c → in_u64 lat →
        ∃ rs st,
          @run T (chain_level c) trace (chain_new c lat) = Some (rs, st)
          ∧ length rs = length trace
          ∧ Forall (λ r, hit_level r ∈ level_names c) rs).
Proof.
  split; [apply chain_access_name|].
  intros lat trace Hcfg Hlat. apply chain_run_names. by apply chain_new_ok.
Qed.

(** ** [LRUPolicy] honours the contract *)

Lemma lru_touch_inv Sets Ways s w p :
  0 ≤ w < Ways → lru_inv Sets Ways p → lru_inv Sets Ways (lru_touch s w p).
Proof.
  intros Hw Hinv s' Hs'. destruct (Hinv s' Hs') as (order & Hlook & Hne & Hall).
  unfold lru_touch. simpl.
  destruct (decide (Z.to_nat s = Z.to_nat s')) as [Heq|Hneq].
  - rewrite Heq, list_lookup_alter_eq, Hlook. simpl. eexists. split; [done|].
    split; [by destruct (filter _ order)|].
    apply Forall_app. split; [|by apply Forall_singleton].
    apply list.Forall_forall. intros w' [_ Hin]%list_elem_of_filter.
    by apply (proj1 (list.Forall_forall _ _) Hall).
  - rewrite list_lookup_alter_ne by done. eauto.
Qed.

Lemma lru_contract Sets Ways :
  policy_contract (P := LRUPolicy) Sets Ways (lru_inv Sets Ways).
Proof.
  split.
  - intros s w p _ Hw Hinv. by apply lru_touch_inv.
  - intros s w p _ Hw Hinv. by apply lru_touch_inv.
  - intros s p Hs Hinv. simpl. split; [|done].
    destruct (Hinv s Hs) as (order & -> & Hne & Hall). simpl.
    destruct order as [|w order]; [done|]. simpl. by inversion Hall.
Qed.

Lemma lru_construct_safe Sets Ways :
  0 < Ways → policy_safe Sets Ways (construct (P := LRUPolicy) Sets Ways).
Proof.
  intros HW. exists (lru_inv Sets Ways). split; [apply lru_contract|].
  intros s Hs. exists (seqZ 0 Ways). simpl.
  split; [apply lookup_replicate_2; lia|]. split.
  - intros Hnil. apply (f_equal length) in Hnil. rewrite length_seqZ in Hnil.
    simpl in Hnil. lia.
  - apply list.Forall_forall. intros w Hw%elem_of_seqZ. lia.
Qed.

(** ** Latency *)








Lemma two_level_config_ok : chain_config_ok Examples.two_level.
Proof.
  simpl. repeat split; try lia; try (by vm_compute); apply lru_construct_safe; lia.
Qed.

Lemma in_u64_100 : in_u64 100.
Proof. unfold in_u64. lia. Qed.

Lemma hit_level_is_a_level_name_witness :
  ∃ rs st,
    @run _ (chain_level Examples.two_level)
      [(kLoad, 0); (kStore, 64); (kLoad, 0)] (chain_new Examples.two_level 100)
      = Some (rs, st)
    ∧ length rs = 3%nat
    ∧ Forall (λ r, hit_level r ∈ ["L1"; "L2"; "MainMemory"]) rs.
Proof.
  exact (proj2 (hit_level_is_a_level_name Examples.two_level) 100
           [(kLoad, 0); (kStore, 64); (kLoad, 0)] two_level_config_ok in_u64_100).
Defined.

(** The two accesses that lead to [Conflict.before], and the third, which
    misses L1 and hits L2. *)
Lemma conflict_states :
  @run _ (chain_level Examples.two_level) [(kLoad, 0); (kStore, 64)]
    (chain_new Examples.two_level 100)
  = Some ([mkResult "MainMemory" 111; mkResult "MainMemory" 111], Conflict.before)
  ∧ @access _ (chain_level Examples.two_level) kLoad 0 Conflict.before
    = Some (mkResult "L2" 11, Conflict.after).
Proof. split; vm_compute; reflexivity. Qed.


Lemma conflict_hits_L2 : hits_at_depth Examples.two_level 0 1 Conflict.before.
Proof. split; [by vm_compute|]. exists 0. by vm_compute. Qed.



(** C10 as stated fails for a hit below the top level.  In
    [Examples.two_level] after [Load(0)] and [Store(64)], a [Load(0)] misses
    L1 and hits L2.  L1 fills its way with the line of 0, losing the tag and
    the dirty bit of the line of 64, and writes that line back with a
    [Store(64)] to L2, which sets a dirty bit at L2, the level that hit. *)
Lemma lower_level_hit_changes_lines :
  ∃ rs,
    @run _ (chain_level Examples.two_level) [(kLoad, 0); (kStore, 64)]
      (chain_new Examples.two_level 100) = Some (rs, Conflict.before)
    ∧ hits_at_depth Examples.two_level 0 1 Conflict.before
    ∧ @Load _ (chain_level Examples.two_level) 0 Conflict.before
      = Some (mkResult "L2" 11, Conflict.after)
    ∧ line_at (sets_ Conflict.before) 0 0 = Some (mkLine true true 2)
    ∧ line_at (sets_ Conflict.after) 0 0 = Some (mkLine true false 0)
    ∧ line_at (sets_ (next_ Conflict.before)) 1 0 = Some (mkLine true false 0)
    ∧ line_at (sets_ (next_ Conflict.after)) 1 0 = Some (mkLine true true 0)
    ∧ chain_lines Examples.two_level Conflict.after
      ≠ chain_lines Examples.two_level Conflict.before.
Proof.
  eexists. split; [exact (proj1 conflict_states)|].
  split; [exact conflict_hits_L2|]. split; [exact (proj2 conflict_states)|].
  by vm_compute.
Qed.

(** ** When [Fill] asks the policy *)

Section Consultation.
Context {Name : string} {NextLayer : Type} `{!MemoryLevel NextLayer}.
Context {Sets Ways BlockSize : Z}.
Context {P : Type} `{!Policy P}.
Context {HitLatency : Z}.

Local Abbreviation cache := (Cache Name NextLayer Sets Ways BlockSize (Consulted P) HitLatency).

Lemma overwrite_requests s t w (c1 c' : cache) :
  overwrite s t w c1 = Some c' →
  victim_requests (policy_ c') = victim_requests (policy_ c1).
Proof. by intros (sets' & _ & ->)%overwrite_inv. Qed.

Lemma choose_victim_requests s w (c c1 : cache) :
  choose_victim s c = Some (w, c1) →
  victim_requests (policy_ c1) = victim_requests (policy_ c) ++ [s].
Proof.
  intros (p & victim & Hget & _ & Hc1)%choose_victim_inv.
  assert (Hp : victim_requests p = victim_requests (policy_ c) ++ [s]).
  { simpl in Hget. destruct (GetVictim s (wrapped (policy_ c))) as [v q].
    by injection Hget as _ <-. }
  by destruct Hc1 as [[_ ->]|(_ & _ & r & n & _ & ->)].
Qed.

(** C9.  When [Fill] returns, it has consulted [GetVictim] either not at all
    or exactly once, for the set being filled; if it has, every way of that
    set held a valid line when [Fill] was called, and if some way of the set
    was invalid then, it has not. *)
Theorem victim_asked_only_when_set_full s t (c c' : cache) :
  Fill s t c = Some c' →
  (victim_requests (policy_ c') = victim_requests (policy_ c)
   ∨ (victim_requests (policy_ c') = victim_requests (policy_ c) ++ [s]
      ∧ ∀ w, 0 ≤ w < Ways → ∃ l, line_at (sets_ c) s w = Some l ∧ valid l = true))
  ∧ ((∃ w l, 0 ≤ w < Ways ∧ line_at (sets_ c) s w = Some l ∧ valid l = false) →
     victim_requests (policy_ c') = victim_requests (policy_ c)).
Proof.
  intros (w & c1 & [(Hw & _ & _ & ->)|[Hfull Hch]] & Hover)%Fill_inv.
  - apply overwrite_requests in Hover. by split; [left|].
  - apply overwrite_requests in Hover. apply choose_victim_requests in Hch.
    rewrite Hover, Hch. split; [by right|].
    intros (w' & l & Hw' & Hl & Hv). destruct (Hfull w' Hw') as (l' & Hl' & Hv').
    congruence.
Qed.
End Consultation.

Lemma victim_asked_only_when_set_full_witness :
  Fill 0 1 Audited.full = Some Audited.refilled
  ∧ victim_requests (policy_ Audited.refilled) = [0]
  ∧ ∀ w, 0 ≤ w < 1 →
      ∃ l, line_at (sets_ Audited.full) 0 w = Some l ∧ valid l = true.
Proof.
  assert (Hfill : Fill 0 1 Audited.full = Some Audited.refilled) by reflexivity.
  split; [exact Hfill|]. split; [reflexivity|].
  destruct (victim_asked_only_when_set_full 0 1 _ _ Hfill)
    as [[Hnone|[_ Hfull]] _]; [discriminate Hnone|exact Hfull].
Defined.

(** ** Tag uniqueness *)

Lemma row_unique_same_key row i l l' :
  row !! i = Some l → valid l' = valid l → tag l' = tag l →
  row_unique row → row_unique (<[i := l']> row).
Proof.
  intros Hi Hv Ht Huniq a b la lb Ha Hb Hva Hvb Htag.
  assert (Hlen : (i < length row)%nat) by by eapply lookup_lt_Some.
  assert (Hold : ∀ k lk, <[i := l']> row !! k = Some lk →
            ∃ lk', row !! k = Some lk' ∧ valid lk' = valid lk ∧ tag lk' = tag lk).
  { intros k lk Hk. destruct (decide (i = k)) as [<-|Hne].
    - rewrite list_lookup_insert_eq in Hk by done. injection Hk as <-. eauto.
    - rewrite list_lookup_insert_ne in Hk by done. eauto. }
  destruct (Hold a la Ha) as (la' & Ha' & Hva' & Hta').
  destruct (Hold b lb Hb) as (lb' & Hb' & Hvb' & Htb').
  apply (Huniq a b la' lb'); congruence.
Qed.

Lemma row_unique_install row i t l0 :
  row !! i = Some l0 →
  row_unique row →
  (∀ j lj, row !! j = Some lj → valid lj = true → tag lj ≠ t) →
  row_unique (<[i := install t l0]> row).
Proof.
  intros Hi Huniq Hfresh a b la lb Ha Hb Hva Hvb Htag.
  assert (Hlen : (i < length row)%nat) by by eapply lookup_lt_Some.
  destruct (decide (i = a)) as [<-|Hia], (decide (i = b)) as [<-|Hib]; [done| | |].
  - rewrite list_lookup_insert_eq in Ha by done. injection Ha as <-.
    rewrite list_lookup_insert_ne in Hb by done.
    by destruct (Hfresh b lb Hb Hvb).
  - rewrite list_lookup_insert_eq in Hb by done. injection Hb as <-.
    rewrite list_lookup_insert_ne in Ha by done.
    by destruct (Hfresh a la Ha Hva).
  - rewrite list_lookup_insert_ne in Ha, Hb by done. by apply (Huniq a b la lb).
Qed.

Lemma tags_unique_mark_dirty sets s w sets' :
  update_line mark_dirty sets s w = Some sets' →
  tags_unique sets → tags_unique sets'.
Proof.
  intros (row & l & Hrow & Hl & ->)%update_line_inv Huniq.
  apply Forall_insert; [done|].
  apply (row_unique_same_key row _ l); [done..|].
  by apply (Forall_lookup_1 _ _ _ _ Huniq Hrow).
Qed.

Lemma tags_unique_install Sets Ways sets s w t sets' :
  shape_ok Sets Ways sets →
  ¬ resident Ways sets s t →
  update_line (install t) sets s w = Some sets' →
  tags_unique sets → tags_unique sets'.
Proof.
  intros [_ Hrows] Hfresh (row & l & Hrow & Hl & ->)%update_line_inv Huniq.
  apply Forall_insert; [done|].
  apply row_unique_install; [done|by apply (Forall_lookup_1 _ _ _ _ Huniq Hrow)|].
  intros j lj Hj Hvj Htj. apply Hfresh. exists (Z.of_nat j), lj.
  pose proof (Forall_lookup_1 _ _ _ _ Hrows Hrow) as Hlen. simpl in Hlen.
  apply lookup_lt_Some in Hj as Hjlt.
  split; [lia|]. split; [|done].
  apply line_at_Some. exists row. by rewrite Nat2Z.id.
Qed.

Lemma tags_unique_new Sets Ways :
  tags_unique (replicate (Z.to_nat Sets) (replicate (Z.to_nat Ways) empty_line)).
Proof.
  apply Forall_replicate. intros i j li lj Hi Hj Hvi.
  apply lookup_replicate_1 in Hi as [-> _]. done.
Qed.

Section CacheUnique.
Context {Name : string} {NextLayer : Type} `{!MemoryLevel NextLayer}.
Context {Sets Ways BlockSize : Z}.
Context {ReplacePolicy : Type} `{!Policy ReplacePolicy}.
Context {HitLatency : Z}.
Context (next_inv : NextLayer → Prop).
Context (next_keeps : ∀ op a n r n',
           next_inv n → access op a n = Some (r, n') → next_inv n').

Local Abbreviation cache := (Cache Name NextLayer Sets Ways BlockSize ReplacePolicy HitLatency).
Local Abbreviation keeps_unique := (keeps_unique (Name := Name) (Sets := Sets)
  (Ways := Ways) (BlockSize := BlockSize) (ReplacePolicy := ReplacePolicy)
  (HitLatency := HitLatency) next_inv).

Implicit Types (c : cache) (s t w addr : Z).

Lemma choose_victim_unique s c w c1 :
  keeps_unique c → choose_victim s c = Some (w, c1) →
  keeps_unique c1 ∧ sets_ c1 = sets_ c.
Proof.
  intros (Hshape & Huniq & Hnext) (p & victim & _ & _ & Hc1)%choose_victim_inv.
  destruct Hc1 as [[_ ->]|(_ & _ & r & n & Hst & ->)]; [done|].
  split; [|done]. split; [done|]. split; [done|]. simpl.
  by apply (next_keeps kStore _ _ _ _ Hnext Hst).
Qed.

Lemma Fill_unique s t c c' :
  keeps_unique c → ¬ resident Ways (sets_ c) s t →
  Fill s t c = Some c' → keeps_unique c'.
Proof.
  intros Hkeep Hfresh (w & c1 & Hchoice & Hover)%Fill_inv.
  assert (Hc1 : keeps_unique c1 ∧ sets_ c1 = sets_ c).
  { destruct Hchoice as [(_ & _ & _ & ->)|[_ Hch]]; [done|].
    by apply (choose_victim_unique s c w). }
  destruct Hc1 as [(Hshape & Huniq & Hnext) Hsets].
  apply overwrite_inv in Hover as (sets' & Hupd & ->).
  split; [by eapply update_line_shape|]. split; [|done]. simpl.
  eapply tags_unique_install; [done| |done..]. by rewrite Hsets.
Qed.

Lemma dirty_filled_unique s t c c' :
  keeps_unique c → dirty_filled s t c = Some c' → keeps_unique c'.
Proof.
  intros (Hshape & Huniq & Hnext). unfold dirty_filled.
  destruct (find_way s t c) as [[w|]|]; simpl; [| |done].
  - destruct (update_line mark_dirty (sets_ c) s w) as [sets'|] eqn:Hupd; simpl; [|done].
    intros [= <-]. split; [by eapply update_line_shape|].
    split; [by eapply tags_unique_mark_dirty|done].
  - by intros [= <-].
Qed.

Lemma Cache_access_unique op addr c r c' :
  keeps_unique c → access op addr c = Some (r, c') → keeps_unique c'.
Proof.
  intros Hkeep. pose proof Hkeep as (Hshape & Huniq & Hnext). destruct op; simpl.
  - intros (s & t & _ & _ & [(w & _ & _ & ->)|(Hmiss & rn & n & Hn & _ & Hfill)])%Cache_Load_inv;
      [done|].
    apply find_way_miss in Hmiss as [_ Hfresh].
    apply (Fill_unique s t _ _) in Hfill; [done| |done].
    split; [done|]. split; [done|]. by apply (next_keeps kLoad _ _ _ _ Hnext Hn).
  - intros (s & t & _ & _ & [(w & sets' & _ & Hupd & _ & ->)
                            |(Hmiss & rn & n & c1 & Hn & _ & Hfill & Hdirty)])%Cache_Store_inv.
    + split; [by eapply update_line_shape|].
      split; [by eapply tags_unique_mark_dirty|done].
    + apply find_way_miss in Hmiss as [_ Hfresh].
      apply (Fill_unique s t _ _) in Hfill; [by eapply dirty_filled_unique| |done].
      split; [done|]. split; [done|]. by apply (next_keeps kLoad _ _ _ _ Hnext Hn).
Qed.
End CacheUnique.

Lemma chain_new_unique {T : Type} (c : Chain T) lat : chain_unique c (chain_new c lat).
Proof.
  induction c as [Name|Name NextLayer next IH Sets Ways BlockSize RP pol HitLatency];
    simpl; [done|].
  split; [|split; [apply tags_unique_new|apply IH]].
  split; simpl; [by rewrite length_replicate|].
  apply Forall_replicate. by rewrite length_replicate.
Qed.

Lemma chain_access_unique {T : Type} (c : Chain T) op addr st r st' :
  chain_unique c st →
  @access T (chain_level c) op addr st = Some (r, st') →
  chain_unique c st'.
Proof.
  revert op addr st r st'.
  induction c as [Name|Name NextLayer next IH Sets Ways BlockSize RP pol HitLatency];
    intros op addr st r st' Huniq Hacc; [done|].
  simpl in *.
  eapply (Cache_access_unique (MemoryLevel0 := chain_level next)); [|done..].
  intros op' a n r' n'. apply IH.
Qed.

(** C7.  In every cache level of a hierarchy, no set holds two valid lines
    with the same tag: this holds of the constructed hierarchy, every [Load]
    and every [Store] that returns preserves it, at all levels at once, and
    on a well-formed hierarchy every [Load] and [Store] returns. *)
Theorem tag_uniqueness_invariant {T : Type} (c : Chain T) :
  (∀ lat, chain_unique c (chain_new c lat))
  ∧ (∀ op addr st r st',
        chain_unique c st →
        @access T (chain_level c) op addr st = Some (r, st') →
        chain_unique c st')
  ∧ (∀ op addr st,
        chain_ok c st → chain_unique c st →
        ∃ r st', @access T (chain_level c) op addr st = Some (r, st')
                 ∧ chain_ok c st' ∧ chain_unique c st').
Proof.
  split; [apply chain_new_unique|]. split; [apply chain_access_unique|].
  intros op addr st Hok Huniq.
  destruct (chain_access_ok c op addr st Hok) as (r & st' & Hacc & Hok').
  exists r, st'. split; [done|]. split; [done|]. by eapply chain_access_unique.
Qed.

Lemma tag_uniqueness_invariant_witness :
  chain_unique Examples.two_level (chain_new Examples.two_level 100)
  ∧ ∃ r st', @access _ (chain_level Examples.two_level) kStore 64
               (chain_new Examples.two_level 100) = Some (r, st')
             ∧ chain_unique Examples.two_level st'.
Proof.
  destruct (tag_uniqueness_invariant Examples.two_level) as (Hnew & _ & Hstep).
  split; [apply Hnew|].
  destruct (Hstep kStore 64 (chain_new Examples.two_level 100)) as (r & st' & Hacc & _ & Hu).
  - apply chain_new_ok; [apply two_level_config_ok | apply in_u64_100].
  - apply Hnew.
  - by exists r, st'.
Defined.

(** ** What an access leaves in the cache *)

Lemma line_at_new Sets Ways s w :
  0 ≤ s < Sets → 0 ≤ w < Ways →
  line_at (replicate (Z.to_nat Sets) (replicate (Z.to_nat Ways) empty_line)) s w
  = Some empty_line.
Proof.
  intros Hs Hw. apply line_at_Some. eexists.
  split; apply lookup_replicate_2; lia.
Qed.

Lemma resident_mark_dirty Ways sets s0 w0 sets' s t :
  0 ≤ s0 → 0 ≤ w0 → 0 ≤ s →
  update_line mark_dirty sets s0 w0 = Some sets' →
  resident Ways sets s t ↔ resident Ways sets' s t.
Proof.
  intros Hs0 Hw0 Hs Hupd. unfold resident.
  split; intros (w & l & Hw & Hl & Hv & Ht).
  - exists w. rewrite (line_at_update _ _ _ _ _ s w Hupd) by lia.
    destruct (decide (s = s0 ∧ w = w0)) as [[-> ->]|_]; [|by eauto].
    rewrite Hl. simpl. exists (mark_dirty l). split_done.
  - exists w. rewrite (line_at_update _ _ _ _ _ s w Hupd) in Hl by lia.
    destruct (decide (s = s0 ∧ w = w0)) as [[-> ->]|_]; [|by eauto].
    destruct (line_at sets s0 w0) as [l0|]; [|done]. injection Hl as <-.
    exists l0. split_done.
Qed.

Section CacheContents.
Context {Name : string} {NextLayer : Type} `{!MemoryLevel NextLayer}.
Context {Sets Ways BlockSize : Z}.
Context {ReplacePolicy : Type} `{!Policy ReplacePolicy}.
Context {HitLatency : Z}.

Local Abbreviation cache := (Cache Name NextLayer Sets Ways BlockSize ReplacePolicy HitLatency).

Implicit Types (c : cache) (s t w addr : Z).

(** [Fill] overwrites one way of the set, within [Ways]. *)
Lemma Fill_installs s t c c' :
  policy_safe Sets Ways (policy_ c) → 0 ≤ s < Sets →
  Fill s t c = Some c' →
  ∃ w l, 0 ≤ w < Ways ∧ line_at (sets_ c) s w = Some l
         ∧ update_line (install t) (sets_ c) s w = Some (sets_ c')
         ∧ hits_ c' = hits_ c ∧ misses_ c' = misses_ c.
Proof.
  intros Hpol Hs (w & c1 & Hchoice & Hover)%Fill_inv.
  apply overwrite_inv in Hover as (sets' & Hupd & ->). simpl.
  destruct Hchoice as [(Hw & (l & Hl & _) & _ & ->)|[_ Hch]].
  - exists w, l. split_done.
  - apply choose_victim_inv in Hch as (p & victim & Hget & Hl & Hc1).
    pose proof (policy_safe_GetVictim _ _ s _ Hpol Hs) as [Hw _].
    rewrite Hget in Hw. simpl in Hw. exists w, victim.
    by destruct Hc1 as [[_ ->]|(_ & _ & r & n & _ & ->)].
Qed.

Lemma Fill_resident s t c c' :
  policy_safe Sets Ways (policy_ c) → 0 ≤ s < Sets →
  Fill s t c = Some c' → resident Ways (sets_ c') s t.
Proof.
  intros Hpol Hs (w & l & Hw & Hl & Hupd & _)%Fill_installs; [|done..].
  exists w, (install t l). split; [done|].
  rewrite (line_at_update _ _ _ _ _ s w Hupd) by lia.
  rewrite decide_True by done. by rewrite Hl.
Qed.

Lemma dirty_filled_resident s t c c' s' t' :
  0 ≤ s → 0 ≤ s' →
  dirty_filled s t c = Some c' →
  resident Ways (sets_ c) s' t' ↔ resident Ways (sets_ c') s' t'.
Proof.
  intros Hs Hs'. unfold dirty_filled.
  destruct (find_way s t c) as [[w|]|] eqn:Hfw; simpl; [| |done].
  - destruct (update_line mark_dirty (sets_ c) s w) as [sets'|] eqn:Hupd; simpl; [|done].
    intros [= <-]. simpl. apply find_way_hit in Hfw as (Hw & _).
    eapply resident_mark_dirty; [| | |done]; lia.
  - by intros [= <-].
Qed.

(** After a [Load] or [Store] of an address, its line is in the cache. *)
Lemma access_resident (next_ok : NextLayer → Prop) op addr c r c' :
  cache_ok next_ok c →
  access op addr c = Some (r, c') →
  ∃ w, lookup addr c' = Some (Some w).
Proof.
  intros (Hcfg & Hshape & Hpol & _) Hacc.
  destruct (set_index_defined _ _ _ addr Hcfg) as [Hsi Hs].
  pose proof (tag_of_defined _ _ _ addr Hcfg) as Hti.
  set (s := (addr / BlockSize) mod Sets) in *.
  set (t := addr / wrap64 (BlockSize * Sets)) in *.
  rewrite (lookup_intro addr c' s t Hsi Hti).
  assert (Hgoal : shape_ok Sets Ways (sets_ c') ∧ resident Ways (sets_ c') s t).
  { destruct op; simpl in Hacc.
    - apply Cache_Load_inv in Hacc
        as (s' & t' & Hs' & Ht' & [(w & Hfw & _ & ->)|(_ & rn & n & _ & _ & Hfill)]);
        rewrite Hsi in Hs'; rewrite Hti in Ht'; injection Hs' as <-; injection Ht' as <-.
      + split; [done|]. apply find_way_hit in Hfw as (Hw & (l & Hl & Hv & Ht) & _).
        by exists w, l.
      + split; [|exact (Fill_resident _ _ (with_next n (StatsMiss c)) _ Hpol Hs Hfill)].
        apply Fill_installs in Hfill as (w & l & _ & _ & Hupd & _); [|done..].
        by eapply update_line_shape.
    - apply Cache_Store_inv in Hacc
        as (s' & t' & Hs' & Ht' & [(w & sets' & Hfw & Hupd & _ & ->)
                                  |(_ & rn & n & c1 & _ & _ & Hfill & Hdirty)]);
        rewrite Hsi in Hs'; rewrite Hti in Ht'; injection Hs' as <-; injection Ht' as <-.
      + split; [by eapply update_line_shape|]. simpl.
        apply find_way_hit in Hfw as (Hw & (l & Hl & Hv & Ht) & _).
        assert (Hs0 : 0 ≤ s) by lia. assert (Hw0 : 0 ≤ w) by lia.
        apply (proj1 (resident_mark_dirty Ways _ s w _ s t Hs0 Hw0 Hs0 Hupd)).
        by exists w, l.
      + pose proof (Fill_resident _ _ (with_next n (StatsMiss c)) _ Hpol Hs Hfill) as Hres.
        apply (dirty_filled_resident s t c1 c' s t) in Hres; [|lia..|done].
        split; [|done].
        apply Fill_installs in Hfill as (w & l & _ & _ & Hupd & _); [|done..].
        assert (Hshape1 : shape_ok Sets Ways (sets_ c1)) by by eapply update_line_shape.
        revert Hdirty. unfold dirty_filled.
        destruct (find_way s t c1) as [[w'|]|]; simpl; [| |done].
        * destruct (update_line mark_dirty (sets_ c1) s w') as [sets'|] eqn:Hupd'; simpl; [|done].
          intros [= <-]. by eapply update_line_shape.
        * by intros [= <-]. }
  destruct Hgoal as [Hshape' Hres]. by apply find_way_resident.
Qed.

(** Once the line is in the cache, repeated loads of the address hit this
    level and change no line, here or below. *)
Lemma repeated_load_hits addr n c w :
  lookup addr c = Some (Some w) →
  ∃ c', run (replicate n (kLoad, addr)) c
        = Some (replicate n (mkResult Name HitLatency), c')
        ∧ sets_ c' = sets_ c ∧ next_ c' = next_ c.
Proof.
  revert c. induction n as [|n IH]; intros c Hhit; simpl.
  - by exists c.
  - destruct (Cache_Load_hit addr c w Hhit) as (s & Hs & ->). simpl.
    set (c1 := mkCache _ _ _ _ _ _).
    destruct (IH c1) as (c' & -> & Hsets & Hnext).
    { revert Hhit. unfold lookup.
      destruct (set_index Sets BlockSize addr); simpl; [|done].
      destruct (tag_of Sets BlockSize addr); simpl; [|done].
      by rewrite (find_way_ext _ _ c c1). }
    simpl. by exists c'.
Qed.
End CacheContents.

(** ** Cold miss, then hits *)

Lemma lookup_new {Name NextLayer Sets Ways BlockSize ReplacePolicy}
    `{!Policy ReplacePolicy} {HitLatency} addr (n : NextLayer) :
  level_config_ok Sets Ways BlockSize →
  lookup addr (Cache_new n
    : Cache Name NextLayer Sets Ways BlockSize ReplacePolicy HitLatency) = Some None.
Proof.
  intros Hcfg. destruct (set_index_defined _ _ _ addr Hcfg) as [Hsi Hs].
  rewrite (lookup_intro addr _ _ _ Hsi (tag_of_defined _ _ _ addr Hcfg)).
  apply scan_ways_all_false. intros w Hw. exists empty_line.
  split; [|done]. simpl. apply line_at_new; lia.
Qed.

Lemma chain_new_misses {T : Type} (c : Chain T) lat addr :
  chain_params_ok c → misses_everywhere c addr (chain_new c lat).
Proof.
  induction c as [Name|Name NextLayer next IH Sets Ways BlockSize RP pol HitLatency];
    simpl; [done|].
  intros (Hcfg & Hnext). split; [by apply lookup_new|by apply IH].
Qed.

Section ColdLoad.
Context {Name : string} {NextLayer : Type} `{!MemoryLevel NextLayer}.
Context {Sets Ways BlockSize : Z}.
Context {ReplacePolicy : Type} `{!Policy ReplacePolicy}.
Context {HitLatency : Z}.

Local Abbreviation cache := (Cache Name NextLayer Sets Ways BlockSize ReplacePolicy HitLatency).

(** The first load of a constructed level: it misses, loads from the next
    level, and fills way 0 of the set without asking the policy. *)
Lemma Cache_Load_new addr (n : NextLayer) rn n1 :
  level_config_ok Sets Ways BlockSize →
  Load addr n = Some (rn, n1) →
  ∃ c' : cache,
    Cache_Load addr (Cache_new n)
    = Some (mkResult (hit_level rn) (wrap64 (total_cycles rn + HitLatency)), c')
    ∧ lookup addr c' = Some (Some 0)
    ∧ next_ c' = n1.
Proof.
  intros Hcfg Hn. pose proof Hcfg as (_ & HW & _).
  destruct (set_index_defined _ _ _ addr Hcfg) as [Hsi Hs].
  pose proof (tag_of_defined _ _ _ addr Hcfg) as Hti.
  pose proof (lookup_new (Name := Name) (ReplacePolicy := ReplacePolicy)
                (HitLatency := HitLatency) addr n Hcfg) as Hmiss.
  rewrite (lookup_intro addr _ _ _ Hsi Hti) in Hmiss.
  set (s := (addr / BlockSize) mod Sets) in *.
  set (t := addr / wrap64 (BlockSize * Sets)) in *.
  assert (Hempty : line_at (sets_ (Cache_new n : cache)) s 0 = Some empty_line)
    by (apply line_at_new; lia).
  destruct (update_line_Some (install t) _ _ _ _ Hempty) as (row & Hrow & Hupd).
  unfold Cache_Load. rewrite Hsi, Hti. simpl. rewrite Hmiss. simpl. rewrite Hn. simpl.
  rewrite (Fill_first_invalid s t _ 0 empty_line); [|lia|done|done|intros; lia].
  unfold overwrite. simpl in *. rewrite Hupd. simpl.
  eexists. split; [done|]. split; [|done].
  rewrite (lookup_intro addr _ _ _ Hsi Hti).
  apply (scan_ways_first _ _ _ _ _ 0 (install t empty_line)); [lia| |by apply tag_match_true|intros; lia].
  simpl. rewrite (line_at_update (install t) _ s 0 _ s 0 Hupd) by lia.
  rewrite decide_True by done. simpl in Hempty. by rewrite Hempty.
Qed.
End ColdLoad.

Lemma chain_cold_load {T : Type} (c : Chain T) lat addr :
  chain_params_ok c →
  ∃ r st', @Load T (chain_level c) addr (chain_new c lat) = Some (r, st')
           ∧ hit_level r = memory_name c.
Proof.
  induction c as [Name|Name NextLayer next IH Sets Ways BlockSize RP pol HitLatency];
    simpl.
  - intros _. by eexists _, _.
  - intros [Hcfg Hnext]. destruct (IH Hnext) as (rn & n1 & Hn & Hname).
    destruct (Cache_Load_new (MemoryLevel0 := chain_level next) (Name := Name)
                (ReplacePolicy := RP) (HitLatency := HitLatency)
                addr (chain_new next lat) rn n1 Hcfg Hn) as (c' & Hload & _).
    by eexists _, c'.
Qed.

(** C5.  In a hierarchy with at least one cache level and well-formed
    parameters, freshly constructed, the first [Load(A)] finds no matching
    line at any cache level and is serviced by the main memory; each of any
    number of immediately following [Load(A)] hits at the top (innermost)
    cache, returning its name and hit latency, and changes no line at any
    level. *)
Theorem cold_miss_then_hit (Name : string) {NextLayer : Type} (next : Chain NextLayer)
    (Sets Ways BlockSize : Z) (ReplacePolicy : Type) `{!Policy ReplacePolicy}
    (HitLatency lat A : Z) :
  let c := chain_cache Name next Sets Ways BlockSize ReplacePolicy HitLatency in
  chain_params_ok c →
  misses_everywhere c A (chain_new c lat)
  ∧ ∃ r st1,
      @Load _ (chain_level c) A (chain_new c lat) = Some (r, st1)
      ∧ hit_level r = memory_name c
      ∧ ∀ n, ∃ st2,
          @run _ (chain_level c) (replicate n (kLoad, A)) st1
          = Some (replicate n (mkResult Name HitLatency), st2)
          ∧ chain_lines c st2 = chain_lines c st1.
Proof.
  intros c Hparams. split; [by apply chain_new_misses|].
  destruct Hparams as [Hcfg Hnext].
  destruct (chain_cold_load next lat A Hnext) as (rn & n1 & Hn & Hname).
  destruct (Cache_Load_new (MemoryLevel0 := chain_level next) (Name := Name)
              (ReplacePolicy := ReplacePolicy) (HitLatency := HitLatency)
              A (chain_new next lat) rn n1 Hcfg Hn) as (st1 & Hload & Hhit & _).
  eexists _, st1. split; [exact Hload|]. split; [done|]. intros n.
  destruct (repeated_load_hits (MemoryLevel0 := chain_level next) A n st1 0 Hhit)
    as (st2 & Hrun & Hsets & Hnx).
  exists st2. split; [done|]. simpl. by rewrite Hsets, Hnx.
Qed.

Lemma two_level_params_ok : chain_params_ok Examples.two_level.
Proof. simpl. repeat split; try lia; by vm_compute. Qed.

Lemma cold_miss_then_hit_witness :
  ∃ r st1,
    @Load _ (chain_level Examples.two_level) 80 (chain_new Examples.two_level 100)
      = Some (r, st1)
    ∧ hit_level r = "MainMemory"
    ∧ ∃ st2, @run _ (chain_level Examples.two_level) (replicate 3 (kLoad, 80)) st1
             = Some (replicate 3 (mkResult "L1" 1), st2)
             ∧ chain_lines Examples.two_level st2 = chain_lines Examples.two_level st1.
Proof.
  destruct (cold_miss_then_hit "L1"
              (chain_cache "L2" (chain_memory "MainMemory") 4 2 64 LRUPolicy 10)
              2 1 16 LRUPolicy 1 100 80 two_level_params_ok)
    as (_ & r & st1 & Hload & Hname & Hhits).
  exists r, st1. split; [exact Hload|]. split; [exact Hname|]. exact (Hhits 3%nat).
Defined.

(** ** Write-allocate and write-back *)

Lemma scan_ways_mark_dirty t sets s0 w0 sets' s n from :
  0 ≤ s0 → 0 ≤ w0 → 0 ≤ s → 0 ≤ from →
  update_line mark_dirty sets s0 w0 = Some sets' →
  scan_ways (tag_match t) sets' s n from = scan_ways (tag_match t) sets s n from.
Proof.
  intros Hs0 Hw0 Hs Hfrom Hupd. revert from Hfrom.
  induction n as [|n IH]; intros from Hfrom; simpl; [done|].
  rewrite (line_at_update _ _ _ _ _ s from Hupd) by lia.
  destruct (decide (s = s0 ∧ from = w0)) as [[-> ->]|_].
  - destruct (line_at sets s0 w0) as [l|]; simpl; [|done].
    replace (tag_match t (mark_dirty l)) with (tag_match t l) by done.
    destruct (tag_match t l); [done|]. apply IH. lia.
  - destruct (line_at sets s from) as [l|]; simpl; [|done].
    destruct (tag_match t l); [done|]. apply IH. lia.
Qed.

Section WriteBack.
Context {Name : string} {NextLayer : Type} `{!MemoryLevel NextLayer}.
Context {Sets Ways BlockSize : Z}.
Context {ReplacePolicy : Type} `{!Policy ReplacePolicy}.
Context {HitLatency : Z}.
Context (next_ok : NextLayer → Prop) `{!LevelSafe NextLayer next_ok}.

Local Abbreviation cache := (Cache Name NextLayer Sets Ways BlockSize ReplacePolicy HitLatency).

Implicit Types (c : cache) (s t w addr : Z).

(** What [Fill] does to the next level: nothing, or, when the set is full and
    the way named by the policy holds a dirty line, one [Store] at the
    address rebuilt from that line's tag. *)
Lemma Fill_next s t c c' :
  policy_safe Sets Ways (policy_ c) → 0 ≤ s < Sets →
  Fill s t c = Some c' →
  ∃ w, 0 ≤ w < Ways
    ∧ update_line (install t) (sets_ c) s w = Some (sets_ c')
    ∧ hits_ c' = hits_ c ∧ misses_ c' = misses_ c
    ∧ ((next_ c' = next_ c ∧ evictions_ c' = evictions_ c
        ∧ ∀ victim, line_at (sets_ c) s w = Some victim →
                    valid victim && dirty victim = false)
       ∨ ∃ victim r c1,
           (∀ w', 0 ≤ w' < Ways → ∃ l, line_at (sets_ c) s w' = Some l ∧ valid l = true)
           ∧ choose_victim s c = Some (w, c1)
           ∧ overwrite s t w c1 = Some c'
           ∧ sets_ c1 = sets_ c ∧ next_ c1 = next_ c'
           ∧ line_at (sets_ c) s w = Some victim
           ∧ valid victim = true ∧ dirty victim = true
           ∧ Store (evict_addr_of Sets BlockSize (tag victim) s) (next_ c)
             = Some (r, next_ c')
           ∧ evictions_ c' = wrap64 (evictions_ c + 1)).
Proof.
  intros Hpol Hs (w & c1 & Hchoice & Hover)%Fill_inv. exists w.
  pose proof Hover as (sets' & Hupd & ->)%overwrite_inv. simpl.
  destruct Hchoice as [(Hw & (l & Hl & Hv) & _ & ->)|[Hfull Hch]].
  - split; [done|]. split; [done|]. split; [done|]. split; [done|].
    left. split; [done|]. split; [done|].
    intros victim Hvictim. rewrite Hl in Hvictim. injection Hvictim as <-.
    by rewrite Hv.
  - pose proof Hch as (p & victim & Hget & Hl & Hc1)%choose_victim_inv.
    pose proof (policy_safe_GetVictim _ _ s _ Hpol Hs) as [Hw _].
    rewrite Hget in Hw. simpl in Hw. split; [done|].
    destruct Hc1 as [[Hclean ->]|(Hv & Hd & r & n & Hst & ->)].
    + split; [done|]. split; [done|]. split; [done|].
      left. split; [done|]. split; [done|].
      intros victim' Hvictim. rewrite Hl in Hvictim. by injection Hvictim as <-.
    + split; [done|]. split; [done|]. split; [done|].
      right. exists victim, r. eexists. split; [done|]. split; [exact Hch|].
      split; [exact Hover|]. split_done.
Qed.

(** Dirtying a line does not change which way a tag is found in. *)
Lemma find_way_mark_dirty s0 w0 s t c sets' :
  0 ≤ s0 → 0 ≤ w0 → 0 ≤ s →
  update_line mark_dirty (sets_ c) s0 w0 = Some sets' →
  find_way s t (with_sets sets' c) = find_way s t c.
Proof.
  intros Hs0 Hw0 Hs Hupd. unfold find_way. simpl.
  by apply (scan_ways_mark_dirty t (sets_ c) s0 w0).
Qed.

(** The last loop of [Store], when the tag is found at way [w]. *)
Lemma dirty_filled_found s t c w c' :
  0 ≤ s →
  find_way s t c = Some (Some w) →
  dirty_filled s t c = Some c' →
  find_way s t c' = Some (Some w)
  ∧ line_at (sets_ c') s w = Some (mkLine true true t)
  ∧ next_ c' = next_ c ∧ misses_ c' = misses_ c ∧ evictions_ c' = evictions_ c.
Proof.
  intros Hs Hfw. unfold dirty_filled. rewrite Hfw. simpl.
  destruct (update_line mark_dirty (sets_ c) s w) as [sets'|] eqn:Hupd; simpl; [|done].
  intros [= <-]. pose proof Hfw as (Hw & (l & Hl & Hv & Ht) & _)%find_way_hit.
  split; [|split; [|done]].
  - rewrite <-Hfw. eapply find_way_mark_dirty; [| | |done]; lia.
  - simpl. rewrite (line_at_update _ _ _ _ _ s w Hupd) by lia.
    rewrite decide_True by done. rewrite Hl. simpl.
    unfold mark_dirty. by rewrite Hv, Ht.
Qed.

(** C6.  A [Store] that misses at a cache level, in a well-formed state:
    the level issues [Load] for the address to the next level, returns the
    [hit_level] of that load unchanged and its cycle count plus the level's
    own [HitLatency] (in [size_t] arithmetic), counts a miss, and fills: the
    way in which the address's tag is found afterwards holds a valid and
    dirty line.  The next level receives nothing else, except that a fill
    which evicts a valid dirty line stores that line at its rebuilt
    address. *)
Theorem store_miss_write_allocates addr c :
  cache_ok next_ok c →
  lookup addr c = Some None →
  ∃ s t rn n1 r c',
    set_index Sets BlockSize addr = Some s
    ∧ tag_of Sets BlockSize addr = Some t
    ∧ Load addr (next_ c) = Some (rn, n1)
    ∧ Store addr c = Some (r, c')
    ∧ hit_level r = hit_level rn
    ∧ total_cycles r = wrap64 (total_cycles rn + HitLatency)
    ∧ misses_ c' = wrap64 (misses_ c + 1)
    ∧ (∃ w, 0 ≤ w < Ways ∧ lookup addr c' = Some (Some w)
            ∧ line_at (sets_ c') s w = Some (mkLine true true t))
    ∧ (next_ c' = n1
       ∨ ∃ w victim rs,
           line_at (sets_ c) s w = Some victim
           ∧ valid victim = true ∧ dirty victim = true
           ∧ Store (evict_addr_of Sets BlockSize (tag victim) s) n1 = Some (rs, next_ c')).
Proof.
  intros Hok Hmiss. pose proof Hok as (Hcfg & Hshape & Hpol & Hnext).
  destruct (Cache_Store_ok next_ok addr c Hok) as (r & c' & Hstore & Hok').
  pose proof Hstore as Hstore'.
  apply Cache_Store_inv in Hstore'
    as (s & t & Hs & Ht & [(w & sets' & Hfw & _)
                          |(_ & rn & n & c1 & Hn & Hr & Hfill & Hdirty)]).
  { rewrite (lookup_intro addr c s t Hs Ht) in Hmiss. congruence. }
  exists s, t, rn, n, r, c'. split; [done|]. split; [done|]. split; [done|].
  split; [done|]. split; [by rewrite Hr|]. split; [by rewrite Hr|].
  pose proof (set_index_defined _ _ _ addr Hcfg) as [Hsi Hsr].
  rewrite Hs in Hsi. injection Hsi as Hsi. rewrite <-Hsi in Hsr.
  pose proof (Fill_installs s t (with_next n (StatsMiss c)) c1 Hpol Hsr Hfill)
    as (w1 & l1 & _ & _ & Hupd1 & _ & Hmisses).
  assert (Hshape1 : shape_ok Sets Ways (sets_ c1)) by by eapply update_line_shape.
  pose proof (Fill_resident s t (with_next n (StatsMiss c)) c1 Hpol Hsr Hfill) as Hres.
  destruct (find_way_resident s t c1 Hshape1 Hsr Hres) as [w Hfw1].
  destruct (dirty_filled_found s t c1 w c' ltac:(lia) Hfw1 Hdirty)
    as (Hfw' & Hline & Hnext' & Hmisses' & _).
  split; [by rewrite Hmisses', Hmisses|]. split.
  { exists w. split; [by apply find_way_hit in Hfw1 as [? _]|].
    split; [|done]. by rewrite (lookup_intro addr c' s t Hs Ht). }
  rewrite Hnext'.
  apply Fill_next in Hfill
    as (w0 & _ & _ & _ & _ & [(Hsame & _)|(victim & rs & cm & _ & _ & _ & _ & _ & Hl & Hv & Hd & Hst & _)]);
    [| |done..].
  - by left.
  - right. exists w0, victim, rs. split_done.
Qed.
End WriteBack.

(** ** Probed levels *)

#[export] Instance Probe_safe {Inner : Type} `{!MemoryLevel Inner}
    (ok : Inner → Prop) `{!LevelSafe Inner ok} :
  LevelSafe (Probe Inner) (λ p, ok (inner p)).
Proof.
  split; intros addr p Hp; simpl.
  - destruct (Load_safe addr _ Hp) as (r & i & -> & Hi). simpl. eauto.
  - destruct (Store_safe addr _ Hp) as (r & i & -> & Hi). simpl. eauto.
Qed.

Lemma scenario_start_ok :
  cache_ok (λ p : Probe (MainMemory "MainMemory"), in_u64 (latency_ (inner p)))
    Scenario.start.
Proof.
  split; [by repeat split; try lia; vm_compute|].
  split; [by split; [|repeat constructor]|].
  split; [apply lru_construct_safe; lia|apply in_u64_100].
Qed.

Lemma direct_start_ok :
  cache_ok (λ p : Probe (MainMemory "MainMemory"), in_u64 (latency_ (inner p)))
    Examples.direct_start.
Proof.
  split; [by repeat split; try lia; vm_compute|].
  split; [by split; [|repeat constructor]|].
  split; [apply lru_construct_safe; lia|apply in_u64_100].
Qed.

(** ** Direct-mapped levels *)

Section DirectMapped.
Context {Name : string} {NextLayer : Type} `{!MemoryLevel NextLayer}.
Context {Sets BlockSize : Z}.
Context {ReplacePolicy : Type} `{!Policy ReplacePolicy}.
Context {HitLatency : Z}.
Context (next_ok : NextLayer → Prop) `{!LevelSafe NextLayer next_ok}.

Local Abbreviation cache := (Cache Name NextLayer Sets 1 BlockSize ReplacePolicy HitLatency).

(** C3, as amended.  In a cache level with [Ways = 1], whatever [Sets] is:
    after a load of address [A] the line of [A] is in the cache, and the
    very next load of an address [B] that maps to the same set with another
    tag evicts it: the line of [A] is gone after this second access and the
    single way of the set holds the line of [B]. *)
Theorem direct_mapped_conflict_evicts (A B : Z) (c0 : cache) :
  cache_ok next_ok c0 →
  set_index Sets BlockSize A = set_index Sets BlockSize B →
  tag_of Sets BlockSize A ≠ tag_of Sets BlockSize B →
  ∃ r1 c1 r2 c2,
    Load A c0 = Some (r1, c1)
    ∧ lookup A c1 = Some (Some 0)
    ∧ Load B c1 = Some (r2, c2)
    ∧ lookup A c2 = Some None
    ∧ lookup B c2 = Some (Some 0).
Proof.
  intros Hok0 Hset Htag. pose proof Hok0 as (Hcfg & _).
  destruct (Cache_Load_ok next_ok A c0 Hok0) as (r1 & c1 & Hload1 & Hok1).
  destruct (Cache_Load_ok next_ok B c1 Hok1) as (r2 & c2 & Hload2 & Hok2).
  exists r1, c1, r2, c2. split; [done|].
  destruct (access_resident next_ok kLoad A c0 r1 c1 Hok0 Hload1) as [wa Ha].
  destruct (access_resident next_ok kLoad B c1 r2 c2 Hok1 Hload2) as [wb Hb].
  destruct (set_index_defined _ _ _ A Hcfg) as [HsA Hs].
  pose proof (tag_of_defined _ _ _ A Hcfg) as HtA.
  pose proof (tag_of_defined _ _ _ B Hcfg) as HtB.
  set (s := (A / BlockSize) mod Sets) in *.
  rewrite (lookup_intro A c1 _ _ HsA HtA) in Ha.
  rewrite HsA in Hset. symmetry in Hset.
  rewrite (lookup_intro B c2 _ _ Hset HtB) in Hb.
  pose proof Ha as (Hwa & _)%find_way_hit.
  pose proof Hb as (Hwb & (lb & Hlb & Hvb & Htb) & _)%find_way_hit.
  assert (wa = 0) as -> by lia. assert (wb = 0) as -> by lia.
  rewrite (lookup_intro A c1 _ _ HsA HtA), (lookup_intro A c2 _ _ HsA HtA),
    (lookup_intro B c2 _ _ Hset HtB).
  split; [done|]. split; [done|]. split; [|done].
  apply scan_ways_all_false. intros w Hw. assert (w = 0) as -> by lia.
  exists lb. split; [done|]. apply tag_match_false. intros [_ Heq].
  apply Htag. rewrite HtA, HtB. congruence.
Qed.
End DirectMapped.

Lemma direct_mapped_conflict_evicts_witness :
  ∃ r1 c1 r2 c2,
    Load 0 Examples.direct_start = Some (r1, c1)
    ∧ lookup 0 c1 = Some (Some 0)
    ∧ Load 8 c1 = Some (r2, c2)
    ∧ lookup 0 c2 = Some None
    ∧ lookup 8 c2 = Some (Some 0).
Proof.
  apply (direct_mapped_conflict_evicts
           (LevelSafe0 := Probe_safe (λ m : MainMemory "MainMemory", in_u64 (latency_ m)))
           _ 0 8 Examples.direct_start direct_start_ok).
  - reflexivity.
  - by vm_compute.
Defined.

(** C3 as stated fails for [Sets = 2], [Ways = 1], [BlockSize = 4]: the
    addresses 0, 8 and 16 are three distinct addresses of set 0, and the line
    of address 0, present after the first load, is gone after the second
    load already, not only after the third. *)
Lemma capacity_law_fails_for_two_sets :
  set_index 2 4 0 = Some 0 ∧ set_index 2 4 8 = Some 0 ∧ set_index 2 4 16 = Some 0
  ∧ ∃ rs1 c1 rs2 c2,
      run [(kLoad, 0)] Examples.direct_start = Some (rs1, c1)
      ∧ lookup 0 c1 = Some (Some 0)
      ∧ run [(kLoad, 0); (kLoad, 8)] Examples.direct_start = Some (rs2, c2)
      ∧ lookup 0 c2 = Some None.
Proof.
  split; [done|]. split; [done|]. split; [done|].
  eexists _, _, _, _. split; [by vm_compute|]. split; [by vm_compute|].
  split; by vm_compute.
Qed.

(** ** Dirty lines are written back before they are replaced *)

Lemma tags_unique_line_at sets s w1 w2 l1 l2 :
  tags_unique sets → 0 ≤ w1 → 0 ≤ w2 →
  line_at sets s w1 = Some l1 → line_at sets s w2 = Some l2 →
  valid l1 = true → valid l2 = true → tag l1 = tag l2 → w1 = w2.
Proof.
  intros Huniq Hw1 Hw2 (row & Hrow & Hl1)%line_at_Some (row' & Hrow' & Hl2)%line_at_Some
    Hv1 Hv2 Htag.
  rewrite Hrow in Hrow'. injection Hrow' as <-.
  pose proof (Forall_lookup_1 _ _ _ _ Huniq Hrow _ _ _ _ Hl1 Hl2 Hv1 Hv2 Htag). lia.
Qed.

Section AccessCases.
Context {Name : string} {NextLayer : Type} `{!MemoryLevel NextLayer}.
Context {Sets Ways BlockSize : Z}.
Context {ReplacePolicy : Type} `{!Policy ReplacePolicy}.
Context {HitLatency : Z}.
Context (next_ok : NextLayer → Prop) `{!LevelSafe NextLayer next_ok}.

Local Abbreviation cache := (Cache Name NextLayer Sets Ways BlockSize ReplacePolicy HitLatency).

Implicit Types (c : cache) (s t w addr : Z).

Lemma access_ok op addr c r c' :
  cache_ok next_ok c → access op addr c = Some (r, c') → cache_ok next_ok c'.
Proof.
  intros Hok Hacc. destruct op; simpl in Hacc.
  - destruct (Cache_Load_ok next_ok addr c Hok) as (r' & c'' & Hload & Hok').
    congruence.
  - destruct (Cache_Store_ok next_ok addr c Hok) as (r' & c'' & Hstore & Hok').
    congruence.
Qed.

Lemma access_tags_unique op addr c r c' :
  cache_ok next_ok c → tags_unique (sets_ c) →
  access op addr c = Some (r, c') → tags_unique (sets_ c').
Proof.
  intros (_ & Hshape & _) Huniq Hacc.
  eapply (Cache_access_unique (λ _, True)) in Hacc as (_ & Huniq' & _); done.
Qed.

Lemma dirty_filled_inv s t c1 c' :
  dirty_filled s t c1 = Some c' →
  next_ c' = next_ c1 ∧ evictions_ c' = evictions_ c1
  ∧ (sets_ c' = sets_ c1
     ∨ ∃ w', 0 ≤ w' < Ways ∧ update_line mark_dirty (sets_ c1) s w' = Some (sets_ c')).
Proof.
  unfold dirty_filled.
  destruct (find_way s t c1) as [[w'|]|] eqn:Hfw; simpl; [| |done].
  - destruct (update_line mark_dirty (sets_ c1) s w') as [sets'|] eqn:Hupd; simpl; [|done].
    intros [= <-]. split; [done|]. split; [done|]. right. exists w'.
    by apply find_way_hit in Hfw as [? _].
  - intros [= <-]. split; [done|]. split; [done|]. by left.
Qed.

(** Every access, by its effect on the lines and on the next level: a hit
    overwrites no line and calls nothing; a miss loads from the next level,
    overwrites one way of the set, and stores the line that was there if and
    only if that line was valid and dirty. *)
Lemma access_cases op addr c r c' :
  cache_ok next_ok c → access op addr c = Some (r, c') →
  ∃ s t,
    set_index Sets BlockSize addr = Some s ∧ tag_of Sets BlockSize addr = Some t
    ∧ 0 ≤ s < Sets
    ∧ ((∃ w, find_way s t c = Some (Some w)
             ∧ next_ c' = next_ c ∧ evictions_ c' = evictions_ c
             ∧ (sets_ c' = sets_ c
                ∨ update_line mark_dirty (sets_ c) s w = Some (sets_ c')))
       ∨ (find_way s t c = Some None
          ∧ ∃ rn n1 w sets1,
              Load addr (next_ c) = Some (rn, n1)
              ∧ 0 ≤ w < Ways
              ∧ update_line (install t) (sets_ c) s w = Some sets1
              ∧ (sets_ c' = sets1
                 ∨ ∃ w', 0 ≤ w' < Ways
                         ∧ update_line mark_dirty sets1 s w' = Some (sets_ c'))
              ∧ ((next_ c' = n1 ∧ evictions_ c' = evictions_ c
                  ∧ ∀ victim, line_at (sets_ c) s w = Some victim →
                              valid victim && dirty victim = false)
                 ∨ ∃ victim rs cm,
                     choose_victim s (with_next n1 (StatsMiss c)) = Some (w, cm)
                     ∧ sets_ cm = sets_ c ∧ next_ cm = next_ c'
                     ∧ line_at (sets_ c) s w = Some victim
                     ∧ valid victim = true ∧ dirty victim = true
                     ∧ Store (evict_addr_of Sets BlockSize (tag victim) s) n1
                       = Some (rs, next_ c')
                     ∧ evictions_ c' = wrap64 (evictions_ c + 1)))).
Proof.
  intros (Hcfg & Hshape & Hpol & Hnext) Hacc.
  destruct (set_index_defined _ _ _ addr Hcfg) as [Hsi Hs].
  assert (Hfill_cases : ∀ s t n1 c1,
    0 ≤ s < Sets →
    Fill s t (with_next n1 (StatsMiss c)) = Some c1 →
    ∃ w, 0 ≤ w < Ways
      ∧ update_line (install t) (sets_ c) s w = Some (sets_ c1)
      ∧ ((next_ c1 = n1 ∧ evictions_ c1 = evictions_ c
          ∧ ∀ victim, line_at (sets_ c) s w = Some victim →
                      valid victim && dirty victim = false)
         ∨ ∃ victim rs cm,
             choose_victim s (with_next n1 (StatsMiss c)) = Some (w, cm)
             ∧ sets_ cm = sets_ c ∧ next_ cm = next_ c1
             ∧ line_at (sets_ c) s w = Some victim
             ∧ valid victim = true ∧ dirty victim = true
             ∧ Store (evict_addr_of Sets BlockSize (tag victim) s) n1
               = Some (rs, next_ c1)
             ∧ evictions_ c1 = wrap64 (evictions_ c + 1))).
  { intros s t n1 c1 Hsr Hfill.
    apply Fill_next in Hfill
      as (w & Hw & Hupd & _ & _ & [Hquiet|(victim & rs & cm & _ & Hch & _ & Hsets & Hnx & Hl & Hv & Hd & Hst & Hev)]);
      [| |done..]; exists w; (split; [done|]); (split; [done|]); [by left|].
    right. exists victim, rs, cm. split_done. }
  destruct op; simpl in Hacc.
  - apply Cache_Load_inv in Hacc
      as (s & t & Hs' & Ht & [(w & Hfw & _ & ->)|(Hmiss & rn & n & Hn & _ & Hfill)]);
      rewrite Hsi in Hs'; injection Hs' as <-;
      eexists _, t; (split; [done|]); (split; [done|]); (split; [done|]).
    + left. exists w. split; [done|]. split; [done|]. split; [done|]. by left.
    + right. split; [done|].
      destruct (Hfill_cases _ t n c' Hs Hfill) as (w & Hw & Hupd & Hnx).
      exists rn, n, w, (sets_ c'). split; [done|]. split; [done|]. split; [done|].
      split; [by left|done].
  - apply Cache_Store_inv in Hacc
      as (s & t & Hs' & Ht & [(w & sets' & Hfw & Hupd & _ & ->)
                             |(Hmiss & rn & n & c1 & Hn & _ & Hfill & Hdirty)]);
      rewrite Hsi in Hs'; injection Hs' as <-;
      eexists _, t; (split; [done|]); (split; [done|]); (split; [done|]).
    + left. exists w. split; [done|]. split; [done|]. split; [done|]. by right.
    + right. split; [done|].
      destruct (Hfill_cases _ t n c1 Hs Hfill) as (w & Hw & Hupd & Hnx).
      apply dirty_filled_inv in Hdirty as (Hn' & He' & Hsets').
      exists rn, n, w, (sets_ c1). split; [done|]. split; [done|]. split; [done|].
      split; [destruct Hsets' as [->|?]; [by left|by right]|].
      by rewrite Hn', He'.
Qed.
End AccessCases.

Section DirtyEviction.
Context {Name : string} {NextLayer : Type} `{!MemoryLevel NextLayer}.
Context {Sets Ways BlockSize : Z}.
Context {ReplacePolicy : Type} `{!Policy ReplacePolicy}.
Context {HitLatency : Z}.
Context (next_ok : NextLayer → Prop) `{!LevelSafe NextLayer next_ok}.
Context (Hgeo : geometry_ok Sets BlockSize).
Context (A : Z) (HA : in_u64 A).

Local Abbreviation cache := (Cache Name NextLayer Sets Ways BlockSize ReplacePolicy HitLatency).

Implicit Types (c : cache) (s t w addr : Z).

Local Abbreviation sA := ((A / BlockSize) mod Sets).
Local Abbreviation tA := (A / BlockSize / Sets).

Lemma holds_iff c : holds A c ↔ resident Ways (sets_ c) sA tA.
Proof.
  unfold holds. rewrite (set_index_eq _ _ Hgeo), (tag_of_eq _ _ Hgeo). split.
  - by intros (s & t & [= <-] & [= <-] & Hres).
  - intros Hres. by exists sA, tA.
Qed.

Lemma holds_dirty_iff c :
  holds_dirty A c ↔
  ∃ w l, 0 ≤ w < Ways ∧ line_at (sets_ c) sA w = Some l
         ∧ valid l = true ∧ dirty l = true ∧ tag l = tA.
Proof.
  unfold holds_dirty. rewrite (set_index_eq _ _ Hgeo), (tag_of_eq _ _ Hgeo). split.
  - intros (s & t & w & l & [= <-] & [= <-] & Hrest). by exists w, l.
  - intros (w & l & Hrest). by exists sA, tA, w, l.
Qed.

Lemma sA_range : 0 ≤ sA < Sets.
Proof. apply Z.mod_pos_bound, Hgeo. Qed.

(** A dirty line stays dirty under [mark_dirty] anywhere. *)
Lemma holds_dirty_mark_dirty sets s w sets' wA l :
  0 ≤ s → 0 ≤ w → 0 ≤ wA →
  update_line mark_dirty sets s w = Some sets' →
  line_at sets sA wA = Some l → valid l = true → dirty l = true →
  ∃ l', line_at sets' sA wA = Some l'
        ∧ valid l' = true ∧ dirty l' = true ∧ tag l' = tag l.
Proof.
  intros Hs Hw HwA Hupd Hl Hv Hd. pose proof sA_range as HsA.
  rewrite (line_at_update _ _ _ _ _ sA wA Hupd) by lia.
  destruct (decide (sA = s ∧ wA = w)) as [[<- <-]|_].
  - rewrite Hl. simpl. by exists (mark_dirty l).
  - by exists l.
Qed.

(** After [Store(A)], the line of [A] is in the cache and dirty. *)
Lemma Store_holds_dirty c r c' :
  cache_ok next_ok c → Store A c = Some (r, c') → holds_dirty A c'.
Proof.
  intros Hok Hstore. pose proof Hok as (Hcfg & Hshape & Hpol & Hnext).
  pose proof sA_range as HsA. apply holds_dirty_iff.
  apply Cache_Store_inv in Hstore
    as (s & t & Hs & Ht & [(w & sets' & Hfw & Hupd & _ & ->)
                          |(_ & rn & n & c1 & _ & _ & Hfill & Hdirty)]);
    rewrite (set_index_eq _ _ Hgeo) in Hs; rewrite (tag_of_eq _ _ Hgeo) in Ht;
    injection Hs as <-; injection Ht as <-.
  - apply find_way_hit in Hfw as (Hw & (l & Hl & Hv & Htag) & _).
    exists w, (mark_dirty l). split; [done|]. simpl.
    rewrite (line_at_update _ _ _ _ _ sA w Hupd) by lia.
    rewrite decide_True by done. rewrite Hl. split_done.
  - pose proof (Fill_installs sA tA (with_next n (StatsMiss c)) c1 Hpol HsA Hfill)
      as (w1 & l1 & _ & _ & Hupd1 & _).
    assert (Hshape1 : shape_ok Sets Ways (sets_ c1)) by by eapply update_line_shape.
    pose proof (Fill_resident sA tA (with_next n (StatsMiss c)) c1 Hpol HsA Hfill) as Hres.
    destruct (find_way_resident sA tA c1 Hshape1 HsA Hres) as [w Hfw1].
    destruct (dirty_filled_found sA tA c1 w c' ltac:(lia) Hfw1 Hdirty) as (_ & Hline & _).
    exists w, (mkLine true true tA). split; [by apply find_way_hit in Hfw1 as [? _]|].
    split_done.
Qed.

(** An access after which the line of [A] is still in the cache leaves it
    dirty. *)
Lemma access_keeps_dirty op addr c r c' :
  cache_ok next_ok c → tags_unique (sets_ c) → holds_dirty A c →
  access op addr c = Some (r, c') →
  holds A c' → holds_dirty A c'.
Proof.
  intros Hok Huniq (wA & lA & HwA & HlA & HvA & HdA & HtA)%holds_dirty_iff Hacc Hstill.
  apply holds_dirty_iff. apply holds_iff in Hstill. pose proof sA_range as HsA.
  apply (access_cases next_ok) in Hacc
    as (s & t & _ & _ & Hs & [(w & Hfw & _ & _ & Hsets)
                             |(Hmiss & rn & n1 & w & sets1 & _ & Hw & Hupd & Hsets & _)]);
    [| |done].
  - destruct Hsets as [->|Hupd]; [by exists wA, lA|].
    apply find_way_hit in Hfw as (Hw & _).
    destruct (holds_dirty_mark_dirty _ s w _ wA lA ltac:(lia) ltac:(lia) ltac:(lia)
                Hupd HlA HvA HdA) as (l' & Hl' & Hv' & Hd' & Ht').
    exists wA, l'. split; [done|]. split; [done|]. split; [done|]. split; [done|].
    congruence.
  - assert (Hkept : line_at sets1 sA wA = Some lA).
    { rewrite (line_at_update _ _ _ _ _ sA wA Hupd) by lia.
      destruct (decide (sA = s ∧ wA = w)) as [[<- <-]|_]; [exfalso|done].
      (* the overwritten way was the way of [A]: then [A] is gone *)
      apply find_way_miss in Hmiss as [Hnone _].
      destruct (Hnone wA HwA) as (l & Hl & Hm). rewrite HlA in Hl. injection Hl as <-.
      apply tag_match_false in Hm.
      assert (Hres1 : resident Ways sets1 sA tA).
      { destruct Hsets as [<-|(w' & Hw' & Hupd')]; [done|].
        apply (resident_mark_dirty Ways sets1 sA w' (sets_ c') sA tA); [lia..|done|done]. }
      destruct Hres1 as (w2 & l2 & Hw2 & Hl2 & Hv2 & Ht2).
      rewrite (line_at_update _ _ _ _ _ sA w2 Hupd) in Hl2 by lia.
      destruct (decide (sA = sA ∧ w2 = wA)) as [[_ ->]|Hne].
      - rewrite HlA in Hl2. simpl in Hl2. injection Hl2 as <-. simpl in Ht2.
        apply Hm. split; [done|]. congruence.
      - apply Hne. split; [done|].
        apply (tags_unique_line_at (sets_ c) sA w2 wA l2 lA); [done|lia..|done|done|done|done|].
        congruence. }
    destruct Hsets as [->|(w' & Hw' & Hupd')]; [by exists wA, lA|].
    destruct (holds_dirty_mark_dirty _ s w' _ wA lA ltac:(lia) ltac:(lia) ltac:(lia)
                Hupd' Hkept HvA HdA) as (l' & Hl' & Hv' & Hd' & Ht').
    exists wA, l'. split; [done|]. split; [done|]. split; [done|]. split; [done|].
    congruence.
Qed.

Lemma survives_dirty trace c c' :
  survives A trace c c' →
  cache_ok next_ok c → tags_unique (sets_ c) → holds_dirty A c →
  cache_ok next_ok c' ∧ tags_unique (sets_ c') ∧ holds_dirty A c'.
Proof.
  induction 1 as [c Hh|op a rest c r c1 c2 Hh Hacc Hrest IH]; intros Hok Huniq Hd; [done|].
  apply IH.
  - by eapply access_ok.
  - by eapply access_tags_unique.
  - eapply access_keeps_dirty; [done..|].
    by destruct Hrest.
Qed.

(** The access that removes the dirty line of [A] from the cache. *)
Lemma evicting_access op B c r c' :
  cache_ok next_ok c → holds_dirty A c →
  access op B c = Some (r, c') →
  ¬ holds A c' →
  ∃ rn n1 rs w cm,
    Load B (next_ c) = Some (rn, n1)
    ∧ choose_victim sA (with_next n1 (StatsMiss c)) = Some (w, cm)
    ∧ holds_dirty A cm
    ∧ next_ cm = next_ c'
    ∧ Store (block_base BlockSize A) n1 = Some (rs, next_ c')
    ∧ evictions_ c' = wrap64 (evictions_ c + 1).
Proof.
  intros Hok (wA & lA & HwA & HlA & HvA & HdA & HtA)%holds_dirty_iff Hacc Hgone.
  pose proof sA_range as HsA.
  assert (Hgone' : ¬ resident Ways (sets_ c') sA tA) by by rewrite <-holds_iff.
  apply (access_cases next_ok) in Hacc
    as (s & t & _ & _ & Hs & [(w & Hfw & _ & _ & Hsets)
                             |(Hmiss & rn & n1 & w & sets1 & Hn & Hw & Hupd & Hsets & Hnext)]);
    [| |done].
  - exfalso. apply Hgone'. destruct Hsets as [->|Hupd]; [by exists wA, lA|].
    apply find_way_hit in Hfw as (Hw & _).
    apply (resident_mark_dirty Ways (sets_ c) s w (sets_ c') sA tA); [lia..|done|].
    by exists wA, lA.
  - assert (Hplace : sA = s ∧ wA = w).
    { destruct (decide (sA = s ∧ wA = w)) as [|Hne]; [done|exfalso].
      apply Hgone'.
      assert (Hres1 : resident Ways sets1 sA tA).
      { exists wA, lA. split; [done|]. split; [|done].
        rewrite (line_at_update _ _ _ _ _ sA wA Hupd) by lia.
        by rewrite decide_False. }
      destruct Hsets as [->|(w' & Hw' & Hupd')]; [done|].
      by apply (resident_mark_dirty Ways sets1 s w' (sets_ c') sA tA); [lia..|done|]. }
    destruct Hplace as [<- <-].
    destruct Hnext as [(_ & _ & Hclean)|(victim & rs & cm & Hch & Hcm & Hnx & Hl & Hv & Hd & Hst & Hev)].
    { specialize (Hclean lA HlA). by rewrite HvA, HdA in Hclean. }
    rewrite HlA in Hl. injection Hl as <-.
    exists rn, n1, rs, wA, cm. split; [done|]. split; [done|].
    split; [apply holds_dirty_iff; exists wA, lA; by rewrite Hcm|].
    split; [done|]. split; [|done].
    rewrite <-(evict_addr_of_eq _ _ Hgeo A HA). by rewrite <-HtA.
Qed.

(** C2, as amended.  For parameters with [BlockSize * Sets < 2^64]: after
    [Store(A)], and after any accesses that leave the line of [A] in the
    cache, the access that removes it is a miss on the set of [A] which
    issues to the next level first the [Load] of its own address and then
    exactly one [Store], at the block-aligned base of [A] (which is [A] only
    when [A] is block aligned), counted as one eviction; when that [Store]
    has been issued the cache still holds the dirty line of [A], which is
    overwritten only afterwards. *)
Theorem dirty_line_written_back_once c0 r0 c1 pre c2 op B r c3 :
  cache_ok next_ok c0 → tags_unique (sets_ c0) →
  Store A c0 = Some (r0, c1) →
  survives A pre c1 c2 →
  access op B c2 = Some (r, c3) →
  ¬ holds A c3 →
  ∃ rn n1 rs w cm,
    Load B (next_ c2) = Some (rn, n1)
    ∧ choose_victim ((A / BlockSize) mod Sets) (with_next n1 (StatsMiss c2)) = Some (w, cm)
    ∧ holds_dirty A cm
    ∧ next_ cm = next_ c3
    ∧ Store (block_base BlockSize A) n1 = Some (rs, next_ c3)
    ∧ evictions_ c3 = wrap64 (evictions_ c2 + 1).
Proof.
  intros Hok0 Huniq0 Hstore Hpre Hacc Hgone.
  pose proof (access_ok next_ok kStore A c0 r0 c1 Hok0 Hstore) as Hok1.
  pose proof (access_tags_unique next_ok kStore A c0 r0 c1 Hok0 Huniq0 Hstore) as Huniq1.
  pose proof (Store_holds_dirty c0 r0 c1 Hok0 Hstore) as Hd1.
  destruct (survives_dirty pre c1 c2 Hpre Hok1 Huniq1 Hd1) as (Hok2 & _ & Hd2).
  by eapply evicting_access.
Qed.
End DirtyEviction.

(** ** The scenario, run *)

Lemma scenario_states :
  run [(kLoad, 0)] Scenario.start
    = Some ([mkResult "MainMemory" 101], Scenario.warm)
  ∧ run [(kStore, 5)] Scenario.start
    = Some ([mkResult "MainMemory" 101], Scenario.stored)
  ∧ run [(kLoad, 6)] Scenario.stored
    = Some ([mkResult "L1" 1], Scenario.reread)
  ∧ run [(kLoad, 0)] Scenario.reread
    = Some ([mkResult "MainMemory" 101], Scenario.evicted).
Proof. by vm_compute. Qed.

(** The scenario of the spec: cold miss, hit, clean eviction, and a dirty
    eviction with one write-back after the fetch of the missing block. *)
Lemma scenario_of_the_spec :
  ∃ c,
    run [(kLoad, 0); (kLoad, 0); (kLoad, 4); (kStore, 4); (kLoad, 0)] Scenario.start
    = Some ([mkResult "MainMemory" 101; mkResult "L1" 1; mkResult "MainMemory" 101;
             mkResult "L1" 1; mkResult "MainMemory" 101], c)
    ∧ calls (next_ c) = [(kLoad, 0); (kLoad, 4); (kLoad, 0); (kStore, 4)]
    ∧ evictions_ c = 1.
Proof. eexists. by vm_compute. Qed.

Lemma holds_stored : holds 5 Scenario.stored.
Proof.
  exists 0, 1. split; [done|]. split; [done|].
  exists 0, (mkLine true true 1). split; [lia|]. done.
Qed.

Lemma holds_reread : holds 5 Scenario.reread.
Proof.
  exists 0, 1. split; [done|]. split; [done|].
  exists 0, (mkLine true true 1). split; [lia|]. done.
Qed.

Lemma not_holds_evicted : ¬ holds 5 Scenario.evicted.
Proof.
  intros (s & t & Hs & Ht & w & l & Hw & Hl & Hv & Htag).
  vm_compute in Hs, Ht. injection Hs as <-. injection Ht as <-.
  assert (w = 0) as -> by lia. vm_compute in Hl. injection Hl as <-.
  discriminate Htag.
Qed.

Lemma dirty_line_written_back_once_witness :
  ∃ rn n1 rs,
    Load 0 (next_ Scenario.reread) = Some (rn, n1)
    ∧ Store 4 n1 = Some (rs, next_ Scenario.evicted)
    ∧ evictions_ Scenario.evicted = 1.
Proof.
  destruct (dirty_line_written_back_once
              (LevelSafe0 := Probe_safe (λ m : MainMemory "MainMemory", in_u64 (latency_ m)))
              _ (Sets := 1) (BlockSize := 4) ltac:(unfold geometry_ok; lia)
              5 ltac:(unfold in_u64; lia)
              Scenario.start (mkResult "MainMemory" 101) Scenario.stored
              [(kLoad, 6)] Scenario.reread kLoad 0
              (mkResult "MainMemory" 101) Scenario.evicted)
    as (rn & n1 & rs & w & cm & Hload & _ & _ & _ & Hstore & Hev).
  - apply scenario_start_ok.
  - apply tags_unique_new.
  - reflexivity.
  - apply (survives_cons 5 kLoad 6 [] Scenario.stored (mkResult "L1" 1) Scenario.reread);
      [apply holds_stored|reflexivity|].
    apply survives_nil, holds_reread.
  - reflexivity.
  - apply not_holds_evicted.
  - exists rn, n1, rs. split; [exact Hload|]. split; [exact Hstore|exact Hev].
Defined.

(** C2 as stated fails for an address that is not block aligned: with
    [BlockSize = 4], [Store(5)] followed by [Load(0)], which evicts the line
    of 5, sends to the next level exactly one [Store], and it targets the
    base 4 of the block, not the address 5 that was stored. *)
Lemma write_back_targets_block_base :
  ∃ rs c,
    run [(kStore, 5); (kLoad, 0)] Scenario.start = Some (rs, c)
    ∧ lookup 5 c = Some None
    ∧ calls (next_ c) = [(kLoad, 5); (kLoad, 0); (kStore, 4)]
    ∧ block_base 4 5 = 4
    ∧ evictions_ c = 1.
Proof. eexists _, _. split; [by vm_compute|]. by vm_compute. Qed.

Lemma store_miss_write_allocates_witness :
  lookup 4 Scenario.start = Some None
  ∧ ∃ r c',
      Store 4 Scenario.start = Some (r, c')
      ∧ hit_level r = "MainMemory" ∧ total_cycles r = 101
      ∧ misses_ c' = 1
      ∧ line_at (sets_ c') 0 0 = Some (mkLine true true 1)
      ∧ calls (next_ c') = [(kLoad, 4)].
Proof.
  split; [reflexivity|].
  destruct (store_miss_write_allocates
              (LevelSafe0 := Probe_safe (λ m : MainMemory "MainMemory", in_u64 (latency_ m)))
              _ 4 Scenario.start scenario_start_ok eq_refl)
    as (s & t & rn & n1 & r & c' & Hs & Ht & Hload & Hstore & Hname & Hcyc & Hmiss & _).
  exists r, c'. split; [exact Hstore|].
  vm_compute in Hload. injection Hload as <- <-.
  split; [exact Hname|]. split; [exact Hcyc|].
  vm_compute in Hstore. injection Hstore as <- <-. done.
Defined.

(** Seen from a probe below the cache: the access that evicts the dirty line
    of an address adds two calls to the log, the [Load] of its own address
    and the [Store] at the base of the evicted block. *)
Lemma evicting_access_calls {Name : string} {Inner : Type} `{!MemoryLevel Inner}
    {Sets Ways BlockSize : Z} {ReplacePolicy : Type} `{!Policy ReplacePolicy}
    {HitLatency : Z} (ok : Inner → Prop)
    (A : Z) op B r
    (c c' : Cache Name (Probe Inner) Sets Ways BlockSize ReplacePolicy HitLatency) :
  geometry_ok Sets BlockSize → in_u64 A →
  cache_ok (λ p, ok (inner p)) c → holds_dirty A c →
  access op B c = Some (r, c') →
  ¬ holds A c' →
  calls (next_ c') = calls (next_ c) ++ [(kLoad, B); (kStore, block_base BlockSize A)].
Proof.
  intros Hgeo HA Hok Hdirty Hacc Hgone.
  destruct (evicting_access _ Hgeo A HA op B c r c'
              Hok Hdirty Hacc Hgone)
    as (rn & n1 & rs & w & cm & Hload & _ & _ & _ & Hstore & _).
  simpl in Hload, Hstore.
  destruct (Load B (inner (next_ c))) as [[r1 i1]|]; simpl in Hload; [|done].
  injection Hload as <- <-. simpl in Hstore.
  destruct (Store (block_base BlockSize A) i1) as [[r2 i2]|]; simpl in Hstore; [|done].
  injection Hstore as <- <-. simpl. by rewrite <-app_assoc.
Qed.

(** * Further properties *)

(** ** Blocks and lines *)

(** X1.  For parameters with [BlockSize * Sets < 2^64], two addresses have
    the same set index and the same tag exactly when they lie in the same
    block: a tag match in a set never confuses two blocks, and all addresses
    of one block share one line. *)
Theorem same_line_iff_same_block (Sets BlockSize a b : Z) :
  geometry_ok Sets BlockSize →
  (set_index Sets BlockSize a = set_index Sets BlockSize b
   ∧ tag_of Sets BlockSize a = tag_of Sets BlockSize b)
  ↔ a / BlockSize = b / BlockSize.
Proof.
  intros Hgeo. rewrite !(set_index_eq _ _ Hgeo), !(tag_of_eq _ _ Hgeo).
  destruct Hgeo as (HS & _). split.
  - intros [[= Hmod] [= Hdiv]].
    rewrite (Z.div_mod (a / BlockSize) Sets), (Z.div_mod (b / BlockSize) Sets) by lia.
    by rewrite Hmod, Hdiv.
  - by intros ->.
Qed.

Lemma same_line_iff_same_block_witness :
  (set_index 4 64 1000 = set_index 4 64 1023 ∧ tag_of 4 64 1000 = tag_of 4 64 1023)
  ↔ 1000 / 64 = 1023 / 64.
Proof.
  apply (same_line_iff_same_block 4 64 1000 1023). unfold geometry_ok. lia.
Defined.

(** ** The anatomy of one access *)

(** The list-level reading of [update_line]. *)
Lemma update_line_lookup f sets s w sets' (i j : nat) :
  update_line f sets s w = Some sets' →
  (sets' !! i ≫= (.!! j))
  = if decide (i = Z.to_nat s ∧ j = Z.to_nat w)
    then f <$> (sets !! i ≫= (.!! j))
    else sets !! i ≫= (.!! j).
Proof.
  intros (row & l & Hrow & Hl & ->)%update_line_inv.
  assert (Hs : (Z.to_nat s < length sets)%nat) by by eapply lookup_lt_Some.
  assert (Hw : (Z.to_nat w < length row)%nat) by by eapply lookup_lt_Some.
  destruct (decide (i = Z.to_nat s ∧ j = Z.to_nat w)) as [[-> ->]|Hne].
  - rewrite list_lookup_insert_eq by done. simpl.
    rewrite list_lookup_insert_eq by done. by rewrite Hrow; simpl; rewrite Hl.
  - destruct (decide (i = Z.to_nat s)) as [->|Hi].
    + rewrite list_lookup_insert_eq by done. rewrite Hrow. simpl.
      apply list_lookup_insert_ne. intros <-. by apply Hne.
    + by rewrite list_lookup_insert_ne by done.
Qed.

Section Anatomy.
Context {Name : string} {NextLayer : Type} `{!MemoryLevel NextLayer}.
Context {Sets Ways BlockSize : Z}.
Context {ReplacePolicy : Type} `{!Policy ReplacePolicy}.
Context {HitLatency : Z}.

Local Abbreviation cache := (Cache Name NextLayer Sets Ways BlockSize ReplacePolicy HitLatency).

Implicit Types (c : cache) (s t w addr : Z).

(** Everything [Fill] does, for a cache that a miss has already counted. *)
Lemma Fill_anatomy s t c c1 :
  Fill s t c = Some c1 →
  ∃ w,
    update_line (install t) (sets_ c) s w = Some (sets_ c1)
    ∧ hits_ c1 = hits_ c ∧ misses_ c1 = misses_ c
    ∧ ((0 ≤ w < Ways
        ∧ (∃ l, line_at (sets_ c) s w = Some l ∧ valid l = false)
        ∧ next_ c1 = next_ c ∧ evictions_ c1 = evictions_ c
        ∧ policy_ c1 = OnFill s w (policy_ c))
       ∨ ((∀ w', 0 ≤ w' < Ways → ∃ l, line_at (sets_ c) s w' = Some l ∧ valid l = true)
          ∧ ∃ p victim,
              GetVictim s (policy_ c) = (w, p)
              ∧ line_at (sets_ c) s w = Some victim
              ∧ policy_ c1 = OnFill s w p
              ∧ ((valid victim && dirty victim = false
                  ∧ next_ c1 = next_ c ∧ evictions_ c1 = evictions_ c)
                 ∨ (valid victim = true ∧ dirty victim = true
                    ∧ evictions_ c1 = wrap64 (evictions_ c + 1)
                    ∧ ∃ rs, Store (evict_addr_of Sets BlockSize (tag victim) s) (next_ c)
                            = Some (rs, next_ c1))))).
Proof.
  intros (w & c0 & Hchoice & Hover)%Fill_inv. exists w.
  apply overwrite_inv in Hover as (sets' & Hupd & ->). simpl.
  destruct Hchoice as [(Hw & Hinv & _ & ->)|[Hfull Hch]].
  - split; [done|]. split; [done|]. split; [done|]. left. split_done.
  - apply choose_victim_inv in Hch as (p & victim & Hget & Hl & Hc0).
    destruct Hc0 as [[Hclean ->]|(Hv & Hd & rs & n & Hst & ->)]; simpl in *;
      (split; [done|]); (split; [done|]); (split; [done|]); right;
      (split; [done|]); exists p, victim; (split; [done|]); (split; [done|]);
      (split; [done|]).
    + left. split_done.
    + right. split; [done|]. split; [done|]. split; [done|]. by exists rs.
Qed.

(** The last loop of [Store], taken apart. *)
Lemma dirty_filled_anatomy s t c1 c' :
  dirty_filled s t c1 = Some c' →
  next_ c' = next_ c1 ∧ policy_ c' = policy_ c1
  ∧ hits_ c' = hits_ c1 ∧ misses_ c' = misses_ c1 ∧ evictions_ c' = evictions_ c1
  ∧ ((∃ w l, find_way s t c1 = Some (Some w)
             ∧ line_at (sets_ c1) s w = Some l ∧ valid l = true ∧ tag l = t
             ∧ update_line mark_dirty (sets_ c1) s w = Some (sets_ c'))
     ∨ (find_way s t c1 = Some None ∧ sets_ c' = sets_ c1)).
Proof.
  unfold dirty_filled.
  destruct (find_way s t c1) as [[w|]|] eqn:Hfw; simpl; [| |done].
  - destruct (update_line mark_dirty (sets_ c1) s w) as [sets'|] eqn:Hupd; simpl; [|done].
    intros [= <-]. simpl. do 5 (split; [done|]). left.
    apply find_way_hit in Hfw as Hhit. destruct Hhit as (_ & (l & Hl & Hv & Ht) & _).
    exists w, l. split_done.
  - intros [= <-]. do 5 (split; [done|]). by right.
Qed.

(** One access, whole: a hit, or a miss with its fill. *)
Lemma access_anatomy op addr c r c' :
  access op addr c = Some (r, c') →
  ∃ s t,
    set_index Sets BlockSize addr = Some s ∧ tag_of Sets BlockSize addr = Some t
    ∧ ((∃ w l,
          find_way s t c = Some (Some w)
          ∧ line_at (sets_ c) s w = Some l ∧ valid l = true ∧ tag l = t
          ∧ r = mkResult Name HitLatency
          ∧ hits_ c' = wrap64 (hits_ c + 1) ∧ misses_ c' = misses_ c
          ∧ evictions_ c' = evictions_ c
          ∧ next_ c' = next_ c
          ∧ policy_ c' = OnHit s w (policy_ c)
          ∧ match op with
            | kLoad => sets_ c' = sets_ c
            | kStore => update_line mark_dirty (sets_ c) s w = Some (sets_ c')
            end)
       ∨ (find_way s t c = Some None
          ∧ ∃ rn n1 c1,
              Load addr (next_ c) = Some (rn, n1)
              ∧ r = mkResult (hit_level rn) (wrap64 (total_cycles rn + HitLatency))
              ∧ Fill s t (with_next n1 (StatsMiss c)) = Some c1
              ∧ hits_ c' = hits_ c ∧ misses_ c' = wrap64 (misses_ c + 1)
              ∧ evictions_ c' = evictions_ c1
              ∧ next_ c' = next_ c1
              ∧ policy_ c' = policy_ c1
              ∧ match op with
                | kLoad => sets_ c' = sets_ c1
                | kStore =>
                    (∃ w l, find_way s t c1 = Some (Some w)
                            ∧ line_at (sets_ c1) s w = Some l
                            ∧ valid l = true ∧ tag l = t
                            ∧ update_line mark_dirty (sets_ c1) s w = Some (sets_ c'))
                    ∨ (find_way s t c1 = Some None ∧ sets_ c' = sets_ c1)
                end)).
Proof.
  destruct op; simpl.
  - intros (s & t & Hs & Ht & [(w & Hfw & -> & ->)|(Hmiss & rn & n & Hn & -> & Hfill)])%Cache_Load_inv;
      exists s, t; (split; [done|]); (split; [done|]).
    + left. apply find_way_hit in Hfw as Hhit.
      destruct Hhit as (_ & (l & Hl & Hv & Htag) & _). exists w, l. split_done.
    + right. split; [done|]. exists rn, n, c'.
      apply Fill_anatomy in Hfill as Hf. destruct Hf as (w & _ & Hh & Hm & _).
      split_done.
  - intros (s & t & Hs & Ht & [(w & sets' & Hfw & Hupd & -> & ->)
                              |(Hmiss & rn & n & c1 & Hn & -> & Hfill & Hdirty)])%Cache_Store_inv;
      exists s, t; (split; [done|]); (split; [done|]).
    + left. apply find_way_hit in Hfw as Hhit.
      destruct Hhit as (_ & (l & Hl & Hv & Htag) & _). exists w, l. split_done.
    + right. split; [done|]. exists rn, n, c1.
      apply Fill_anatomy in Hfill as Hf. destruct Hf as (w & _ & Hh & Hm & _).
      apply dirty_filled_anatomy in Hdirty as (Hn' & Hp' & Hh' & Hm' & He' & Hsets).
      split; [done|]. split; [done|]. split; [done|].
      split; [by rewrite Hh', Hh|]. split; [by rewrite Hm', Hm|]. split_done.
Qed.
End Anatomy.

(** ** What an access does to the lines *)

Lemma line_at_update_gen f sets s w sets' s' w' :
  update_line f sets s w = Some sets' →
  line_at sets' s' w'
  = if decide (Z.to_nat s' = Z.to_nat s ∧ Z.to_nat w' = Z.to_nat w)
    then f <$> line_at sets s' w'
    else line_at sets s' w'.
Proof. intros Hupd. unfold line_at. by apply update_line_lookup. Qed.

Lemma lines_ok_update f sets s w sets' :
  update_line f sets s w = Some sets' →
  (∀ l, line_at sets s w = Some l → line_ok (f l)) →
  lines_ok sets → lines_ok sets'.
Proof.
  intros Hupd Hf Hok. pose proof Hupd as (row & l & Hrow & Hl & ->)%update_line_inv.
  apply Forall_insert; [done|]. apply Forall_insert.
  - by apply (Forall_lookup_1 _ _ _ _ Hok Hrow).
  - apply Hf. apply line_at_Some. eauto.
Qed.

Lemma lines_ok_new Sets Ways :
  lines_ok (replicate (Z.to_nat Sets) (replicate (Z.to_nat Ways) empty_line)).
Proof. apply Forall_replicate, Forall_replicate. by intros ?. Qed.

Section LineEffects.
Context {Name : string} {NextLayer : Type} `{!MemoryLevel NextLayer}.
Context {Sets Ways BlockSize : Z}.
Context {ReplacePolicy : Type} `{!Policy ReplacePolicy}.
Context {HitLatency : Z}.

Local Abbreviation cache := (Cache Name NextLayer Sets Ways BlockSize ReplacePolicy HitLatency).

Implicit Types (c : cache) (s t w addr : Z).

(** The lines after an access: as before; or with one valid line dirtied (a
    store that hits); or with one way overwritten by a clean valid line,
    which a store then dirties. *)
Lemma access_lines op addr c r c' :
  access op addr c = Some (r, c') →
  ∃ s t,
    set_index Sets BlockSize addr = Some s ∧ tag_of Sets BlockSize addr = Some t
    ∧ (sets_ c' = sets_ c
       ∨ (op = kStore
          ∧ ∃ w l, line_at (sets_ c) s w = Some l ∧ valid l = true
                   ∧ update_line mark_dirty (sets_ c) s w = Some (sets_ c'))
       ∨ ∃ w sets1,
           find_way s t c = Some None
           ∧ update_line (install t) (sets_ c) s w = Some sets1
           ∧ (sets_ c' = sets1
              ∨ (op = kStore
                 ∧ ∃ w' l', find_way s t (with_sets sets1 c) = Some (Some w')
                            ∧ line_at sets1 s w' = Some l' ∧ valid l' = true
                            ∧ update_line mark_dirty sets1 s w' = Some (sets_ c')))).
Proof.
  intros (s & t & Hs & Ht & Hcases)%access_anatomy. exists s, t.
  split; [done|]. split; [done|].
  destruct Hcases as [(w & l & _ & Hl & Hv & _ & _ & _ & _ & _ & _ & _ & Hsets)
                     |(Hmiss & rn & n1 & c1 & _ & _ & Hfill & _ & _ & _ & _ & _ & Hsets)].
  - destruct op; [by left|]. right. left. split; [done|]. by exists w, l.
  - right. right. apply Fill_anatomy in Hfill as (w & Hupd & _). simpl in Hupd.
    exists w, (sets_ c1). split; [done|]. split; [done|].
    destruct op; [by left|].
    destruct Hsets as [(w' & l' & Hfw & Hl' & Hv' & _ & Hupd')|[_ ->]]; [|by left].
    right. split; [done|]. exists w', l'. split; [|done].
    by rewrite <-Hfw.
Qed.

Lemma access_lines_ok op addr c r c' :
  access op addr c = Some (r, c') → lines_ok (sets_ c) → lines_ok (sets_ c').
Proof.
  intros (s & t & _ & _ & Hcases)%access_lines Hok.
  assert (Hdirty : ∀ sets w l sets',
            lines_ok sets → line_at sets s w = Some l → valid l = true →
            update_line mark_dirty sets s w = Some sets' → lines_ok sets').
  { intros sets w l sets' Hsets Hl Hv Hupd.
    apply (lines_ok_update _ _ _ _ _ Hupd); [|done].
    intros l0 Hl0 _. rewrite Hl in Hl0. by injection Hl0 as <-. }
  destruct Hcases as [->|[(_ & w & l & Hl & Hv & Hupd)|(w & sets1 & _ & Hupd & Hrest)]];
    [done|by eapply Hdirty|].
  assert (Hok1 : lines_ok sets1).
  { apply (lines_ok_update _ _ _ _ _ Hupd); [|done]. by intros l _ ?. }
  destruct Hrest as [->|(_ & w' & l' & _ & Hl' & Hv' & Hupd')]; [done|].
  by eapply Hdirty.
Qed.

(** X3.  No access ever clears a valid bit: a line that is valid before a
    [Load] or [Store] is valid after it, at the same set and way. *)
Theorem valid_lines_stay_valid op addr c r c' s w l :
  access op addr c = Some (r, c') →
  line_at (sets_ c) s w = Some l → valid l = true →
  ∃ l', line_at (sets_ c') s w = Some l' ∧ valid l' = true.
Proof.
  intros (s0 & t & _ & _ & Hcases)%access_lines Hl Hv.
  assert (Hstep : ∀ f sets w0 sets' l0,
            (∀ x, valid x = true → valid (f x) = true) →
            update_line f sets s0 w0 = Some sets' →
            line_at sets s w = Some l0 → valid l0 = true →
            ∃ l', line_at sets' s w = Some l' ∧ valid l' = true).
  { intros f sets w0 sets' l0 Hf Hupd Hl0 Hv0.
    rewrite (line_at_update_gen _ _ _ _ _ s w Hupd), Hl0.
    destruct (decide _); simpl; eauto. }
  destruct Hcases as [->|[(_ & w0 & l0 & _ & _ & Hupd)|(w0 & sets1 & _ & Hupd & Hrest)]];
    [by eauto|by eapply (Hstep mark_dirty)|].
  destruct (Hstep (install t) _ _ _ l ltac:(done) Hupd Hl Hv) as (l1 & Hl1 & Hv1).
  destruct Hrest as [->|(_ & w' & l' & _ & _ & _ & Hupd')]; [by eauto|].
  by eapply (Hstep mark_dirty).
Qed.

(** X4.  A [Load] never dirties a line of the level it is issued to: a line
    that is dirty after the load was there before it, unchanged. *)
Theorem load_dirties_nothing addr c r c' s w l' :
  Load addr c = Some (r, c') →
  line_at (sets_ c') s w = Some l' → dirty l' = true →
  line_at (sets_ c) s w = Some l'.
Proof.
  intros Hload Hl' Hd.
  apply (access_lines kLoad) in Hload as (s0 & t & _ & _ & Hcases).
  destruct Hcases as [Hsame|[(Hop & _)|(w0 & sets1 & _ & Hupd & Hrest)]];
    [by rewrite <-Hsame|done|].
  destruct Hrest as [Hsets|(Hop & _)]; [|done].
  rewrite Hsets, (line_at_update_gen _ _ _ _ _ s w Hupd) in Hl'.
  destruct (decide _); [|done].
  destruct (line_at (sets_ c) s w); simpl in Hl'; [|done].
  injection Hl' as <-. done.
Qed.
End LineEffects.

Lemma valid_lines_stay_valid_witness :
  access kLoad 0 Scenario.reread = Some (mkResult "MainMemory" 101, Scenario.evicted)
  ∧ line_at (sets_ Scenario.reread) 0 0 = Some (mkLine true true 1)
  ∧ ∃ l', line_at (sets_ Scenario.evicted) 0 0 = Some l' ∧ valid l' = true.
Proof.
  assert (Hacc : access kLoad 0 Scenario.reread
                 = Some (mkResult "MainMemory" 101, Scenario.evicted))
    by (vm_compute; reflexivity).
  split; [exact Hacc|]. split; [reflexivity|].
  exact (valid_lines_stay_valid kLoad 0 Scenario.reread _ Scenario.evicted 0 0
           (mkLine true true 1) Hacc eq_refl eq_refl).
Defined.

Lemma load_dirties_nothing_witness :
  Load 6 Scenario.stored = Some (mkResult "L1" 1, Scenario.reread)
  ∧ line_at (sets_ Scenario.reread) 0 0 = Some (mkLine true true 1)
  ∧ line_at (sets_ Scenario.stored) 0 0 = Some (mkLine true true 1).
Proof.
  assert (Hload : Load 6 Scenario.stored = Some (mkResult "L1" 1, Scenario.reread))
    by (vm_compute; reflexivity).
  split; [exact Hload|]. split; [reflexivity|].
  exact (load_dirties_nothing 6 Scenario.stored _ Scenario.reread 0 0
           (mkLine true true 1) Hload eq_refl eq_refl).
Defined.

(** ** Dirty lines are valid *)

Section NextKeeps.
Context {Name : string} {NextLayer : Type} `{!MemoryLevel NextLayer}.
Context {Sets Ways BlockSize : Z}.
Context {ReplacePolicy : Type} `{!Policy ReplacePolicy}.
Context {HitLatency : Z}.
Context (next_inv : NextLayer → Prop).
Context (next_keeps : ∀ op a n r n',
           next_inv n → access op a n = Some (r, n') → next_inv n').

Local Abbreviation cache := (Cache Name NextLayer Sets Ways BlockSize ReplacePolicy HitLatency).

(** Whatever the accesses of the next level keep, the accesses of this level
    keep for the next level. *)
Lemma access_next_keeps op addr (c : cache) r c' :
  access op addr c = Some (r, c') → next_inv (next_ c) → next_inv (next_ c').
Proof.
  intros (s & t & _ & _ & Hcases)%access_anatomy Hnext.
  destruct Hcases as [(w & l & _ & _ & _ & _ & _ & _ & _ & _ & -> & _)
                     |(_ & rn & n1 & c1 & Hn & _ & Hfill & _ & _ & _ & -> & _)]; [done|].
  apply (next_keeps kLoad) in Hn; [|done].
  apply Fill_anatomy in Hfill
    as (w & _ & _ & _ & [(_ & _ & -> & _)
                        |(_ & p & victim & _ & _ & _ & [(_ & -> & _)|(_ & _ & _ & rs & Hst)])]);
    [done|done|].
  by apply (next_keeps kStore) in Hst.
Qed.
End NextKeeps.

Lemma chain_new_lines_ok {T : Type} (c : Chain T) lat : chain_lines_ok c (chain_new c lat).
Proof.
  induction c as [Name|Name NextLayer next IH Sets Ways BlockSize RP pol HitLatency];
    simpl; [done|].
  split; [apply lines_ok_new|apply IH].
Qed.

Lemma chain_access_lines_ok {T : Type} (c : Chain T) op addr st r st' :
  chain_lines_ok c st →
  @access T (chain_level c) op addr st = Some (r, st') →
  chain_lines_ok c st'.
Proof.
  revert op addr st r st'.
  induction c as [Name|Name NextLayer next IH Sets Ways BlockSize RP pol HitLatency];
    intros op addr st r st' Hok Hacc; [done|].
  simpl in *. destruct Hok as [Hlines Hnext]. split.
  - by eapply (access_lines_ok (MemoryLevel0 := chain_level next)).
  - eapply (access_next_keeps (MemoryLevel0 := chain_level next)); [|done..].
    intros op' a n r' n'. apply IH.
Qed.

(** X2.  At every cache level of a hierarchy, a dirty line is valid: this
    holds of the constructed hierarchy, and every [Load] and [Store] that
    returns preserves it, at all levels at once. *)
Theorem dirty_lines_are_valid {T : Type} (c : Chain T) :
  (∀ lat, chain_lines_ok c (chain_new c lat))
  ∧ (∀ trace st rs st',
        chain_lines_ok c st →
        @run T (chain_level c) trace st = Some (rs, st') →
        chain_lines_ok c st').
Proof.
  split; [apply chain_new_lines_ok|].
  induction trace as [|[op addr] rest IH]; intros st rs st' Hok; simpl.
  - by intros [= _ <-].
  - destruct (access op addr st) as [[r st1]|] eqn:Hacc; simpl; [|done].
    destruct (run rest st1) as [[rs1 st2]|] eqn:Hrun; simpl; [|done].
    intros [= _ <-]. apply (IH st1 rs1 st2); [|done].
    by eapply chain_access_lines_ok.
Qed.

Lemma dirty_lines_are_valid_witness :
  ∃ rs st',
    @run _ (chain_level Examples.two_level) [(kStore, 64); (kLoad, 0); (kStore, 128)]
      (chain_new Examples.two_level 100) = Some (rs, st')
    ∧ chain_lines_ok Examples.two_level st'.
Proof.
  destruct (dirty_lines_are_valid Examples.two_level) as [Hnew Hrun].
  eexists _, _. split; [vm_compute; reflexivity|].
  eapply (Hrun [(kStore, 64); (kLoad, 0); (kStore, 128)]); [apply (Hnew 100)|].
  vm_compute; reflexivity.
Defined.

(** ** Counters *)

Lemma wrap64_add_r x y : wrap64 (x + wrap64 y) = wrap64 (x + y).
Proof. unfold wrap64. by rewrite Zplus_mod_idemp_r. Qed.

Lemma wrap64_idem x : wrap64 (wrap64 x) = wrap64 x.
Proof. unfold wrap64. apply Z.mod_mod. lia. Qed.

(** Equal modulo [2^64], transported along an addition. *)
Lemma wrap64_step x y z n :
  wrap64 x = wrap64 (y + n) → wrap64 y = wrap64 z → wrap64 x = wrap64 (z + n).
Proof.
  intros -> Hyz. by rewrite <-wrap64_add_l, Hyz, wrap64_add_l.
Qed.

Section Counters.
Context {Name : string} {NextLayer : Type} `{!MemoryLevel NextLayer}.
Context {Sets Ways BlockSize : Z}.
Context {ReplacePolicy : Type} `{!Policy ReplacePolicy}.
Context {HitLatency : Z}.

Local Abbreviation cache := (Cache Name NextLayer Sets Ways BlockSize ReplacePolicy HitLatency).

Lemma access_counted op addr (c : cache) r c' :
  access op addr c = Some (r, c') →
  wrap64 (hits_ c' + misses_ c') = wrap64 (hits_ c + misses_ c + 1).
Proof.
  intros (s & t & _ & _ & Hcases)%access_anatomy.
  destruct Hcases as [(w & l & _ & _ & _ & _ & _ & -> & -> & _)
                     |(_ & rn & n1 & c1 & _ & _ & _ & -> & -> & _)].
  - rewrite wrap64_add_l. f_equal. lia.
  - rewrite wrap64_add_r. f_equal. lia.
Qed.

(** X5.  Every access is counted once, as a hit or as a miss: over any
    sequence of accesses that a cache level serves, [hits_ + misses_] grows
    by the number of accesses, modulo [2^64]; an access counted as a hit
    leaves [misses_] alone, and conversely. *)
Theorem every_access_is_counted trace (c : cache) rs c' :
  run trace c = Some (rs, c') →
  wrap64 (hits_ c' + misses_ c')
  = wrap64 (hits_ c + misses_ c + Z.of_nat (length trace))
  ∧ (∀ op addr r c1,
       access op addr c = Some (r, c1) →
       (hits_ c1 = wrap64 (hits_ c + 1) ∧ misses_ c1 = misses_ c)
       ∨ (hits_ c1 = hits_ c ∧ misses_ c1 = wrap64 (misses_ c + 1))).
Proof.
  intros Hrun. split.
  - revert c rs c' Hrun. induction trace as [|[op addr] rest IH]; intros c rs c'; simpl.
    + intros [= _ <-]. f_equal. lia.
    + destruct (access op addr c) as [[r c1]|] eqn:Hacc; simpl; [|done].
      destruct (run rest c1) as [[rs1 c2]|] eqn:Hrun; simpl; [|done].
      intros [= _ <-]. apply IH in Hrun. apply access_counted in Hacc.
      rewrite (wrap64_step _ _ _ _ Hrun Hacc). f_equal. lia.
  - intros op addr r c1 (s & t & _ & _ & Hcases)%access_anatomy.
    destruct Hcases as [(w & l & _ & _ & _ & _ & _ & Hh & Hm & _)
                       |(_ & rn & n1 & c2 & _ & _ & _ & Hh & Hm & _)]; [by left|by right].
Qed.

End Counters.

Lemma every_access_is_counted_witness :
  ∃ rs c',
    run [(kLoad, 0); (kLoad, 0); (kLoad, 4); (kStore, 4); (kLoad, 0)] Scenario.start
    = Some (rs, c')
    ∧ wrap64 (hits_ c' + misses_ c') = 5.
Proof.
  eexists _, _. split; [vm_compute; reflexivity|].
  refine (proj1 (every_access_is_counted
            [(kLoad, 0); (kLoad, 0); (kLoad, 4); (kStore, 4); (kLoad, 0)]
            Scenario.start _ _ _)).
  vm_compute; reflexivity.
Defined.


(** ** Traffic to the next level *)

Lemma count_calls_app op log1 log2 :
  count_calls op (log1 ++ log2) = count_calls op log1 + count_calls op log2.
Proof. unfold count_calls. rewrite list.filter_app, length_app. lia. Qed.

Lemma count_calls_bounds op log : 0 ≤ count_calls op log ≤ Z.of_nat (length log).
Proof. unfold count_calls. pose proof (list.length_filter (λ call, call.1 = op) log). lia. Qed.

Section Traffic.
Context {Name : string} {Inner : Type} `{!MemoryLevel Inner}.
Context {Sets Ways BlockSize : Z}.
Context {ReplacePolicy : Type} `{!Policy ReplacePolicy}.
Context {HitLatency : Z}.

Local Abbreviation cache := (Cache Name (Probe Inner) Sets Ways BlockSize ReplacePolicy HitLatency).

Lemma Probe_Load_calls addr (p : Probe Inner) r p' :
  Load addr p = Some (r, p') → calls p' = calls p ++ [(kLoad, addr)].
Proof.
  simpl. destruct (Load addr (inner p)) as [[r1 i1]|]; simpl; [|done].
  by intros [= _ <-].
Qed.

Lemma Probe_Store_calls addr (p : Probe Inner) r p' :
  Store addr p = Some (r, p') → calls p' = calls p ++ [(kStore, addr)].
Proof.
  simpl. destruct (Store addr (inner p)) as [[r1 i1]|]; simpl; [|done].
  by intros [= _ <-].
Qed.

(** The calls one access adds to the log of the next level. *)
Lemma access_traffic op addr (c : cache) r c' :
  access op addr c = Some (r, c') →
  (calls (next_ c') = calls (next_ c)
   ∧ misses_ c' = misses_ c ∧ evictions_ c' = evictions_ c)
  ∨ (calls (next_ c') = calls (next_ c) ++ [(kLoad, addr)]
     ∧ misses_ c' = wrap64 (misses_ c + 1) ∧ evictions_ c' = evictions_ c)
  ∨ (∃ e, calls (next_ c') = calls (next_ c) ++ [(kLoad, addr); (kStore, e)]
          ∧ misses_ c' = wrap64 (misses_ c + 1)
          ∧ evictions_ c' = wrap64 (evictions_ c + 1)).
Proof.
  intros (s & t & _ & _ & Hcases)%access_anatomy.
  destruct Hcases as [(w & l & _ & _ & _ & _ & _ & _ & Hm & He & Hn & _)
                     |(_ & rn & n1 & c1 & Hn & _ & Hfill & _ & Hm & He & Hnx & _)].
  - left. by rewrite Hn.
  - right. apply Probe_Load_calls in Hn. rewrite Hnx, He.
    apply Fill_anatomy in Hfill
      as (w & _ & _ & _ & [(_ & _ & Hn1 & He1 & _)
                          |(_ & p & victim & _ & _ & _
                            & [(_ & Hn1 & He1)|(_ & _ & He1 & rs & Hst)])]);
      simpl in *.
    + left. by rewrite Hn1, He1, Hn.
    + left. by rewrite Hn1, He1, Hn.
    + right. apply Probe_Store_calls in Hst. eexists.
      rewrite Hst, Hn, He1, <-app_assoc. done.
Qed.

(** X6.  Seen from a probe below a cache level: over any sequence of
    accesses the level sends its next level one [Load] per miss and one
    [Store] per eviction and nothing else, so the calls added to the log are
    counted by the growth of [misses_] and [evictions_] (modulo [2^64]); there
    are never more stores than loads, nor more loads than accesses. *)
Theorem traffic_matches_counters trace (c : cache) rs c' :
  run trace c = Some (rs, c') →
  ∃ added,
    calls (next_ c') = calls (next_ c) ++ added
    ∧ wrap64 (misses_ c') = wrap64 (misses_ c + count_calls kLoad added)
    ∧ wrap64 (evictions_ c') = wrap64 (evictions_ c + count_calls kStore added)
    ∧ count_calls kLoad added + count_calls kStore added = Z.of_nat (length added)
    ∧ count_calls kStore added ≤ count_calls kLoad added ≤ Z.of_nat (length trace).
Proof.
  revert c rs c'. induction trace as [|[op addr] rest IH]; intros c rs c'; simpl.
  - intros [= _ <-]. exists []. rewrite app_nil_r.
    split; [done|]. split; [f_equal; unfold count_calls; simpl; lia|].
    split; [f_equal; unfold count_calls; simpl; lia|]. unfold count_calls; simpl; lia.
  - destruct (access op addr c) as [[r c1]|] eqn:Hacc; simpl; [|done].
    destruct (run rest c1) as [[rs1 c2]|] eqn:Hrun; simpl; [|done].
    intros [= _ <-].
    destruct (IH _ _ _ Hrun) as (added & Hcalls & Hm & He & Hsum & Hle).
    assert (Hfirst : ∃ first,
              calls (next_ c1) = calls (next_ c) ++ first
              ∧ wrap64 (misses_ c1) = wrap64 (misses_ c + count_calls kLoad first)
              ∧ wrap64 (evictions_ c1) = wrap64 (evictions_ c + count_calls kStore first)
              ∧ count_calls kLoad first + count_calls kStore first
                = Z.of_nat (length first)
              ∧ count_calls kStore first ≤ count_calls kLoad first ≤ 1).
    { apply access_traffic in Hacc
        as [(Hc & -> & ->)|[(Hc & -> & ->)|(e & Hc & -> & ->)]].
      - exists []. rewrite app_nil_r. split; [done|].
        split; [f_equal; unfold count_calls; simpl; lia|]. split; [f_equal; unfold count_calls; simpl; lia|].
        unfold count_calls; simpl; lia.
      - exists [(kLoad, addr)]. split; [done|]. rewrite wrap64_idem.
        split; [done|]. split; [f_equal; unfold count_calls; simpl; lia|]. unfold count_calls; simpl; lia.
      - exists [(kLoad, addr); (kStore, e)]. split; [done|]. rewrite !wrap64_idem.
        split; [done|]. split; [done|]. unfold count_calls; simpl; lia. }
    destruct Hfirst as (first & Hcalls1 & Hm1 & He1 & Hsum1 & Hle1).
    exists (first ++ added). rewrite !count_calls_app, length_app.
    split; [by rewrite Hcalls, Hcalls1, app_assoc|].
    split; [rewrite (wrap64_step _ _ _ _ Hm Hm1); f_equal; lia|].
    split; [rewrite (wrap64_step _ _ _ _ He He1); f_equal; lia|].
    lia.
Qed.
End Traffic.

Lemma traffic_matches_counters_witness :
  ∃ rs c' added,
    run [(kLoad, 0); (kLoad, 0); (kLoad, 4); (kStore, 4); (kLoad, 0)] Scenario.start
    = Some (rs, c')
    ∧ calls (next_ c') = calls (next_ Scenario.start) ++ added
    ∧ wrap64 (misses_ c') = wrap64 (0 + count_calls kLoad added)
    ∧ wrap64 (evictions_ c') = wrap64 (0 + count_calls kStore added).
Proof.
  eexists _, _.
  assert (Hrun : run [(kLoad, 0); (kLoad, 0); (kLoad, 4); (kStore, 4); (kLoad, 0)]
                   Scenario.start
                 = Some ([mkResult "MainMemory" 101; mkResult "L1" 1;
                          mkResult "MainMemory" 101; mkResult "L1" 1;
                          mkResult "MainMemory" 101],
                         mkCache (mkProbe [(kLoad, 0); (kLoad, 4); (kLoad, 0); (kStore, 4)]
                                    (mkMainMemory 100))
                           [[mkLine true false 0]] (mkLRU [[0]]) 2 3 1))
    by (vm_compute; reflexivity).
  destruct (traffic_matches_counters _ _ _ _ Hrun) as (added & Hc & Hm & He & _).
  exists added. split; [exact Hrun|]. split; [exact Hc|]. split; [exact Hm|exact He].
Defined.

(** ** Frames *)

Lemma set_index_bounds Sets BlockSize addr s :
  0 < Sets → set_index Sets BlockSize addr = Some s → 0 ≤ s < Sets.
Proof.
  intros HS. unfold set_index, udiv, umod.
  destruct (decide (BlockSize = 0)); simpl; [done|].
  destruct (decide (Sets = 0)); [done|]. intros [= <-]. by apply Z.mod_pos_bound.
Qed.

Section Frames.
Context {Name : string} {NextLayer : Type} `{!MemoryLevel NextLayer}.
Context {Sets Ways BlockSize : Z}.
Context {ReplacePolicy : Type} `{!Policy ReplacePolicy}.
Context {HitLatency : Z}.

Local Abbreviation cache := (Cache Name NextLayer Sets Ways BlockSize ReplacePolicy HitLatency).

Implicit Types (c : cache) (s t w addr : Z).

(** X7.  A [Store] that hits returns the level's name and hit latency
    without calling the next level, and changes one thing in the lines: the
    line it hit becomes dirty, keeping its tag; every other line of every set
    is as before.  It counts one hit and notifies the policy of the hit. *)
Theorem store_hit_frame addr c w :
  0 < Sets →
  lookup addr c = Some (Some w) →
  ∃ s l c',
    set_index Sets BlockSize addr = Some s
    ∧ line_at (sets_ c) s w = Some l
    ∧ Store addr c = Some (mkResult Name HitLatency, c')
    ∧ next_ c' = next_ c
    ∧ line_at (sets_ c') s w = Some (mkLine true true (tag l))
    ∧ (∀ s' w', 0 ≤ s' → 0 ≤ w' → (s', w') ≠ (s, w) →
                line_at (sets_ c') s' w' = line_at (sets_ c) s' w')
    ∧ policy_ c' = OnHit s w (policy_ c)
    ∧ hits_ c' = wrap64 (hits_ c + 1)
    ∧ misses_ c' = misses_ c ∧ evictions_ c' = evictions_ c.
Proof.
  intros HS Hhit. destruct (Cache_Store_hit addr c w Hhit) as (c' & Hstore).
  pose proof Hhit as (s & t & Hs & Ht & Hfw)%lookup_inv.
  pose proof (set_index_bounds _ _ _ _ HS Hs) as Hsr.
  apply (access_anatomy kStore) in Hstore as Hana.
  destruct Hana as (s' & t' & Hs' & Ht' & Hcases).
  rewrite Hs in Hs'. injection Hs' as <-. rewrite Ht in Ht'. injection Ht' as <-.
  destruct Hcases as [(w' & l & Hfw' & Hl & Hv & Htag & _ & Hh & Hm & He & Hn & Hp & Hupd)
                     |(Hmiss & _)]; [|congruence].
  rewrite Hfw in Hfw'. injection Hfw' as <-.
  pose proof Hfw as (Hw & _)%find_way_hit.
  exists s, l, c'. split; [done|]. split; [done|]. split; [done|]. split; [done|].
  split.
  { rewrite (line_at_update_gen _ _ _ _ _ s w Hupd), decide_True by done.
    rewrite Hl. simpl. unfold mark_dirty. by rewrite Hv. }
  split; [|done].
  intros s' w' Hs' Hw' Hne. rewrite (line_at_update_gen _ _ _ _ _ s' w' Hupd).
  rewrite decide_False; [done|]. intros [Hes Hew]. apply Hne. f_equal; lia.
Qed.

(** X8.  On a well-formed level, a [Load] or [Store] changes at most one
    line, a way of the set the address maps to: every line of every other
    set, and every other way of that set, is as before. *)
Theorem access_changes_one_line (next_ok : NextLayer → Prop) op addr c r c' :
  cache_ok next_ok c →
  access op addr c = Some (r, c') →
  ∃ s w0,
    set_index Sets BlockSize addr = Some s
    ∧ 0 ≤ s < Sets ∧ 0 ≤ w0 < Ways
    ∧ ∀ s' w', 0 ≤ s' → 0 ≤ w' → (s', w') ≠ (s, w0) →
               line_at (sets_ c') s' w' = line_at (sets_ c) s' w'.
Proof.
  intros (Hcfg & Hshape & Hpol & _) (s & t & Hs & Ht & Hcases)%access_anatomy.
  pose proof Hcfg as (HS & HW & _).
  pose proof (set_index_bounds _ _ _ _ HS Hs) as Hsr.
  assert (Hframe : ∀ f sets w sets' s' w',
            0 ≤ w → update_line f sets s w = Some sets' →
            0 ≤ s' → 0 ≤ w' → (s', w') ≠ (s, w) →
            line_at sets' s' w' = line_at sets s' w').
  { intros f sets w sets' s' w' Hw Hupd Hs' Hw' Hne.
    rewrite (line_at_update_gen _ _ _ _ _ s' w' Hupd).
    rewrite decide_False; [done|]. intros [Hes Hew]. apply Hne. f_equal; lia. }
  exists s.
  destruct Hcases as [(w & l & Hfw & _ & _ & _ & _ & _ & _ & _ & _ & _ & Hsets)
                     |(Hmiss & rn & n1 & c1 & _ & _ & Hfill & _ & _ & _ & _ & _ & Hsets)].
  - apply find_way_hit in Hfw as (Hw & _). exists w.
    split; [done|]. split; [done|]. split; [done|]. intros s' w' Hs' Hw' Hne.
    destruct op; [by rewrite Hsets|]. eapply Hframe; [| |done..]; [lia|done].
  - pose proof (Fill_installs s t (with_next n1 (StatsMiss c)) c1 Hpol Hsr Hfill)
      as (w & l & Hw & Hl & Hupd & _). simpl in Hl, Hupd.
    exists w. split; [done|]. split; [done|]. split; [done|].
    intros s' w' Hs' Hw' Hne.
    assert (H1 : line_at (sets_ c1) s' w' = line_at (sets_ c) s' w')
      by (eapply Hframe; [| |done..]; [lia|done]).
    destruct op; [by rewrite Hsets|].
    destruct Hsets as [(w2 & l2 & Hfw2 & Hl2 & Hv2 & Ht2 & Hupd2)|[_ ->]]; [|done].
    rewrite <-H1. pose proof Hfw2 as (Hw2 & _)%find_way_hit.
    assert (w2 = w) as ->.
    { destruct (decide (w2 = w)) as [|Hne2]; [done|exfalso].
      rewrite (line_at_update_gen _ _ _ _ _ s w2 Hupd) in Hl2.
      rewrite decide_False in Hl2 by lia.
      apply find_way_miss in Hmiss as [Hnone _].
      destruct (Hnone w2 Hw2) as (l3 & Hl3 & Hm3). rewrite Hl2 in Hl3.
      injection Hl3 as <-. apply tag_match_false in Hm3. by apply Hm3. }
    eapply Hframe; [| |done..]; [lia|done].
Qed.

(** X9.  For parameters with [BlockSize * Sets < 2^64] and a well-formed
    level: after a [Load] or [Store] of an address, a [Load] or [Store] of
    any address of the same block hits at this level; it returns the level's
    name and hit latency and leaves the next level untouched. *)
Theorem same_block_access_hits (next_ok : NextLayer → Prop)
    op A c r c' op' B :
  geometry_ok Sets BlockSize →
  cache_ok next_ok c →
  access op A c = Some (r, c') →
  B / BlockSize = A / BlockSize →
  ∃ w c'',
    lookup B c' = Some (Some w)
    ∧ access op' B c' = Some (mkResult Name HitLatency, c'')
    ∧ next_ c'' = next_ c'.
Proof.
  intros Hgeo Hok Hacc Hblock.
  destruct (access_resident next_ok op A c r c' Hok Hacc) as [w Hhit].
  assert (HhitB : lookup B c' = Some (Some w)).
  { revert Hhit. unfold lookup.
    rewrite !(set_index_eq _ _ Hgeo), !(tag_of_eq _ _ Hgeo). by rewrite Hblock. }
  exists w. destruct op'; simpl.
  - destruct (Cache_Load_hit B c' w HhitB) as (s & _ & Hload).
    eexists. split; [done|]. split; [exact Hload|done].
  - destruct (Cache_Store_hit B c' w HhitB) as (c'' & Hstore).
    exists c''. split; [done|]. split; [done|].
    apply (access_anatomy kStore) in Hstore as (s & t & Hs & Ht & Hcases).
    destruct Hcases as [(w' & l & _ & _ & _ & _ & _ & _ & _ & _ & Hn & _)
                       |(Hmiss & _)]; [done|].
    rewrite (lookup_intro B c' s t Hs Ht) in HhitB. congruence.
Qed.
End Frames.

Lemma store_hit_frame_witness :
  ∃ c', Store 2 Scenario.warm = Some (mkResult "L1" 1, c')
        ∧ next_ c' = next_ Scenario.warm
        ∧ line_at (sets_ c') 0 0 = Some (mkLine true true 0).
Proof.
  destruct (store_hit_frame 2 Scenario.warm 0 ltac:(lia) eq_refl)
    as (s & l & c' & Hs & Hl & Hstore & Hnext & Hline & _).
  exists c'. split; [exact Hstore|]. split; [exact Hnext|].
  vm_compute in Hs, Hl. injection Hs as <-. injection Hl as <-. exact Hline.
Defined.

Lemma access_changes_one_line_witness :
  ∃ r c' s w0,
    access kLoad 8 Examples.direct_start = Some (r, c')
    ∧ set_index 2 4 8 = Some s
    ∧ ∀ s' w', 0 ≤ s' → 0 ≤ w' → (s', w') ≠ (s, w0) →
               line_at (sets_ c') s' w' = line_at (sets_ Examples.direct_start) s' w'.
Proof.
  eexists _, _.
  assert (Hacc : access kLoad 8 Examples.direct_start
                 = Some (mkResult "MainMemory" 101,
                         mkCache (mkProbe [(kLoad, 8)] (mkMainMemory 100))
                           [[mkLine true false 1]; [mkLine false false 0]]
                           (mkLRU [[0]; [0]]) 0 1 0))
    by (vm_compute; reflexivity).
  destruct (access_changes_one_line
              (λ p : Probe (MainMemory "MainMemory"), in_u64 (latency_ (inner p)))
              kLoad 8 _ _ _ direct_start_ok Hacc)
    as (s & w0 & Hs & _ & _ & Hframe).
  exists s, w0. split; [exact Hacc|]. split; [exact Hs|exact Hframe].
Defined.

Lemma same_block_access_hits_witness :
  ∃ w c'', lookup 7 Scenario.stored = Some (Some w)
           ∧ access kLoad 7 Scenario.stored = Some (mkResult "L1" 1, c'')
           ∧ next_ c'' = next_ Scenario.stored.
Proof.
  apply (same_block_access_hits
           (λ p : Probe (MainMemory "MainMemory"), in_u64 (latency_ (inner p)))
           kStore 5 Scenario.start
           (mkResult "MainMemory" 101) Scenario.stored kLoad 7).
  - unfold geometry_ok. lia.
  - apply scenario_start_ok.
  - reflexivity.
  - reflexivity.
Defined.

(** ** What the policy is told *)

Section FillChoice.
Context {Name : string} {NextLayer : Type} `{!MemoryLevel NextLayer}.
Context {Sets Ways BlockSize : Z}.
Context {ReplacePolicy : Type} `{!Policy ReplacePolicy}.
Context {HitLatency : Z}.

Local Abbreviation cache := (Cache Name NextLayer Sets Ways BlockSize ReplacePolicy HitLatency).

(** The way [Fill] overwrites and what it tells the policy: the first
    invalid way of the set and [OnFill], or, when no way of the set is
    invalid, the way [GetVictim] names and then [OnFill]. *)
Lemma Fill_choice s t (c c1 : cache) :
  Fill s t c = Some c1 →
  ∃ w,
    update_line (install t) (sets_ c) s w = Some (sets_ c1)
    ∧ ((0 ≤ w < Ways
        ∧ (∃ l, line_at (sets_ c) s w = Some l ∧ valid l = false)
        ∧ (∀ w', 0 ≤ w' < w → ∃ l, line_at (sets_ c) s w' = Some l ∧ valid l = true)
        ∧ policy_ c1 = OnFill s w (policy_ c))
       ∨ ((∀ w', 0 ≤ w' < Ways → ∃ l, line_at (sets_ c) s w' = Some l ∧ valid l = true)
          ∧ policy_ c1 = OnFill s w (GetVictim s (policy_ c)).2
          ∧ w = (GetVictim s (policy_ c)).1)).
Proof.
  intros (w & c0 & Hchoice & Hover)%Fill_inv. exists w.
  apply overwrite_inv in Hover as (sets' & Hupd & ->). simpl.
  destruct Hchoice as [(Hw & Hinv & Hbefore & ->)|[Hfull Hch]].
  - split; [done|]. left. split_done.
  - apply choose_victim_inv in Hch as (p & victim & Hget & Hl & Hc0).
    rewrite Hget. simpl.
    destruct Hc0 as [[_ ->]|(_ & _ & rs & n & _ & ->)]; simpl in *;
      (split; [done|]); right; split_done.
Qed.
End FillChoice.

Section Notifications.
Context {Name : string} {NextLayer : Type} `{!MemoryLevel NextLayer}.
Context {Sets Ways BlockSize : Z}.
Context {P : Type} `{!Policy P}.
Context {HitLatency : Z}.

Local Abbreviation cache := (Cache Name NextLayer Sets Ways BlockSize (Notified P) HitLatency).

(** X10.  Every [Load] and [Store] tells the policy exactly one thing about
    the set of the address: [OnHit] with the way that hit; or, on a miss
    while the set has an invalid way, [OnFill] alone, with the first invalid
    way; or, on a miss while every way of the set is valid, one [GetVictim]
    and then [OnFill] with the way the policy named.  The way named holds the
    valid line of the address afterwards. *)
Theorem policy_is_notified_once op addr (c : cache) r c' :
  access op addr c = Some (r, c') →
  ∃ s t w,
    set_index Sets BlockSize addr = Some s ∧ tag_of Sets BlockSize addr = Some t
    ∧ (∃ l, line_at (sets_ c') s w = Some l ∧ valid l = true ∧ tag l = t)
    ∧ ((lookup addr c = Some (Some w)
        ∧ notifications (policy_ c') = notifications (policy_ c) ++ [CallOnHit s w])
       ∨ (lookup addr c = Some None
          ∧ ((notifications (policy_ c') = notifications (policy_ c) ++ [CallOnFill s w]
              ∧ 0 ≤ w < Ways
              ∧ (∃ l, line_at (sets_ c) s w = Some l ∧ valid l = false)
              ∧ (∀ w', 0 ≤ w' < w →
                       ∃ l, line_at (sets_ c) s w' = Some l ∧ valid l = true))
             ∨ (notifications (policy_ c')
                = notifications (policy_ c) ++ [CallGetVictim s; CallOnFill s w]
                ∧ (∀ w', 0 ≤ w' < Ways →
                         ∃ l, line_at (sets_ c) s w' = Some l ∧ valid l = true)
                ∧ w = (GetVictim s (notified (policy_ c))).1)))).
Proof.
  intros (s & t & Hs & Ht & Hcases)%access_anatomy.
  assert (Hkept : ∀ sets w0 sets' w l,
            update_line mark_dirty sets s w0 = Some sets' →
            line_at sets s w = Some l → valid l = true → tag l = t →
            ∃ l', line_at sets' s w = Some l' ∧ valid l' = true ∧ tag l' = t).
  { intros sets w0 sets' w l Hupd Hl Hv Htag.
    rewrite (line_at_update_gen _ _ _ _ _ s w Hupd), Hl.
    destruct (decide _); simpl; eauto. }
  exists s, t.
  destruct Hcases as [(w & l & Hfw & Hl & Hv & Htag & _ & _ & _ & _ & _ & Hp & Hsets)
                     |(Hmiss & rn & n1 & c1 & _ & _ & Hfill & _ & _ & _ & _ & Hp & Hsets)].
  - exists w. split; [done|]. split; [done|]. split.
    + destruct op; [rewrite Hsets; by eauto|by eapply Hkept].
    + left. rewrite (lookup_intro addr c s t Hs Ht). split; [done|]. by rewrite Hp.
  - apply Fill_choice in Hfill as (w & Hupd & Hchoice). simpl in Hupd, Hchoice.
    exists w. split; [done|]. split; [done|].
    assert (H1 : ∃ l, line_at (sets_ c1) s w = Some l ∧ valid l = true ∧ tag l = t).
    { rewrite (line_at_update_gen _ _ _ _ _ s w Hupd), decide_True by done.
      pose proof Hupd as (row & l0 & Hrow & Hl0 & _)%update_line_inv.
      unfold line_at. rewrite Hrow. simpl. rewrite Hl0. simpl. eauto. }
    split.
    { destruct H1 as (l1 & Hl1 & Hv1 & Ht1).
      destruct op; [rewrite Hsets; by eauto|].
      destruct Hsets as [(w2 & l2 & _ & _ & _ & _ & Hupd2)|[_ ->]]; [|by eauto].
      by eapply Hkept. }
    right. rewrite (lookup_intro addr c s t Hs Ht). split; [done|]. rewrite Hp.
    destruct Hchoice as [(Hw & Hinv & Hbefore & ->)|(Hfull & Hpol & Hvictim)].
    + left. split_done.
    + right. destruct (GetVictim s (notified (policy_ c))) as [v q].
      simpl in Hpol, Hvictim. rewrite Hpol. simpl.
      split; [by rewrite <-app_assoc|]. by split.
Qed.
End Notifications.

Lemma policy_is_notified_once_witness :
  access kLoad 4 Watched.warm = Some (mkResult "MainMemory" 101, Watched.refilled)
  ∧ ∃ s t w,
      set_index 1 4 4 = Some s ∧ tag_of 1 4 4 = Some t
      ∧ (∃ l, line_at (sets_ Watched.refilled) s w = Some l ∧ valid l = true ∧ tag l = t)
      ∧ ((lookup 4 Watched.warm = Some (Some w)
          ∧ notifications (policy_ Watched.refilled)
            = notifications (policy_ Watched.warm) ++ [CallOnHit s w])
         ∨ (lookup 4 Watched.warm = Some None
            ∧ ((notifications (policy_ Watched.refilled)
                = notifications (policy_ Watched.warm) ++ [CallOnFill s w]
                ∧ 0 ≤ w < 1
                ∧ (∃ l, line_at (sets_ Watched.warm) s w = Some l ∧ valid l = false)
                ∧ (∀ w', 0 ≤ w' < w →
                         ∃ l, line_at (sets_ Watched.warm) s w' = Some l
                              ∧ valid l = true))
               ∨ (notifications (policy_ Watched.refilled)
                  = notifications (policy_ Watched.warm)
                    ++ [CallGetVictim s; CallOnFill s w]
                  ∧ (∀ w', 0 ≤ w' < 1 →
                           ∃ l, line_at (sets_ Watched.warm) s w' = Some l
                                ∧ valid l = true)
                  ∧ w = (GetVictim s (notified (policy_ Watched.warm))).1)))).
Proof.
  assert (Hacc : access kLoad 4 Watched.warm
                 = Some (mkResult "MainMemory" 101, Watched.refilled))
    by (vm_compute; reflexivity).
  split; [exact Hacc|].
  exact (policy_is_notified_once kLoad 4 Watched.warm _ _ Hacc).
Defined.

(** ** The aggregated report *)

Lemma stats_at_insert (stats_db : gmap string CacheStats) k s k' :
  stats_at (<[k := s]> stats_db) k' = if decide (k = k') then s else stats_at stats_db k'.
Proof.
  unfold stats_at. destruct (decide (k = k')) as [->|Hne].
  - by rewrite lookup_insert_eq.
  - by rewrite lookup_insert_ne.
Qed.

Lemma attribute_found hierarchy res stats_db :
  (attribute hierarchy res stats_db).1 = bool_decide (hit_level res ∈ hierarchy).
Proof.
  revert stats_db. induction hierarchy as [|k rest IH]; intros stats_db; simpl.
  - done.
  - destruct (decide (k = hit_level res)) as [->|Hne]; simpl.
    + symmetry. apply bool_decide_eq_true. apply elem_of_cons. by left.
    + rewrite IH. apply bool_decide_ext. rewrite elem_of_cons.
      split; [by right|]. intros [?|?]; [congruence|done].
Qed.

Lemma attribute_absent hierarchy res stats_db k :
  k ∉ hierarchy →
  stats_at (attribute hierarchy res stats_db).2 k = stats_at stats_db k.
Proof.
  revert stats_db. induction hierarchy as [|x rest IH]; intros stats_db Hk; simpl; [done|].
  apply not_elem_of_cons in Hk as [Hkx Hrest].
  destruct (decide (x = hit_level res)); simpl.
  - unfold record_hit. rewrite stats_at_insert. by rewrite decide_False.
  - rewrite IH by done. unfold record_miss. rewrite stats_at_insert.
    by rewrite decide_False.
Qed.

(** One result, at the level in position [i] of a hierarchy of distinct
    names: a hit if the result names the level, nothing if it names a level
    above, and a miss otherwise. *)
Lemma attribute_stats hierarchy res stats_db i k :
  NoDup hierarchy → hierarchy !! i = Some k →
  stats_at (attribute hierarchy res stats_db).2 k
  = let s := stats_at stats_db k in
    if decide (hit_level res = k)
    then mkStats (wrap64 (hits s + 1)) (misses s)
           (wrap64 (total_latency s + total_cycles res))
    else if decide (hit_level res ∈ take i hierarchy) then s
    else mkStats (hits s) (wrap64 (misses s + 1)) (total_latency s).
Proof.
  revert stats_db i. induction hierarchy as [|x rest IH]; intros stats_db i Hnd Hi;
    [done|].
  apply NoDup_cons in Hnd as [Hx Hnd]. simpl. destruct i as [|i]; simpl in Hi.
  - injection Hi as ->. destruct (decide (k = hit_level res)) as [->|Hne]; simpl.
    + rewrite decide_True by done. unfold record_hit. rewrite stats_at_insert.
      by rewrite decide_True.
    + rewrite decide_False by done.
      rewrite attribute_absent by done. unfold record_miss.
      rewrite stats_at_insert. by rewrite decide_True.
  - assert (Hkx : x ≠ k).
    { intros ->. apply Hx. by eapply list_elem_of_lookup_2. }
    destruct (decide (x = hit_level res)) as [->|Hne]; simpl.
    + rewrite decide_False by done.
      rewrite decide_True by (apply elem_of_cons; by left).
      unfold record_hit. rewrite stats_at_insert. by rewrite decide_False.
    + rewrite (IH _ i Hnd Hi). simpl.
      assert (Hsame : stats_at (record_miss x stats_db) k = stats_at stats_db k).
      { unfold record_miss. rewrite stats_at_insert. by rewrite decide_False. }
      rewrite Hsame. destruct (decide (hit_level res = k)); [done|].
      destruct (decide (hit_level res ∈ take i rest)) as [Hin|Hnin].
      * by rewrite decide_True by (apply elem_of_cons; by right).
      * rewrite decide_False; [done|]. intros [?|?]%elem_of_cons; congruence.
Qed.

Lemma wrap64_range x : in_u64 (wrap64 x).
Proof. apply Z.mod_pos_bound. lia. Qed.

Local Abbreviation aggregate_step hierarchy :=
  (λ (acc : list string * gmap string CacheStats) (res : AccessResult),
     let '(found, stats_db) := attribute hierarchy res acc.2 in
     (if found then acc.1 else acc.1 ++ [hit_level res], stats_db)).

Lemma aggregate_step_errors hierarchy history acc :
  (foldl (aggregate_step hierarchy) acc history).1
  = acc.1 ++ (hit_level <$> filter (λ res, hit_level res ∉ hierarchy) history).
Proof.
  revert acc. induction history as [|res rest IH]; intros acc; simpl.
  - by rewrite app_nil_r.
  - rewrite IH. pose proof (attribute_found hierarchy res acc.2) as Hfound.
    destruct (attribute hierarchy res acc.2) as [found stats_db]. simpl in *. subst found.
    destruct (decide (hit_level res ∈ hierarchy)) as [Hin|Hnin].
    + rewrite bool_decide_eq_true_2 by done.
      by rewrite list.filter_cons_False by (by intros ?).
    + rewrite bool_decide_eq_false_2 by done.
      rewrite list.filter_cons_True by done. simpl. by rewrite <-app_assoc.
Qed.

Lemma aggregate_step_stats hierarchy history acc i k :
  NoDup hierarchy → hierarchy !! i = Some k →
  in_u64 (hits (stats_at acc.2 k)) → in_u64 (misses (stats_at acc.2 k)) →
  in_u64 (total_latency (stats_at acc.2 k)) →
  stats_at (foldl (aggregate_step hierarchy) acc history).2 k
  = mkStats
      (wrap64 (hits (stats_at acc.2 k) + Z.of_nat (length (hits_of k history))))
      (wrap64 (misses (stats_at acc.2 k)
               + Z.of_nat (length (filter (λ res, hit_level res ∉ take (S i) hierarchy)
                                     history))))
      (wrap64 (total_latency (stats_at acc.2 k) + cycles_of (hits_of k history))).
Proof.
  intros Hnd Hi. revert acc.
  assert (Htake : take (S i) hierarchy = take i hierarchy ++ [k])
    by by apply take_S_r.
  induction history as [|res rest IH]; intros acc Hh Hm Ht.
  - simpl. rewrite !Z.add_0_r, !wrap64_small by done. by destruct (stats_at acc.2 k).
  - simpl. pose proof (attribute_stats hierarchy res acc.2 i k Hnd Hi) as Hone.
    destruct (attribute hierarchy res acc.2) as [found stats_db]. simpl in Hone.
    set (acc1 := (if found then acc.1 else acc.1 ++ [hit_level res], stats_db)).
    change stats_db with acc1.2 in Hone. clearbody acc1. unfold hits_of in *.
    destruct (decide (hit_level res = k)) as [Hk|Hk].
    + rewrite IH by (rewrite Hone; simpl; done || apply wrap64_range).
      rewrite Hone. simpl.
      rewrite (list.filter_cons_True (λ res, hit_level res = k)) by done.
      rewrite (list.filter_cons_False (λ res, hit_level res ∉ take (S i) hierarchy)).
      2:{ intros Hnin. apply Hnin. rewrite Htake, Hk.
          apply elem_of_app. right. by apply list_elem_of_singleton. }
      simpl. rewrite !wrap64_add_l. f_equal; f_equal; lia.
    + rewrite (list.filter_cons_False (λ res, hit_level res = k)) by done.
      destruct (decide (hit_level res ∈ take i hierarchy)) as [Hin|Hnin].
      * rewrite IH by (by rewrite Hone). rewrite Hone.
        rewrite (list.filter_cons_False (λ res, hit_level res ∉ take (S i) hierarchy));
          [done|].
        intros Hnin. apply Hnin. rewrite Htake. apply elem_of_app. by left.
      * rewrite IH by (rewrite Hone; simpl; done || apply wrap64_range).
        rewrite Hone. simpl.
        rewrite (list.filter_cons_True (λ res, hit_level res ∉ take (S i) hierarchy)).
        2:{ rewrite Htake. intros [?|?%list_elem_of_singleton]%elem_of_app; done. }
        simpl. rewrite !wrap64_add_l. f_equal. f_equal. lia.
Qed.

(** X11.  For a hierarchy of distinct names, the row that
    [PrintSimulationStats] prints for the level in position [i] counts, modulo
    [2^64]: as hits the results that name this level, with the sum of their
    cycles as total latency; and as misses the results that name no level at
    or above this one, be it a level below or no level of the hierarchy. *)
Theorem report_row_counts history hierarchy i level_name :
  NoDup hierarchy → hierarchy !! i = Some level_name →
  table (PrintSimulationStats history hierarchy) !! i
  = Some (level_name,
          mkStats
            (wrap64 (Z.of_nat (length (hits_of level_name history))))
            (wrap64 (Z.of_nat (length (filter (λ res, hit_level res ∉ take (S i) hierarchy)
                                         history))))
            (wrap64 (cycles_of (hits_of level_name history)))).
Proof.
  intros Hnd Hi. unfold PrintSimulationStats.
  pose proof (aggregate_step_stats hierarchy history ([], ∅) i level_name Hnd Hi) as Hstats.
  unfold aggregate. destruct (foldl _ _ history) as [errs stats_db].
  simpl in *. rewrite list_lookup_fmap, Hi. simpl. f_equal. f_equal.
  rewrite Hstats by (by vm_compute).
  replace (stats_at ∅ level_name) with (mkStats 0 0 0) by done. simpl.
  f_equal; f_equal; lia.
Qed.

Lemma report_row_counts_witness :
  table (PrintSimulationStats
           [mkResult "MainMemory" 101; mkResult "L1" 1; mkResult "L2" 11; mkResult "L1" 1]
           ["L1"; "L2"; "MainMemory"]) !! 1%nat
  = Some ("L2", mkStats 1 1 11).
Proof.
  rewrite (report_row_counts _ ["L1"; "L2"; "MainMemory"] 1%nat "L2").
  - reflexivity.
  - by apply (bool_decide_unpack _).
  - reflexivity.
Defined.

(** X12.  [PrintSimulationStats] reports on [stderr] exactly the results
    whose [hit_level] is no name of the hierarchy, in the order of the
    history, and nothing when every result names a level. *)
Theorem report_errors history hierarchy :
  errors (PrintSimulationStats history hierarchy)
  = hit_level <$> filter (λ res, hit_level res ∉ hierarchy) history.
Proof.
  unfold PrintSimulationStats.
  pose proof (aggregate_step_errors hierarchy history ([], ∅)) as Herr.
  unfold aggregate. by destruct (foldl _ _ history) as [errs stats_db].
Qed.

(** ** Reporting a simulation *)

Lemma chain_run_level_names {T : Type} (c : Chain T) trace st rs st' :
  @run T (chain_level c) trace st = Some (rs, st') →
  Forall (λ r, hit_level r ∈ level_names c) rs.
Proof.
  revert st rs st'. induction trace as [|[op addr] rest IH]; intros st rs st'; simpl.
  - by intros [= <- _].
  - destruct (access op addr st) as [[r st1]|] eqn:Hacc; simpl; [|done].
    destruct (run rest st1) as [[rs1 st2]|] eqn:Hrun; simpl; [|done].
    intros [= <- _]. constructor; [by eapply chain_access_name|by eapply IH].
Qed.

(** X13.  The results of a simulation, reported against the level names of
    the hierarchy that produced them, raise no error: [PrintSimulationStats]
    finds the level of every result. *)
Theorem simulation_reports_no_error {T : Type} (c : Chain T) trace st rs st' :
  @run T (chain_level c) trace st = Some (rs, st') →
  errors (PrintSimulationStats rs (level_names c)) = [].
Proof.
  intros Hall%chain_run_level_names. unfold PrintSimulationStats.
  pose proof (aggregate_step_errors (level_names c) rs ([], ∅)) as Herr.
  unfold aggregate. destruct (foldl _ _ rs) as [errs stats_db]. simpl in *.
  rewrite Herr. clear Herr.
  induction Hall as [|r rs Hr Hall IH]; [done|].
  by rewrite list.filter_cons_False by (by intros ?).
Qed.

Lemma simulation_reports_no_error_witness :
  ∃ rs st',
    @run _ (chain_level Examples.two_level) [(kLoad, 0); (kStore, 64); (kLoad, 0)]
      (chain_new Examples.two_level 100) = Some (rs, st')
    ∧ errors (PrintSimulationStats rs ["L1"; "L2"; "MainMemory"]) = [].
Proof.
  assert (Hrun : ∃ rs st',
            @run _ (chain_level Examples.two_level)
              [(kLoad, 0); (kStore, 64); (kLoad, 0)]
              (chain_new Examples.two_level 100) = Some (rs, st'))
    by (eexists _, _; vm_compute; reflexivity).
  destruct Hrun as (rs & st' & Hrun). exists rs, st'. split; [exact Hrun|].
  exact (simulation_reports_no_error Examples.two_level _ _ _ _ Hrun).
Defined.

Section TopRow.
Context {Name : string} {NextLayer : Type} `{!MemoryLevel NextLayer}.
Context {Sets Ways BlockSize : Z}.
Context {ReplacePolicy : Type} `{!Policy ReplacePolicy}.
Context {HitLatency : Z}.
Context (next_names : ∀ a n rn n', Load a n = Some (rn, n') → hit_level rn ≠ Name).

Local Abbreviation cache := (Cache Name NextLayer Sets Ways BlockSize ReplacePolicy HitLatency).

(** When no level below carries the name of this level, its counters count
    the results by their [hit_level]. *)
Lemma run_counts_results trace (c : cache) rs c' :
  run trace c = Some (rs, c') →
  in_u64 (hits_ c) → in_u64 (misses_ c) →
  hits_ c' = wrap64 (hits_ c + Z.of_nat (length (hits_of Name rs)))
  ∧ misses_ c'
    = wrap64 (misses_ c + Z.of_nat (length (filter (λ r, hit_level r ≠ Name) rs))).
Proof.
  revert c rs c'. induction trace as [|[op addr] rest IH]; intros c rs c'; simpl.
  - intros [= <- <-] Hh Hm. simpl. by rewrite !Z.add_0_r, !wrap64_small.
  - destruct (access op addr c) as [[r c1]|] eqn:Hacc; simpl; [|done].
    destruct (run rest c1) as [[rs1 c2]|] eqn:Hrun; simpl; [|done].
    intros [= <- <-] Hh Hm. unfold hits_of.
    apply access_anatomy in Hacc as (s & t & _ & _ & Hcases).
    destruct Hcases as [(w & l & _ & _ & _ & _ & -> & Hh1 & Hm1 & _)
                       |(_ & rn & n1 & c3 & Hn & -> & _ & Hh1 & Hm1 & _)].
    + destruct (IH _ _ _ Hrun) as [-> ->];
        [rewrite Hh1; apply wrap64_range|by rewrite Hm1|].
      rewrite (list.filter_cons_True (λ r, hit_level r = Name)) by done.
      rewrite (list.filter_cons_False (λ r, hit_level r ≠ Name)) by (by intros ?).
      rewrite Hh1, Hm1. simpl length. rewrite wrap64_add_l. unfold hits_of.
      split; [f_equal; lia|done].
    + apply next_names in Hn.
      destruct (IH _ _ _ Hrun) as [-> ->];
        [by rewrite Hh1|rewrite Hm1; apply wrap64_range|].
      rewrite (list.filter_cons_False (λ r, hit_level r = Name)) by done.
      rewrite (list.filter_cons_True (λ r, hit_level r ≠ Name)) by done.
      rewrite Hh1, Hm1. simpl length. rewrite wrap64_add_l. unfold hits_of.
      split; [done|f_equal; lia].
Qed.
End TopRow.

(** X14.  For a hierarchy of distinct level names, the first row of the
    report of a simulation run from construction agrees with the top cache's
    own counters: its hits are [hits_] and its misses are [misses_]. *)
Theorem report_agrees_with_top_counters (Name : string) {NextLayer : Type}
    (next : Chain NextLayer) (Sets Ways BlockSize : Z) (ReplacePolicy : Type)
    `{!Policy ReplacePolicy} (HitLatency lat : Z) trace rs st :
  let c := chain_cache Name next Sets Ways BlockSize ReplacePolicy HitLatency in
  NoDup (level_names c) →
  @run _ (chain_level c) trace (chain_new c lat) = Some (rs, st) →
  ∃ row,
    table (PrintSimulationStats rs (level_names c)) !! 0%nat = Some (Name, row)
    ∧ hits row = hits_ st ∧ misses row = misses_ st.
Proof.
  intros c Hnd Hrun.
  assert (Hfresh : Name ∉ level_names next) by by apply NoDup_cons in Hnd as [? _].
  assert (Hnames : ∀ a n rn n',
            @Load _ (chain_level next) a n = Some (rn, n') → hit_level rn ≠ Name).
  { intros a n rn n' Hload Heq. apply Hfresh. rewrite <-Heq.
    by apply (chain_access_name next kLoad a n rn n'). }
  destruct (run_counts_results (MemoryLevel0 := chain_level next) Hnames
              trace (chain_new c lat) rs st Hrun)
    as [Hh Hm]; [by vm_compute|by vm_compute|].
  unfold PrintSimulationStats.
  pose proof (aggregate_step_stats (level_names c) rs ([], ∅) 0 Name Hnd eq_refl) as Hstats.
  unfold aggregate. destruct (foldl _ _ rs) as [errs stats_db]. simpl in *.
  eexists. split; [done|]. rewrite Hstats by (by vm_compute).
  replace (stats_at ∅ Name) with (mkStats 0 0 0) by done. simpl.
  rewrite Hh, Hm. split; [done|]. do 4 f_equal.
  apply list_filter_iff. intros r. rewrite take_0.
  by rewrite list_elem_of_singleton.
Qed.

Lemma report_agrees_with_top_counters_witness :
  ∃ rs st row,
    @run _ (chain_level Examples.two_level) [(kLoad, 0); (kStore, 64); (kLoad, 0)]
      (chain_new Examples.two_level 100) = Some (rs, st)
    ∧ table (PrintSimulationStats rs ["L1"; "L2"; "MainMemory"]) !! 0%nat
      = Some ("L1", row)
    ∧ hits row = hits_ st ∧ misses row = misses_ st.
Proof.
  assert (Hrun : ∃ rs st,
            @run _ (chain_level Examples.two_level)
              [(kLoad, 0); (kStore, 64); (kLoad, 0)]
              (chain_new Examples.two_level 100) = Some (rs, st))
    by (eexists _, _; vm_compute; reflexivity).
  destruct Hrun as (rs & st & Hrun). exists rs, st.
  destruct (report_agrees_with_top_counters "L1"
              (chain_cache "L2" (chain_memory "MainMemory") 4 2 64 LRUPolicy 10)
              2 1 16 LRUPolicy 1 100 _ rs st
              ltac:(by apply (bool_decide_unpack _)) Hrun)
    as (row & Hrow & Hh & Hm).
  exists row. split; [exact Hrun|]. split; [exact Hrow|]. by split.
Defined.

(** ** The access log *)

Lemma access_log_from_defined i history trace_addrs :
  is_Some (access_log_from i history trace_addrs)
  ↔ history = [] ∨ (i + length history ≤ length trace_addrs)%nat.
Proof.
  revert i. induction history as [|res rest IH]; intros i; simpl.
  - split; [by left|by eexists].
  - destruct (trace_addrs !! i) as [addr|] eqn:Haddr; simpl.
    + apply lookup_lt_Some in Haddr.
      destruct (access_log_from (S i) rest trace_addrs) as [rows|] eqn:Hrows; simpl.
      * split; [intros _; right|by eexists].
        destruct (proj1 (IH (S i))) as [->|?]; [by rewrite Hrows| |]; simpl; lia.
      * split; [by intros [? ?]|intros [?|Hlen]; [done|]].
        destruct (proj2 (IH (S i))) as [? ?]; [right; lia|].
        by rewrite Hrows in *.
    + apply lookup_ge_None in Haddr.
      split; [by intros [? ?]|intros [?|?]; [done|lia]].
Qed.

Lemma access_log_from_rows i history trace_addrs rows :
  access_log_from i history trace_addrs = Some rows →
  length rows = length history
  ∧ ∀ (j : nat) res, history !! j = Some res →
      ∃ addr, trace_addrs !! (i + j)%nat = Some addr
              ∧ rows !! j
                = Some (Z.of_nat (i + j), addr, hit_level res, total_cycles res).
Proof.
  revert i rows. induction history as [|res rest IH]; intros i rows; simpl.
  - intros [= <-]. by split.
  - destruct (trace_addrs !! i) as [addr|] eqn:Haddr; simpl; [|done].
    destruct (access_log_from (S i) rest trace_addrs) as [rows'|] eqn:Hrows;
      simpl; [|done].
    intros [= <-]. destruct (IH _ _ Hrows) as [Hlen Hrow].
    split; [by rewrite <-Hlen|].
    intros [|j] res'; simpl.
    + intros [= <-]. exists addr. by rewrite Nat.add_0_r.
    + intros Hres. destruct (Hrow j res' Hres) as (addr' & Ha & Hr).
      exists addr'. by replace (i + S j)%nat with (S i + j)%nat by lia.
Qed.

(** X15.  [PrintAccessLog] reads [trace_addrs] at every index of [history]:
    it is defined exactly when [history] is no longer than [trace_addrs], and
    then prints one row per result, row [j] carrying [j], [trace_addrs[j]]
    and the level and cycles of [history[j]]. *)
Theorem access_log_rows history trace_addrs :
  (is_Some (PrintAccessLog history trace_addrs)
   ↔ (length history ≤ length trace_addrs)%nat)
  ∧ ∀ rows, PrintAccessLog history trace_addrs = Some rows →
      length rows = length history
      ∧ ∀ (j : nat) res, history !! j = Some res →
          ∃ addr, trace_addrs !! j = Some addr
                  ∧ rows !! j
                    = Some (Z.of_nat j, addr, hit_level res, total_cycles res).
Proof.
  unfold PrintAccessLog. split.
  - rewrite access_log_from_defined. simpl. split; [intros [->|?]; simpl; lia|by right].
  - intros rows Hrows. by apply (access_log_from_rows 0).
Qed.

Lemma run_length {T : Type} `{!MemoryLevel T} trace (st : T) rs st' :
  run trace st = Some (rs, st') → length rs = length trace.
Proof.
  revert st rs st'. induction trace as [|[op addr] rest IH]; intros st rs st'; simpl.
  - by intros [= <- <-].
  - destruct (access op addr st) as [[r st1]|]; simpl; [|done].
    destruct (run rest st1) as [[rs1 st2]|] eqn:Hrun; simpl; [|done].
    intros [= <- <-]. simpl. f_equal. by eapply IH.
Qed.

(** X16.  A simulation gives one result per access, so the log of its
    results against the addresses of its trace is always defined, and row [j]
    shows the address of the [j]-th access. *)
Theorem access_log_of_run {T : Type} `{!MemoryLevel T} trace (st : T) rs st' :
  run trace st = Some (rs, st') →
  ∃ rows,
    PrintAccessLog rs (trace.*2) = Some rows
    ∧ length rows = length trace
    ∧ ∀ (j : nat) op addr, trace !! j = Some (op, addr) →
        ∃ res, rs !! j = Some res
               ∧ rows !! j
                 = Some (Z.of_nat j, addr, hit_level res, total_cycles res).
Proof.
  intros Hlen%run_length.
  destruct (proj2 (access_log_from_defined 0 rs (trace.*2))) as [rows Hrows].
  { right. rewrite length_fmap. simpl. lia. }
  exists rows. split; [done|].
  destruct (access_log_from_rows _ _ _ _ Hrows) as [Hl Hrow].
  split; [congruence|]. intros j op addr Hj.
  destruct (lookup_lt_is_Some_2 rs j) as [res Hres].
  { rewrite Hlen. by eapply lookup_lt_Some. }
  exists res. split; [done|].
  destruct (Hrow j res Hres) as (addr' & Ha & Hr). simpl in *.
  rewrite list_lookup_fmap, Hj in Ha. simpl in Ha. by injection Ha as <-.
Qed.

Lemma access_log_of_run_witness :
  ∃ rs st' rows,
    @run _ (chain_level Examples.two_level) [(kLoad, 0); (kStore, 64); (kLoad, 0)]
      (chain_new Examples.two_level 100) = Some (rs, st')
    ∧ PrintAccessLog rs [0; 64; 0] = Some rows
    ∧ length rows = 3%nat.
Proof.
  assert (Hrun : ∃ rs st',
            @run _ (chain_level Examples.two_level)
              [(kLoad, 0); (kStore, 64); (kLoad, 0)]
              (chain_new Examples.two_level 100) = Some (rs, st'))
    by (eexists _, _; vm_compute; reflexivity).
  destruct Hrun as (rs & st' & Hrun). exists rs, st'.
  destruct (access_log_of_run _ _ _ _ Hrun) as (rows & Hrows & Hlen & _).
  exists rows. split; [exact Hrun|]. split; [exact Hrows|exact Hlen].
Defined.
